(** * ClesdafedGaming Shop: the product-generation workflow of [src/index.tsx]

    A shallow embedding of the single source file of the storefront: the
    module initialisation (API key), the [App] component with its four
    pieces of state, the asynchronous [fetchProducts] workflow (one text
    call, a fan-out of image calls, [Promise.all] as fan-in), and the
    render functions [App], [ProductCard] and [LiveChat].

    JavaScript values are modelled as far as the program can observe them:
    whatever [JSON.parse] may return, IEEE-754 doubles for numbers (through
    the [spec_float] of the standard library), exceptions as a [Result].
    A string is the UTF-8 text of the JavaScript string.
    The services the program talks to (the environment, the AI client,
    [JSON.parse], [Number::toString]) are the fields of a [World].

    The program runs on one thread of an event loop. A run is the sequence
    of the events that happen after start-up: the answer of the text call,
    the answer of an image call that is in flight, a click on the chat. An
    event is handled to the end, promise reactions included, before the
    next one, and the page is rendered anew in between, so a click handler
    holds the current state. Calls that are never answered are runs that
    stop short. *)

From Stdlib Require Import ZArith String Ascii Lia.
From Stdlib Require Import Floats.SpecFloat.
From Stdlib Require Import Numbers.DecimalString Numbers.DecimalFacts Numbers.DecimalN.
From stdpp Require Import base option list.

Local Open Scope string_scope.
Set Warnings "-register-all".

(** ** JavaScript values *)

(** A Number is a binary64 value. *)
Definition number : Type := spec_float.

(** Values as [JSON.parse] builds them, plus [undefined], which property
    reads produce. An object is its list of own properties, oldest first. *)
Inductive JSValue : Type :=
| JSUndefined
| JSNull
| JSBool (b : bool)
| JSNumber (x : number)
| JSString (s : string)
| JSArray (elems : list JSValue)
| JSObject (props : list (string * JSValue)).

Definition Obj : Type := list (string * JSValue).

(** Exceptions the program can meet. *)
Inductive Exn : Type :=
| TypeError
| SyntaxError
| Error (message : string)
| ServiceError (message : string).

(** The outcome of an expression that may throw, or of a settled promise. *)
Inductive Result (A : Type) : Type :=
| Ok (a : A)
| Throw (e : Exn).
Arguments Ok {A} a.
Arguments Throw {A} e.

#[global] Instance Result_bind : MBind Result := fun A B k r =>
  match r with
  | Ok a => k a
  | Throw e => Throw e
  end.

Definition is_ok {A} (r : Result A) : bool :=
  match r with Ok _ => true | Throw _ => false end.

(** *** Own properties *)

Fixpoint obj_get (key : string) (o : Obj) : JSValue :=
  match o with
  | [] => JSUndefined
  | (k, v) :: rest => if String.eqb k key then v else obj_get key rest
  end.

(** [o[key] = v]: an existing property keeps its place, a new one goes last. *)
Fixpoint obj_set (key : string) (v : JSValue) (o : Obj) : Obj :=
  match o with
  | [] => [(key, v)]
  | (k, w) :: rest =>
      if String.eqb k key then (k, v) :: rest else (k, w) :: obj_set key v rest
  end.

Definition string_of_nat (n : nat) : string :=
  NilZero.string_of_uint (Nat.to_uint n).

(** A string stands for a JavaScript string through UTF-8, and a surrogate
    that stands alone through the three bytes the same scheme gives it. *)
Definition byte (c : ascii) : N := N_of_ascii c.

(** The code unit [u], a surrogate, as its three bytes. *)
Definition surrogate (u : N) : string :=
  String (ascii_of_N (0xE0 + N.shiftr u 12))
    (String (ascii_of_N (0x80 + N.land (N.shiftr u 6) 0x3F))
       (String (ascii_of_N (0x80 + N.land u 0x3F)) "")).

(** The two code units of a character of four bytes. *)
Definition surrogate_pair (a b c d : ascii) : list string :=
  let point :=
    N.lor (N.shiftl (N.land (byte a) 0x07) 18)
      (N.lor (N.shiftl (N.land (byte b) 0x3F) 12)
         (N.lor (N.shiftl (N.land (byte c) 0x3F) 6) (N.land (byte d) 0x3F))) in
  let v := (point - 0x10000)%N in
  [surrogate (0xD800 + N.shiftr v 10); surrogate (0xDC00 + N.land v 0x3FF)].

(** The UTF-16 code units of a string, each as the string of that one
    unit: a character of one, two or three bytes is one unit, a character
    of four bytes is two. Bytes that begin no character are taken one by
    one. *)
Fixpoint code_units (s : string) : list string :=
  match s with
  | EmptyString => []
  | String a rest =>
      if (byte a <? 0xC0)%N then String a "" :: code_units rest
      else if (byte a <? 0xE0)%N then
        match rest with
        | String b rest' => String a (String b "") :: code_units rest'
        | _ => String a "" :: code_units rest
        end
      else if (byte a <? 0xF0)%N then
        match rest with
        | String b (String c rest') =>
            String a (String b (String c "")) :: code_units rest'
        | _ => String a "" :: code_units rest
        end
      else
        match rest with
        | String b (String c (String d rest')) =>
            (surrogate_pair a b c d ++ code_units rest')%list
        | _ => String a "" :: code_units rest
        end
  end.

(** [v.key] for the keys the program reads ([name], [description], [price],
    [imageUrl]). Reading a property of [null] or [undefined] throws; an
    object answers with its own property; arrays, strings, numbers and
    booleans have no such property, own or inherited. *)
Definition GetV (v : JSValue) (key : string) : Result JSValue :=
  match v with
  | JSUndefined | JSNull => Throw TypeError
  | JSObject props => Ok (obj_get key props)
  | _ => Ok JSUndefined
  end.

(** The own enumerable properties an object spread [{...v}] copies: of an
    array its elements, of a string its code units, by index. *)
Definition own_properties (v : JSValue) : Obj :=
  match v with
  | JSObject props => props
  | JSArray elems => imap (fun i e => (string_of_nat i, e)) elems
  | JSString s => imap (fun i c => (string_of_nat i, JSString c)) (code_units s)
  | _ => []
  end.

(** ** Numbers *)

Definition sign_string (s : bool) : string := if s then "-" else "".

Definition string_of_N (n : N) : string :=
  NilZero.string_of_uint (N.to_uint n).

Fixpoint zeros (n : nat) : string :=
  match n with
  | O => ""
  | S n' => String "0" (zeros n')
  end.

(** The digits of [n] with a decimal point before the last [f] of them. *)
Definition place_point (f : nat) (n : N) : string :=
  let m := string_of_N n in
  let k := String.length m in
  let m := if (k <=? f)%nat then zeros (f + 1 - k) ++ m else m in
  let k := String.length m in
  match f with
  | O => m
  | _ => substring 0 (k - f) m ++ "." ++ substring (k - f) f m
  end.

(** The integer [n] for which [n / 10^f - m * 2^e] is closest to zero, the
    larger one when two are as close. *)
Definition nearest_scaled (f : nat) (m : positive) (e : Z) : N :=
  let scaled := (Z.pos m * 10 ^ Z.of_nat f)%Z in
  if (0 <=? e)%Z then Z.to_N (scaled * 2 ^ e)
  else Z.to_N ((2 * scaled + 2 ^ (- e)) / 2 ^ (- e + 1)).

(** [m * 2^e >= 10^21] *)
Definition at_least_1e21 (m : positive) (e : Z) : bool :=
  if (0 <=? e)%Z then (10 ^ 21 <=? Z.pos m * 2 ^ e)%Z
  else (10 ^ 21 * 2 ^ (- e) <=? Z.pos m)%Z.

Section Number.
(** [Number::toString] for finite non-zero values is taken as given. *)
Variable Number_toString : number -> string.

Definition number_to_string (x : number) : string :=
  match x with
  | S754_nan => "NaN"
  | S754_infinity s => sign_string s ++ "Infinity"
  | S754_zero _ => "0"
  | S754_finite _ _ _ => Number_toString x
  end.

(** [Number.prototype.toFixed(f)] for [0 <= f <= 100]. *)
Definition toFixed (f : nat) (x : number) : string :=
  match x with
  | S754_finite s m e =>
      sign_string s ++
      (if at_least_1e21 m e then Number_toString (S754_finite false m e)
       else place_point f (nearest_scaled f m e))
  | S754_zero _ => place_point f 0
  | _ => number_to_string x
  end.
End Number.

(** The double that the literal [24.99] denotes. *)
Definition double_24_99 : number :=
  S754_finite false 0x18FD70A3D70A3D (-48).


(** ** Conversion to string *)

Definition has_own (key : string) (o : Obj) : bool :=
  existsb (fun kv => String.eqb (fst kv) key) o.

Section Conversion.
Variable Number_toString : number -> string.

(** [ToString(v)], as a template literal or a concatenation with a string
    applies it. An array joins its elements with commas, [null] and
    [undefined] elements giving the empty string. A parsed object answers
    through [Object.prototype.toString], unless an own (and so not
    callable) [toString] property hides it: then no primitive is found. *)
Fixpoint ToString (v : JSValue) : Result string :=
  match v with
  | JSUndefined => Ok "undefined"
  | JSNull => Ok "null"
  | JSBool b => Ok (if b then "true" else "false")
  | JSNumber x => Ok (number_to_string Number_toString x)
  | JSString s => Ok s
  | JSArray elems =>
      let element e :=
        match e with
        | JSUndefined | JSNull => Ok ""
        | _ => ToString e
        end in
      (fix join (l : list JSValue) : Result string :=
         match l with
         | [] => Ok ""
         | [e] => element e
         | e :: rest => s ← element e; t ← join rest; Ok (s ++ "," ++ t)
         end) elems
  | JSObject props =>
      if has_own "toString" props then Throw TypeError
      else Ok "[object Object]"
  end.
End Conversion.

(** ** The AI client *)

Inductive Schema : Type :=
| SchemaArray (items : Schema)
| SchemaObject (properties : list (string * Schema)) (required : list string)
| SchemaString (description : string)
| SchemaNumber (description : string).

Record GenerateContentParameters : Type := {
  content_model : string;
  contents : string;
  responseMimeType : string;
  responseSchema : Schema
}.

(** [text] is a getter that may answer [undefined]. *)
Record GenerateContentResponse : Type := { text : option string }.

Record GenerateImagesParameters : Type := {
  images_model : string;
  prompt : string;
  numberOfImages : nat;
  outputMimeType : string;
  aspectRatio : string
}.

(** Every field of an image response is optional in the client's types. *)
Record Image : Type := { imageBytes : option string }.
Record GeneratedImage : Type := { image : option Image }.
Record GenerateImagesResponse : Type := {
  generatedImages : option (list GeneratedImage)
}.

Record GoogleGenAI : Type := { apiKey : string }.

(** What the program does not define and only uses: the environment, the
    two built-ins and the answers of the service. The image call that the
    callback of the array element [i] issues is call [i]; its answer may
    depend on [i] as well as on the request. *)
Record World : Type := {
  env : string -> option string;
  JSON_parse : string -> Result JSValue;
  Number_toString : number -> string;
  generateContent :
    GoogleGenAI -> GenerateContentParameters -> Result GenerateContentResponse;
  generateImages :
    GoogleGenAI -> nat -> GenerateImagesParameters -> Result GenerateImagesResponse
}.

(** What the program does to the outside, oldest first. *)
Inductive Effect : Type :=
| EnvRead (key : string)
| TextCall (request : GenerateContentParameters)
| ImageCall (i : nat) (request : GenerateImagesParameters)
| ConsoleError (label : string) (err : Exn).

(** ** Module initialisation *)

(** [!API_KEY] (line 11) *)
Definition not_string (v : option string) : bool :=
  match v with
  | None => true
  | Some s => String.eqb s ""
  end.

Definition module_init (W : World) : list Effect * Result GoogleGenAI :=
  let API_KEY := env W "API_KEY" in
  ([EnvRead "API_KEY"],
   if not_string API_KEY then
     Throw (Error "API_KEY environment variable not set")
   else Ok {| apiKey := default "" API_KEY |}).

(** ** The state of [App] *)

Record UIState : Type := {
  products : list JSValue;
  loading : bool;
  error : string;
  isChatOpen : bool
}.

Definition initial_state : UIState :=
  {| products := []; loading := true; error := ""; isChatOpen := false |}.

Definition setProducts (v : list JSValue) (st : UIState) : UIState :=
  {| products := v; loading := loading st; error := error st;
     isChatOpen := isChatOpen st |}.

Definition setLoading (v : bool) (st : UIState) : UIState :=
  {| products := products st; loading := v; error := error st;
     isChatOpen := isChatOpen st |}.

Definition setError (v : string) (st : UIState) : UIState :=
  {| products := products st; loading := loading st; error := v;
     isChatOpen := isChatOpen st |}.

Definition setChatOpen (v : bool) (st : UIState) : UIState :=
  {| products := products st; loading := loading st; error := error st;
     isChatOpen := v |}.

(** The [onClick] handlers of [LiveChat]: the bubble toggles with the value
    of [isChatOpen] it was rendered with, the close button closes. *)
Inductive Handler : Type :=
| CallSetChatOpen (v : bool).

Definition handle (h : Handler) (st : UIState) : UIState :=
  match h with
  | CallSetChatOpen v => setChatOpen v st
  end.

Definition bubble_onClick (isChatOpen : bool) : Handler :=
  CallSetChatOpen (negb isChatOpen).

Definition close_onClick : Handler := CallSetChatOpen false.

(** ** [fetchProducts] *)

Definition nl : string := String "010"%char "".
Definition dquote : string := String "034"%char "".

Definition textPrompt : string :=
  nl ++
  "          You are an AI for ClesdafedGaming, a gaming YouTube channel. Generate a list of 5 unique, cool, and desirable merchandise items for the channel's online store. " ++ nl ++
  "          The items should be apparel like t-shirts. " ++ nl ++
  "          For each item, provide a catchy, gaming-related name, a brief and exciting description (under 15 words). and a price." ++ nl ++
  "        ".

Definition text_request : GenerateContentParameters :=
  {| content_model := "gemini-2.5-flash";
     contents := textPrompt;
     responseMimeType := "application/json";
     responseSchema :=
       SchemaArray
         (SchemaObject
            [("name", SchemaString "The creative name of the product.");
             ("description", SchemaString "A short, punchy product description.");
             ("price", SchemaNumber "The price of the product in USD.")]
            ["name"; "description"; "price"]) |}.

Definition imagePrompt (name : string) : string :=
  "A professional ecommerce product photograph of a t-shirt featuring a clean, modern, minimalist graphic design inspired by " ++ dquote ++ name ++ dquote ++
  ". The t-shirt is neatly displayed on a neutral, light gray background. High-quality, commercial photography.".

Definition image_request (name : string) : GenerateImagesParameters :=
  {| images_model := "imagen-4.0-generate-001";
     prompt := imagePrompt name;
     numberOfImages := 1;
     outputMimeType := "image/png";
     aspectRatio := "1:1" |}.

Definition error_message : string :=
  "Failed to generate merchandise. Please try again later.".

(** Where [fetchProducts] is suspended. [Promise.all] keeps the list of
    values, [undefined] where a promise is not fulfilled yet, and the count
    of the promises still to be fulfilled. *)
Inductive Phase : Type :=
| AwaitText
| AwaitAll (values : list JSValue) (remaining : nat)
| Finished.

(** An image call on its way: the callback of element [index] is suspended
    at its [await], holding its [product]. *)
Record Pending : Type := {
  index : nat;
  product : JSValue;
  request : GenerateImagesParameters
}.

Record Config : Type := {
  ai : GoogleGenAI;
  ui : UIState;
  phase : Phase;
  inflight : list Pending;
  log : list Effect
}.

Definition with_ui (f : UIState -> UIState) (c : Config) : Config :=
  {| ai := ai c; ui := f (ui c); phase := phase c; inflight := inflight c;
     log := log c |}.

Definition with_phase (p : Phase) (c : Config) : Config :=
  {| ai := ai c; ui := ui c; phase := p; inflight := inflight c; log := log c |}.

Definition with_inflight (l : list Pending) (c : Config) : Config :=
  {| ai := ai c; ui := ui c; phase := phase c; inflight := l; log := log c |}.

Definition emit (es : list Effect) (c : Config) : Config :=
  {| ai := ai c; ui := ui c; phase := phase c; inflight := inflight c;
     log := log c ++ es |}.

(** [catch (err) { ... } finally { setLoading(false) }] (lines 138 to 143) *)
Definition on_failure (err : Exn) (c : Config) : Config :=
  with_phase Finished
    (with_ui (setLoading false)
       (with_ui (setError error_message)
          (emit [ConsoleError "Error fetching products:" err] c))).

(** [setProducts(productsWithImages)] (line 136), then the [finally] block. *)
Definition on_success (productsWithImages : list JSValue) (c : Config) : Config :=
  with_phase Finished
    (with_ui (setLoading false)
       (with_ui (setProducts productsWithImages) c)).

(** [{ ...product, imageUrl }] *)
Definition extend (product : JSValue) (imageUrl : string) : JSValue :=
  JSObject (obj_set "imageUrl" (JSString imageUrl) (own_properties product)).

(** What can happen next: the text call or an image call is answered, or
    the user clicks the chat bubble or the close button of the chat. *)
Inductive Event : Type :=
| TextDone
| ImageDone (i : nat)
| ClickBubble
| ClickClose.

(** How start-up ends: with an uncaught exception, or with [App] mounted. *)
Inductive Startup : Type :=
| Fatal (err : Exn) (effects : list Effect)
| Mounted (c : Config).

Section Workflow.
Variable W : World.

(** The callback of [map] up to its [await] (lines 116 to 127): the request
    it sends, unless building the prompt throws. *)
Definition callback_start (product : JSValue) : Result GenerateImagesParameters :=
  name ← GetV product "name";
  s ← ToString (Number_toString W) name;
  Ok (image_request s).

(** [imageResponse.generatedImages[0].image.imageBytes] inside the data URI:
    reading through a missing array, image or element throws, missing
    bytes print as [undefined]. *)
Definition imageUrl_of (imageResponse : GenerateImagesResponse) : Result string :=
  images ← from_option Ok (Throw TypeError) (generatedImages imageResponse);
  first ← from_option Ok (Throw TypeError) (images !! 0%nat);
  img ← from_option Ok (Throw TypeError) (image first);
  let base64ImageBytes := default "undefined" (imageBytes img) in
  Ok ("data:image/png;base64," ++ base64ImageBytes).

(** The callback from its [await] on (lines 129 to 132). *)
Definition callback_resume (product : JSValue)
    (answer : Result GenerateImagesResponse) : Result JSValue :=
  imageResponse ← answer;
  imageUrl ← imageUrl_of imageResponse;
  Ok (extend product imageUrl).

(** The promise of the callback of element [i], once settled. *)
Definition callback (ai : GoogleGenAI) (i : nat) (product : JSValue) : Result JSValue :=
  request ← callback_start product;
  callback_resume product (generateImages W ai i request).

(** [productTextData.map(async (product) => ...)]: every callback runs up
    to its [await], in the order of the array. *)
Definition started (elems : list JSValue)
  : list (nat * JSValue * Result GenerateImagesParameters) :=
  imap (fun i product => (i, product, callback_start product)) elems.

Definition issued (l : list (nat * JSValue * Result GenerateImagesParameters))
  : list Pending :=
  omap (fun '(i, product, r) =>
          match r with
          | Ok request => Some {| index := i; product := product; request := request |}
          | Throw _ => None
          end) l.

Fixpoint first_rejected (l : list (nat * JSValue * Result GenerateImagesParameters))
  : option Exn :=
  match l with
  | [] => None
  | (_, _, Throw e) :: _ => Some e
  | (_, _, Ok _) :: rest => first_rejected rest
  end.

(** [await Promise.all(productPromises)] as far as it gets before any
    answer arrives: a callback that threw has left a rejected promise, and
    the first of those in the array rejects the whole; no promise at all
    fulfils it with the empty array. *)
Definition promise_all (l : list (nat * JSValue * Result GenerateImagesParameters))
    (c : Config) : Config :=
  match first_rejected l with
  | Some e => on_failure e c
  | None =>
      match length l with
      | O => on_success [] c
      | n => with_phase (AwaitAll (replicate n JSUndefined) n) c
      end
  end.

(** [fetchProducts] from the answer of the text call up to the next
    suspension (lines 94 to 135). A parsed value that is not an array has
    no [map]. *)
Definition after_text (answer : Result GenerateContentResponse) (c : Config) : Config :=
  match answer with
  | Throw e => on_failure e c
  | Ok textResponse =>
      match JSON_parse W (default "undefined" (text textResponse)) with
      | Throw e => on_failure e c
      | Ok (JSArray productTextData) =>
          let productPromises := started productTextData in
          let calls := issued productPromises in
          promise_all productPromises
            (emit ((fun p => ImageCall (index p) (request p)) <$> calls)
               (with_inflight calls c))
      | Ok _ => on_failure TypeError c
      end
  end.

(** The promise of element [i] settles while [Promise.all] waits. *)
Definition settle (i : nat) (outcome : Result JSValue) (c : Config) : Config :=
  match phase c with
  | AwaitAll values remaining =>
      match outcome with
      | Ok v =>
          let values := <[i := v]> values in
          let remaining := (remaining - 1)%nat in
          if (remaining =? 0)%nat then on_success values c
          else with_phase (AwaitAll values remaining) c
      | Throw e => on_failure e c
      end
  | _ => c
  end.

Definition find_pending (i : nat) (l : list Pending) : option Pending :=
  List.find (fun p => (index p =? i)%nat) l.

Definition remove_pending (i : nat) (l : list Pending) : list Pending :=
  filter (fun p => index p <> i) l.

(** One turn of the event loop; [None] when the event cannot happen. *)
Definition step (c : Config) (ev : Event) : option Config :=
  match ev with
  | TextDone =>
      match phase c with
      | AwaitText => Some (after_text (generateContent W (ai c) text_request) c)
      | _ => None
      end
  | ImageDone i =>
      p ← find_pending i (inflight c);
      Some (settle i
              (callback_resume (product p) (generateImages W (ai c) i (request p)))
              (with_inflight (remove_pending i (inflight c)) c))
  | ClickBubble => Some (with_ui (handle (bubble_onClick (isChatOpen (ui c)))) c)
  | ClickClose => Some (with_ui (handle close_onClick) c)
  end.

Fixpoint exec (c : Config) (evs : list Event) : option Config :=
  match evs with
  | [] => Some c
  | ev :: rest => c' ← step c ev; exec c' rest
  end.

(** The first render, then the effect: [fetchProducts] up to the [await]
    of the text call (lines 77 to 94). *)
Definition mount (client : GoogleGenAI) : Config :=
  {| ai := client;
     ui := setError "" (setLoading true initial_state);
     phase := AwaitText;
     inflight := [];
     log := [TextCall text_request] |}.

(** The module body, top to bottom: lines 10 to 14, then [render] on line
    168. *)
Definition main : Startup :=
  let '(effects, client) := module_init W in
  match client with
  | Throw e => Fatal e effects
  | Ok client =>
      let c := mount client in
      Mounted {| ai := ai c; ui := ui c; phase := phase c;
                 inflight := inflight c; log := effects ++ log c |}
  end.

(** A run: the events that happen after start-up, in their order. *)
Definition run (evs : list Event) : option Config :=
  match main with
  | Fatal _ _ => None
  | Mounted c => exec c evs
  end.
End Workflow.

(** ** The view *)

Inductive Attr : Type :=
| Attribute (name value : string)
| AttributeValue (name : string) (v : JSValue)
| OnClick (h : Handler).

Inductive Component : Type :=
| Header
| ProductCard (key : JSValue) (product : JSValue)
| LiveChat (isChatOpen : bool).

(** What a template evaluates to: static text, an interpolated value, an
    element, or a component still to be rendered. *)
Inductive VNode : Type :=
| VText (s : string)
| VValue (v : JSValue)
| VElem (tag : string) (attrs : list Attr) (children : list VNode)
| VComp (c : Component).

Definition class (v : string) : Attr := Attribute "class" v.

Fixpoint traverse {A B} (f : A -> Result B) (l : list A) : Result (list B) :=
  match l with
  | [] => Ok []
  | a :: rest => b ← f a; bs ← traverse f rest; Ok (b :: bs)
  end.

(** One entry of [products.map(...)]: a [ProductCard] keyed by the name. *)
Definition card (product : JSValue) : Result VNode :=
  key ← GetV product "name";
  Ok (VComp (ProductCard key product)).

(** [error] as a condition: the empty string is falsy. *)
Definition truthy (s : string) : bool := negb (String.eqb s "").

(** The template of [App] (lines 149 to 165): header, main content, chat.
    The grid is only evaluated when neither [loading] nor [error] holds. The
    components in it are left to be rendered by their own functions. *)
Definition App_render (st : UIState) : Result (list VNode) :=
  let loader :=
    if loading st then
      VElem "div" [class "loader"]
        [VElem "p" []
           [VText "Generating Your Custom ClesdafedGaming Gear & Designs..."]]
    else VValue (JSBool false) in
  let failure :=
    if truthy (error st) then
      VElem "div" [class "error"] [VValue (JSString (error st))]
    else VValue (JSString (error st)) in
  grid ←
    (if negb (loading st) && negb (truthy (error st)) then
       cards ← traverse card (products st);
       Ok (VElem "div" [class "products-grid"] cards)
     else Ok (VValue (JSBool false)));
  Ok [VComp Header;
      VElem "main" [class "main-content"] [loader; failure; grid];
      VComp (LiveChat (isChatOpen st))].

Section View.
Variable W : World.

(** The template of [ProductCard] (lines 37 to 52). A static attribute with
    a value inside is the concatenation of its parts; [price.toFixed] exists
    on numbers only. *)
Definition ProductCard_render (product : JSValue) : Result VNode :=
  name ← GetV product "name";
  description ← GetV product "description";
  price ← GetV product "price";
  imageUrl ← GetV product "imageUrl";
  fixed ← match price with
          | JSNumber x => Ok (toFixed (Number_toString W) 2 x)
          | _ => Throw TypeError
          end;
  label ← ToString (Number_toString W) name;
  Ok (VElem "div" [class "product-card"]
        [VElem "img"
           [AttributeValue "src" imageUrl;
            Attribute "alt" ("AI generated image of " ++ label);
            class "product-image"] [];
         VElem "div" [class "product-info"]
           [VElem "h2" [class "product-name"] [VValue name];
            VElem "p" [class "product-description"] [VValue description];
            VElem "div" [class "product-footer"]
              [VElem "p" [class "product-price"]
                 [VText "$"; VValue (JSString fixed)];
               VElem "button"
                 [class "buy-button";
                  Attribute "aria-label" ("Add " ++ label ++ " to cart")]
                 [VText "Add to Cart"]]]]).

(** The text a child value shows, as the renderer puts children on the
    page: strings and numbers as text, arrays element by element, anything
    else nothing. *)
Fixpoint value_text (v : JSValue) : string :=
  match v with
  | JSString s => s
  | JSNumber x => number_to_string (Number_toString W) x
  | JSArray elems =>
      (fix all (l : list JSValue) : string :=
         match l with
         | [] => ""
         | e :: rest => value_text e ++ all rest
         end) elems
  | _ => ""
  end.

(** The text of a rendered node, components left out. *)
Fixpoint textContent (n : VNode) : string :=
  match n with
  | VText s => s
  | VValue v => value_text v
  | VElem _ _ children =>
      (fix all (l : list VNode) : string :=
         match l with
         | [] => ""
         | c :: rest => textContent c ++ all rest
         end) children
  | VComp _ => ""
  end.
End View.

(** The template of [LiveChat] (lines 54 to 74), text as written. *)
Definition LiveChat_render (isChatOpen : bool) : VNode :=
  VElem "div" [class "live-chat"]
    [VElem "div"
       [class "live-chat-bubble";
        OnClick (bubble_onClick isChatOpen);
        Attribute "role" "button";
        Attribute "aria-label" "Toggle live chat"]
       [VElem "svg"
          [Attribute "xmlns" "http://www.w3.org/2000/svg";
           Attribute "viewBox" "0 0 24 24"]
          [VElem "path"
             [Attribute "d" "M20 2H4c-1.1 0-2 .9-2 2v18l4-4h14c1.1 0 2-.9 2-2V4c0-1.1-.9-2-2-2z"]
             []]];
     VElem "div"
       [class ("chat-window " ++ (if isChatOpen then "open" else ""))]
       [VElem "div" [class "chat-header"]
          [VElem "h3" [] [VText "Live Support"];
           VElem "button"
             [class "chat-close-btn";
              OnClick close_onClick;
              Attribute "aria-label" "Close chat"]
             [VText "&times;"]];
        VElem "div" [class "chat-body"]
          [VElem "p" []
             [VElem "strong" [] [VText "Support:"];
              VText " Welcome to ClesdafedGaming Shop! How can I help you today?"]];
        VElem "div" [class "chat-footer"]
          [VElem "input"
             [Attribute "type" "text";
              Attribute "placeholder" "Type your message..."] []]]].

(** The handlers of the bubble and of the close button, read off the
    rendered chat. *)
Fixpoint handlers (n : VNode) : list Handler :=
  match n with
  | VElem _ attrs children =>
      (omap (fun a => match a with OnClick h => Some h | _ => None end) attrs
       ++ (fix all (l : list VNode) : list Handler :=
             match l with
             | [] => []
             | c :: rest => handlers c ++ all rest
             end) children)%list
  | _ => []
  end.

(** ** Notions the properties are stated with *)

(** The client that [main] builds. *)
Definition client (W : World) : GoogleGenAI :=
  {| apiKey := default "" (env W "API_KEY") |}.

(** The text call with its parse: what [productTextData] is bound to. *)
Definition text_call (W : World) : Result JSValue :=
  textResponse ← generateContent W (client W) text_request;
  JSON_parse W (default "undefined" (text textResponse)).

(** The elements of an array with their indices. *)
Definition indexed {A} (l : list A) : list (nat * A) :=
  imap (fun i a => (i, a)) l.

(** All the promises of the callbacks, settled, in the order of the array. *)
Definition merged (W : World) (specs : list JSValue) : Result (list JSValue) :=
  traverse (fun '(i, spec) => callback W (client W) i spec) (indexed specs).

Definition image_calls (l : list Effect) : list (nat * GenerateImagesParameters) :=
  omap (fun e => match e with ImageCall i r => Some (i, r) | _ => None end) l.

Definition text_calls (l : list Effect) : list GenerateContentParameters :=
  omap (fun e => match e with TextCall r => Some r | _ => None end) l.

Definition env_reads (l : list Effect) : list string :=
  omap (fun e => match e with EnvRead k => Some k | _ => None end) l.

Definition startup_effects (s : Startup) : list Effect :=
  match s with
  | Fatal _ effects => effects
  | Mounted c => log c
  end.

Definition is_chat_event (ev : Event) : bool :=
  match ev with
  | ClickBubble | ClickClose => true
  | _ => false
  end.

(** The invariant the data model asks of a ProductSpec: the three fields
    are there, [name] and [description] are non-empty strings and [price]
    is a number with [0 <= price]. *)
Definition ProductSpec_ok (v : JSValue) : bool :=
  match v with
  | JSObject props =>
      match obj_get "name" props, obj_get "description" props, obj_get "price" props with
      | JSString name, JSString description, JSNumber price =>
          truthy name && truthy description && SFleb (S754_zero false) price
      | _, _, _ => false
      end
  | _ => false
  end.

Definition has_class (cls : string) (attrs : list Attr) : bool :=
  existsb (fun a =>
             match a with
             | Attribute "class" v => String.eqb v cls
             | _ => false
             end) attrs.

(** Is an element of class [cls] anywhere in the node? *)
Fixpoint shows (cls : string) (n : VNode) : bool :=
  match n with
  | VElem _ attrs children => has_class cls attrs || existsb (shows cls) children
  | _ => false
  end.

(** The first element of class [cls], going down and left to right. *)
Fixpoint find_class (cls : string) (n : VNode) : option VNode :=
  match n with
  | VElem _ attrs children =>
      if has_class cls attrs then Some n
      else (fix first (l : list VNode) : option VNode :=
              match l with
              | [] => None
              | c :: rest =>
                  match find_class cls c with
                  | Some found => Some found
                  | None => first rest
                  end
              end) children
  | _ => None
  end.

Fixpoint list_find_map {A B} (f : A -> option B) (l : list A) : option B :=
  match l with
  | [] => None
  | a :: rest =>
      match f a with
      | Some b => Some b
      | None => list_find_map f rest
      end
  end.

(** The value of an attribute of an element. *)
Definition attribute (name : string) (n : VNode) : option JSValue :=
  match n with
  | VElem _ attrs _ =>
      list_find_map
        (fun a =>
           match a with
           | Attribute k v => if String.eqb k name then Some (JSString v) else None
           | AttributeValue k v => if String.eqb k name then Some v else None
           | OnClick _ => None
           end) attrs
  | _ => None
  end.

(** The page while the workflow runs: the loader alone. *)
Definition loading_page (isChatOpen : bool) : list VNode :=
  [VComp Header;
   VElem "main" [class "main-content"]
     [VElem "div" [class "loader"]
        [VElem "p" []
           [VText "Generating Your Custom ClesdafedGaming Gear & Designs..."]];
      VValue (JSString "");
      VValue (JSBool false)];
   VComp (LiveChat isChatOpen)].

(** The page when the workflow has failed: the message in place of the grid. *)
Definition error_page (isChatOpen : bool) : list VNode :=
  [VComp Header;
   VElem "main" [class "main-content"]
     [VValue (JSBool false);
      VElem "div" [class "error"] [VValue (JSString error_message)];
      VValue (JSBool false)];
   VComp (LiveChat isChatOpen)].

(** The page when the workflow has succeeded: the grid with its cards. *)
Definition products_page (cards : list VNode) (isChatOpen : bool) : list VNode :=
  [VComp Header;
   VElem "main" [class "main-content"]
     [VValue (JSBool false);
      VValue (JSString "");
      VElem "div" [class "products-grid"] cards];
   VComp (LiveChat isChatOpen)].

(** ** Sample worlds *)

(** A world with the API key set, one answer of the text service, a parser
    that knows that one answer, and the image answers given per call. The
    digits of numbers are never asked for in these worlds. *)
Definition sample_world (answer : string) (parsed : JSValue)
    (images : nat -> GenerateImagesParameters -> Result GenerateImagesResponse)
  : World :=
  {| env := fun key => if String.eqb key "API_KEY" then Some "secret" else None;
     JSON_parse := fun s => if String.eqb s answer then Ok parsed else Throw SyntaxError;
     Number_toString := fun _ => "?";
     generateContent := fun _ _ => Ok {| text := Some answer |};
     generateImages := fun _ => images |}.

Definition one_image (bytes : string) : GenerateImagesResponse :=
  {| generatedImages := Some [{| image := Some {| imageBytes := Some bytes |} |}] |}.

Definition quoted (s : string) : string := dquote ++ s ++ dquote.

(** A spec as a value, and as the JSON text of it with the price as
    written. *)
Definition spec_object (name description : string) (price : number) : JSValue :=
  JSObject [("name", JSString name);
            ("description", JSString description);
            ("price", JSNumber price)].

Definition spec_json (name description price : string) : string :=
  "{" ++ quoted "name" ++ ":" ++ quoted name ++ ","
      ++ quoted "description" ++ ":" ++ quoted description ++ ","
      ++ quoted "price" ++ ":" ++ price ++ "}".

Fixpoint join_comma (l : list string) : string :=
  match l with
  | [] => ""
  | [s] => s
  | s :: rest => s ++ "," ++ join_comma rest
  end.

Definition array_json (l : list string) : string := "[" ++ join_comma l ++ "]".

(** The doubles [19] and [-1]. *)
Definition double_19 : number := S754_finite false (19 * 2 ^ 48) (-48).
Definition double_minus_1 : number := S754_finite true (2 ^ 52) (-52).

Definition boss_tee : JSValue :=
  spec_object "Boss Tee" "Defeat lag in style" double_24_99.

Definition boss_tee_json : string :=
  spec_json "Boss Tee" "Defeat lag in style" "24.99".

Definition boss_tee_world : World :=
  sample_world (array_json [boss_tee_json]) (JSArray [boss_tee])
    (fun _ _ => Ok (one_image "AAAA")).

Definition boss_tee_product : JSValue :=
  JSObject [("name", JSString "Boss Tee");
            ("description", JSString "Defeat lag in style");
            ("price", JSNumber double_24_99);
            ("imageUrl", JSString "data:image/png;base64,AAAA")].

(** Two tees; the image service fails on the second call when asked to. *)
Definition lag_tee : JSValue :=
  spec_object "Lag Slayer" "Ping so low it hurts" double_19.

Definition lag_tee_json : string :=
  spec_json "Lag Slayer" "Ping so low it hurts" "19".

Definition two_tees_world (second_fails : bool) : World :=
  sample_world (array_json [boss_tee_json; lag_tee_json]) (JSArray [boss_tee; lag_tee])
    (fun i _ =>
       if second_fails && (i =? 1)%nat then Throw (ServiceError "quota")
       else Ok (one_image (if (i =? 0)%nat then "AAAA" else "BBBB"))).

(** Six specs where five were asked for. *)
Definition tee_names : list string :=
  ["Boss Tee"; "Lag Slayer"; "Respawn"; "Speedrun"; "Final Boss"; "Extra Life"].

Definition six_tees : list JSValue :=
  (fun name => spec_object name "Defeat lag in style" double_24_99) <$> tee_names.

Definition six_tees_world : World :=
  sample_world
    (array_json ((fun name => spec_json name "Defeat lag in style" "24.99") <$> tee_names))
    (JSArray six_tees) (fun _ _ => Ok (one_image "AAAA")).

(** A spec with an empty name, an empty description and the price [-1]. *)
Definition blank_spec : JSValue := spec_object "" "" double_minus_1.

Definition blank_world : World :=
  sample_world (array_json [spec_json "" "" "-1"]) (JSArray [blank_spec])
    (fun _ _ => Ok (one_image "AAAA")).

(** The text service is down. *)
Definition text_down_world : World :=
  {| env := fun key => if String.eqb key "API_KEY" then Some "secret" else None;
     JSON_parse := fun _ => Throw SyntaxError;
     Number_toString := fun _ => "?";
     generateContent := fun _ _ => Throw (ServiceError "unavailable");
     generateImages := fun _ _ _ => Ok (one_image "AAAA") |}.

(** No API key in the environment. *)
Definition keyless_world : World :=
  {| env := fun _ => None;
     JSON_parse := fun _ => Throw SyntaxError;
     Number_toString := fun _ => "?";
     generateContent := fun _ _ => Throw (ServiceError "unavailable");
     generateImages := fun _ _ _ => Throw (ServiceError "unavailable") |}.

Definition empty_world : World :=
  sample_world "[]" (JSArray []) (fun _ _ => Ok (one_image "AAAA")).

(** ** The invariant of the workflow *)

(** The card of the Boss Tee, as [ProductCard] renders it. *)
Definition boss_tee_card : VNode :=
  VElem "div" [class "product-card"]
    [VElem "img"
       [AttributeValue "src" (JSString "data:image/png;base64,AAAA");
        Attribute "alt" "AI generated image of Boss Tee";
        class "product-image"] [];
     VElem "div" [class "product-info"]
       [VElem "h2" [class "product-name"] [VValue (JSString "Boss Tee")];
        VElem "p" [class "product-description"]
          [VValue (JSString "Defeat lag in style")];
        VElem "div" [class "product-footer"]
          [VElem "p" [class "product-price"]
             [VText "$"; VValue (JSString "24.99")];
           VElem "button"
             [class "buy-button"; Attribute "aria-label" "Add Boss Tee to cart"]
             [VText "Add to Cart"]]]].

(** The three shapes of the UI state, whatever the chat does. *)
Definition untouched (st : UIState) : Prop :=
  products st = [] /\ loading st = true /\ error st = "".

Definition failed (st : UIState) : Prop :=
  products st = [] /\ loading st = false /\ error st = error_message.

Definition shown (prods : list JSValue) (st : UIState) : Prop :=
  products st = prods /\ loading st = false /\ error st = "".

Section Invariant.
Variable W : World.

(** The image calls the callbacks of [specs] issue, in their order. *)
Definition calls_of (specs : list JSValue) : list (nat * GenerateImagesParameters) :=
  (fun p => (index p, request p)) <$> issued (started W specs).

Definition expected_calls : list (nat * GenerateImagesParameters) :=
  match text_call W with
  | Ok (JSArray specs) => calls_of specs
  | _ => []
  end.

(** A suspended callback holds the element of its index and the request
    made from it. *)
Definition pending_ok (specs : list JSValue) (p : Pending) : Prop :=
  specs !! index p = Some (product p) /\
  callback_start W (product p) = Ok (request p).

(** Element [i] is either still waited for, or its slot holds what its
    callback returned. *)
Definition slot_ok (waiting : list Pending) (values : list JSValue)
    (i : nat) (spec : JSValue) : Prop :=
  i ∈ index <$> waiting \/
  exists v, callback W (client W) i spec = Ok v /\ values !! i = Some v.

Inductive phase_inv (c : Config) : Prop :=
| inv_text :
    phase c = AwaitText ->
    untouched (ui c) ->
    inflight c = [] ->
    phase_inv c
| inv_all (specs values : list JSValue) (remaining : nat) :
    phase c = AwaitAll values remaining ->
    text_call W = Ok (JSArray specs) ->
    untouched (ui c) ->
    length values = length specs ->
    remaining = length (inflight c) ->
    remaining <> 0%nat ->
    NoDup (index <$> inflight c) ->
    Forall (pending_ok specs) (inflight c) ->
    (forall i spec, specs !! i = Some spec -> slot_ok (inflight c) values i spec) ->
    phase_inv c
| inv_failed :
    phase c = Finished ->
    failed (ui c) ->
    (forall specs, text_call W = Ok (JSArray specs) -> is_ok (merged W specs) = false) ->
    phase_inv c
| inv_shown (specs : list JSValue) :
    phase c = Finished ->
    text_call W = Ok (JSArray specs) ->
    shown (products (ui c)) (ui c) ->
    merged W specs = Ok (products (ui c)) ->
    inflight c = [] ->
    phase_inv c.

Record Inv (c : Config) : Prop := {
  inv_ai : ai c = client W;
  inv_reads : env_reads (log c) = ["API_KEY"];
  inv_text_calls : text_calls (log c) = [text_request];
  inv_image_calls :
    image_calls (log c) =
    match phase c with AwaitText => [] | _ => expected_calls end;
  inv_phase : phase_inv c
}.
End Invariant.

(** ** The rest of the page *)

(** The template of [Header] (lines 18 to 35). *)
Definition Header_render : VNode :=
  VElem "header" [class "app-header"]
    [VElem "div" [class "logo-container"]
       [VElem "img"
          [Attribute "src" "/logo.png";
           Attribute "alt" "ClesdafedGaming 'C' Logo";
           class "logo"] [];
        VElem "h1" [class "shop-title"] [VText "ClesdafedGaming Shop"]];
     VElem "nav" [class "navigation"]
       [VElem "a" [Attribute "href" "#"; class "active"] [VText "Home"];
        VElem "a" [Attribute "href" "#"] [VText "Apparel"];
        VElem "a" [Attribute "href" "#"] [VText "Accessories"];
        VElem "a"
          [Attribute "href" "https://youtube.com/@clesdafedGaming";
           Attribute "target" "_blank";
           Attribute "rel" "noopener noreferrer";
           Attribute "aria-label" "ClesdafedGaming YouTube Channel"]
          [VElem "img"
             [Attribute "src" "https://www.youtube.com/s/desktop/014dbbed/img/favicon_32x32.png";
              Attribute "alt" "YouTube Logo";
              class "youtube-logo"] []]]].

Section Page.
Variable W : World.

(** A component, rendered by its function. *)
Definition render_component (c : Component) : Result VNode :=
  match c with
  | Header => Ok Header_render
  | ProductCard _ product => ProductCard_render W product
  | LiveChat isChatOpen => Ok (LiveChat_render isChatOpen)
  end.

(** A node with the components in it rendered, left to right; an exception
    in one of them is not caught anywhere. *)
Fixpoint expand (n : VNode) : Result VNode :=
  match n with
  | VComp c => render_component c
  | VElem tag attrs children =>
      children' ←
        (fix all (l : list VNode) : Result (list VNode) :=
           match l with
           | [] => Ok []
           | c :: rest => c' ← expand c; rest' ← all rest; Ok (c' :: rest')
           end) children;
      Ok (VElem tag attrs children')
  | _ => Ok n
  end.

(** [render(html`<${App} />`, ...)] (line 168) for a state of [App]. *)
Definition render_page (st : UIState) : Result (list VNode) :=
  nodes ← App_render st;
  traverse expand nodes.
End Page.

(** ** More notions *)

Definition console_errors (l : list Effect) : list Exn :=
  omap (fun e => match e with ConsoleError _ err => Some err | _ => None end) l.

Definition is_finished (p : Phase) : bool :=
  match p with
  | Finished => true
  | _ => false
  end.

(** Either nothing has failed and nothing is logged, or the workflow has
    ended in the error state with one error logged. *)
Definition console_inv (c : Config) : Prop :=
  (error (ui c) = "" /\ console_errors (log c) = []) \/
  (phase c = Finished /\ error (ui c) = error_message /\
   exists e, console_errors (log c) = [e]).

(** [isChatOpen] after the events, from [b]: only the clicks count. *)
Definition chat_after (evs : list Event) (b : bool) : bool :=
  fold_left
    (fun b ev =>
       match ev with
       | ClickBubble => negb b
       | ClickClose => false
       | _ => b
       end) evs b.

(** Does the answer of an image call hold a first image? *)
Definition has_first_image (r : GenerateImagesResponse) : bool :=
  match generatedImages r with
  | Some (g :: _) => match image g with Some _ => true | None => false end
  | _ => false
  end.

(** A spec the card can show: an object whose price is a number. *)
Definition has_numeric_price (v : JSValue) : bool :=
  match v with
  | JSObject props =>
      match obj_get "price" props with
      | JSNumber _ => true
      | _ => false
      end
  | _ => false
  end.

(** More sample worlds: the key is the empty string; the text service
    answers with an object; with an array that holds [null]; with a spec
    whose price is a string. *)
Definition empty_key_world : World :=
  {| env := fun key => if String.eqb key "API_KEY" then Some "" else None;
     JSON_parse := fun _ => Throw SyntaxError;
     Number_toString := fun _ => "?";
     generateContent := fun _ _ => Throw (ServiceError "unavailable");
     generateImages := fun _ _ _ => Throw (ServiceError "unavailable") |}.

Definition object_world : World :=
  sample_world ("{" ++ quoted "items" ++ ":[]}") (JSObject [("items", JSArray [])])
    (fun _ _ => Ok (one_image "AAAA")).

Definition null_element_world : World :=
  sample_world (array_json [boss_tee_json; "null"]) (JSArray [boss_tee; JSNull])
    (fun _ _ => Ok (one_image "AAAA")).

Definition string_price_spec : JSValue :=
  JSObject [("name", JSString "Boss Tee");
            ("description", JSString "Defeat lag in style");
            ("price", JSString "24.99")].

Definition string_price_world : World :=
  sample_world
    (array_json [spec_json "Boss Tee" "Defeat lag in style" (quoted "24.99")])
    (JSArray [string_price_spec]) (fun _ _ => Ok (one_image "AAAA")).

(** The image service answers, but with no image in the answer. *)
Definition no_image_world : World :=
  sample_world (array_json [boss_tee_json]) (JSArray [boss_tee])
    (fun _ _ => Ok {| generatedImages := Some [] |}).

(** The page with its components rendered, when the workflow has
    succeeded: the header, the grid of the rendered cards, the chat. *)
Definition rendered_products_page (rendered : list VNode) (isChatOpen : bool)
  : list VNode :=
  [Header_render;
   VElem "main" [class "main-content"]
     [VValue (JSBool false);
      VValue (JSString "");
      VElem "div" [class "products-grid"] rendered];
   LiveChat_render isChatOpen].

(** ** Reading a decimal numeral *)

Definition digit_value (c : ascii) : option N :=
  let n := N_of_ascii c in
  if ((48 <=? n) && (n <=? 57))%N then Some (n - 48)%N else None.

Fixpoint read_digits (acc : N) (s : string) : option N :=
  match s with
  | EmptyString => Some acc
  | String c rest =>
      match digit_value c with
      | Some d => read_digits (10 * acc + d) rest
      | None => None
      end
  end.

(** The number a string of decimal digits, and of nothing else, writes. *)
Definition decimal_value (s : string) : option N :=
  match s with
  | EmptyString => None
  | _ => read_digits 0 s
  end.

(** * Properties *)

Example toFixed_24_99 : toFixed (fun _ => "?") 2 double_24_99 = "24.99".
Proof. vm_compute. reflexivity. Qed.

Example toFixed_tie_up : toFixed (fun _ => "?") 2 (S754_finite false 1 (-3)) = "0.13".
Proof. vm_compute. reflexivity. Qed.

Example toFixed_negative : toFixed (fun _ => "?") 0 (S754_finite true 5 (-1)) = "-3".
Proof. vm_compute. reflexivity. Qed.


(** ** Results and traversals *)

Lemma bind_Ok {A B} (r : Result A) (k : A -> Result B) (b : B) :
  (r ≫= k) = Ok b <-> exists a, r = Ok a /\ k a = Ok b.
Proof.
  destruct r as [a|e]; simpl; split.
  - intros H. exists a. auto.
  - intros (a' & Ha & Hk). injection Ha as ->. exact Hk.
  - discriminate.
  - intros (a' & Ha & _). discriminate.
Qed.

Lemma traverse_Ok {A B} (f : A -> Result B) (l : list A) (vs : list B) :
  traverse f l = Ok vs <-> Forall2 (fun a v => f a = Ok v) l vs.
Proof.
  revert vs. induction l as [|a l IH]; intros vs; simpl.
  - split.
    + intros H. injection H as <-. constructor.
    + intros H. inversion H. reflexivity.
  - split.
    + intros H. apply bind_Ok in H as (b & Hb & H).
      apply bind_Ok in H as (bs & Hbs & H). injection H as <-.
      constructor; [exact Hb | apply IH, Hbs].
    + intros H. inversion H as [|? v ? vs' Hv Hvs]; subst.
      rewrite Hv. simpl. apply IH in Hvs. rewrite Hvs. reflexivity.
Qed.

Lemma traverse_Throw {A B} (f : A -> Result B) (l : list A) (a : A) :
  a ∈ l -> is_ok (f a) = false -> is_ok (traverse f l) = false.
Proof.
  induction 1 as [a l|a b l _ IH]; intros Ha; simpl.
  - destruct (f a); [discriminate | reflexivity].
  - destruct (f b); simpl; [|reflexivity].
    specialize (IH Ha). destruct (traverse f l); [discriminate | reflexivity].
Qed.

Lemma traverse_total {A B} (f : A -> Result B) (l : list A) :
  (forall a, a ∈ l -> is_ok (f a) = true) -> is_ok (traverse f l) = true.
Proof.
  induction l as [|a l IH]; intros H; simpl; [reflexivity|].
  assert (Ha : is_ok (f a) = true) by (apply H; left).
  destruct (f a); [|discriminate]. simpl.
  assert (Hl : is_ok (traverse f l) = true) by (apply IH; intros; apply H; right; auto).
  destruct (traverse f l); [reflexivity | discriminate].
Qed.

Lemma is_ok_true {A} (r : Result A) : is_ok r = true <-> exists a, r = Ok a.
Proof.
  destruct r; simpl; split; eauto; try discriminate.
  intros [? ?]. discriminate.
Qed.

(** What [merged] says, index by index. *)
Lemma merged_Ok (W : World) (specs prods : list JSValue) :
  merged W specs = Ok prods <->
  length specs = length prods /\
  forall i spec prod,
    specs !! i = Some spec -> prods !! i = Some prod ->
    callback W (client W) i spec = Ok prod.
Proof.
  unfold merged, indexed. rewrite traverse_Ok, Forall2_same_length_lookup.
  rewrite length_imap. split; intros [Hlen H]; split; auto.
  - intros i spec prod Hs Hp.
    apply (H i (i, spec) prod); [|exact Hp].
    rewrite list_lookup_imap, Hs. reflexivity.
  - intros i [j spec] prod Hs Hp.
    apply list_lookup_imap_Some in Hs as (spec' & Hs & Heq).
    injection Heq as -> ->. eauto.
Qed.

Lemma merged_Throw (W : World) (specs : list JSValue) (i : nat) (spec : JSValue) :
  specs !! i = Some spec ->
  is_ok (callback W (client W) i spec) = false ->
  is_ok (merged W specs) = false.
Proof.
  intros Hs Hc. unfold merged.
  apply (traverse_Throw _ _ (i, spec)); [|exact Hc].
  unfold indexed. apply (elem_of_lookup_imap_2 (fun i a => (i, a))). exact Hs.
Qed.

Lemma callback_extends (W : World) (ai : GoogleGenAI) (i : nat) (spec v : JSValue) :
  callback W ai i spec = Ok v <->
  exists name imageResponse imageUrl,
    (GetV spec "name" ≫= ToString (Number_toString W)) = Ok name /\
    generateImages W ai i (image_request name) = Ok imageResponse /\
    imageUrl_of imageResponse = Ok imageUrl /\
    v = extend spec imageUrl.
Proof.
  unfold callback, callback_start, callback_resume. split.
  - intros H. apply bind_Ok in H as (request & Hreq & H).
    apply bind_Ok in Hreq as (nm & Hnm & Hreq).
    apply bind_Ok in Hreq as (s & Hs & Hreq). injection Hreq as <-.
    apply bind_Ok in H as (resp & Hresp & H).
    apply bind_Ok in H as (url & Hurl & H). injection H as <-.
    exists s, resp, url. repeat split; auto.
    rewrite Hnm. simpl. exact Hs.
  - intros (name & resp & url & Hname & Hresp & Hurl & ->).
    apply bind_Ok in Hname as (nm & Hnm & Hs).
    rewrite Hnm. simpl. rewrite Hs. simpl. rewrite Hresp. simpl.
    rewrite Hurl. reflexivity.
Qed.

(** ** The calls in flight *)

Lemma find_pending_Some (i : nat) (l : list Pending) (p : Pending) :
  find_pending i l = Some p -> p ∈ l /\ index p = i.
Proof.
  unfold find_pending. intros H. apply List.find_some in H as [Hin Heq].
  split; [apply list_elem_of_In, Hin | apply Nat.eqb_eq, Heq].
Qed.

Lemma find_pending_elem (i : nat) (l : list Pending) :
  i ∈ index <$> l -> exists p, find_pending i l = Some p.
Proof.
  intros Hin. apply list_elem_of_fmap in Hin as (p & -> & Hp).
  unfold find_pending.
  destruct (List.find (fun q => index q =? index p)%nat l) as [q|] eqn:Hf; [eauto|].
  apply list_elem_of_In in Hp.
  pose proof (List.find_none _ _ Hf p Hp) as Hne. simpl in Hne.
  rewrite Nat.eqb_refl in Hne. discriminate.
Qed.

Lemma elem_of_remove_pending (i j : nat) (l : list Pending) :
  j ∈ index <$> remove_pending i l <-> j <> i /\ j ∈ index <$> l.
Proof.
  unfold remove_pending. rewrite !list_elem_of_fmap. split.
  - intros (p & -> & Hp). apply list_elem_of_filter in Hp as [Hne Hp]. eauto.
  - intros (Hne & p & -> & Hp). exists p. split; [reflexivity|].
    apply list_elem_of_filter. auto.
Qed.

Lemma NoDup_remove_pending (i : nat) (l : list Pending) :
  NoDup (index <$> l) -> NoDup (index <$> remove_pending i l).
Proof.
  unfold remove_pending. induction l as [|p l IH]; simpl; intros H; [constructor|].
  apply NoDup_cons in H as [Hp Hl].
  rewrite filter_cons. destruct (decide (index p <> i)); simpl; [|auto].
  apply NoDup_cons. split; [|auto].
  intros Hin. apply Hp.
  apply (elem_of_remove_pending i (index p) l) in Hin as [_ Hin]. exact Hin.
Qed.

Lemma length_remove_pending (i : nat) (l : list Pending) :
  NoDup (index <$> l) -> i ∈ index <$> l ->
  S (length (remove_pending i l)) = length l.
Proof.
  unfold remove_pending. induction l as [|p l IH]; simpl; intros Hnd Hin.
  - inversion Hin.
  - apply NoDup_cons in Hnd as [Hp Hl].
    rewrite filter_cons. destruct (decide (index p <> i)) as [Hne|Heq]; simpl.
    + f_equal. apply IH; [exact Hl|].
      apply elem_of_cons in Hin as [Hin|Hin]; [congruence | exact Hin].
    + assert (index p = i) as <- by (destruct (decide (index p = i)); tauto).
      f_equal. clear IH Hin Hl Heq.
      induction l as [|q l IH]; [reflexivity|].
      rewrite filter_cons.
      destruct (decide (index q <> index p)) as [_|Heq]; simpl.
      * f_equal. apply IH. intros Hin. apply Hp. simpl. right. exact Hin.
      * exfalso. apply Hp. simpl.
        assert (index q = index p) as -> by (destruct (decide (index q = index p)); tauto).
        left.
Qed.

Lemma Forall_remove_pending (P : Pending -> Prop) (i : nat) (l : list Pending) :
  Forall P l -> Forall P (remove_pending i l).
Proof.
  unfold remove_pending. rewrite !Forall_forall. intros H p Hp.
  apply list_elem_of_filter in Hp as [_ Hp]. auto.
Qed.

(** ** The fan-out *)

Lemma elem_of_started (W : World) (specs : list JSValue) x :
  x ∈ started W specs <->
  exists i spec, x = (i, spec, callback_start W spec) /\ specs !! i = Some spec.
Proof. unfold started. apply elem_of_lookup_imap. Qed.

Lemma elem_of_issued (l : list (nat * JSValue * Result GenerateImagesParameters))
    (p : Pending) :
  p ∈ issued l <-> (index p, product p, Ok (request p)) ∈ l.
Proof.
  unfold issued. rewrite list_elem_of_omap. split.
  - intros ([[i spec] r] & Hin & Heq). destruct r as [req|e]; [|discriminate].
    injection Heq as <-. exact Hin.
  - intros Hin. eexists. split; [exact Hin|]. destruct p; reflexivity.
Qed.

Lemma issued_from (W : World) (specs : list JSValue) (k : nat) :
  let l := issued (imap (fun i spec => ((k + i)%nat, spec, callback_start W spec)) specs) in
  NoDup (index <$> l) /\ Forall (fun p => k <= index p) l.
Proof.
  revert k. induction specs as [|spec specs IH]; intros k; simpl.
  - split; constructor.
  - rewrite (imap_ext _ (fun i s => ((S k + i)%nat, s, callback_start W s))).
    2:{ intros i x _. simpl. f_equal. f_equal. lia. }
    destruct (IH (S k)) as [Hnd Hge].
    destruct (callback_start W spec) as [req|e]; simpl.
    + split.
      * apply NoDup_cons. split; [|exact Hnd].
        intros Hin. apply list_elem_of_fmap in Hin as (p & Heq & Hp).
        rewrite Forall_forall in Hge. specialize (Hge p Hp). lia.
      * constructor; [simpl; lia|].
        eapply Forall_impl; [exact Hge|]. simpl. intros; lia.
    + split; [exact Hnd|].
      eapply Forall_impl; [exact Hge|]. simpl. intros; lia.
Qed.

Lemma NoDup_issued (W : World) (specs : list JSValue) :
  NoDup (index <$> issued (started W specs)).
Proof. apply (issued_from W specs 0). Qed.

Lemma issued_pending_ok (W : World) (specs : list JSValue) :
  Forall (pending_ok W specs) (issued (started W specs)).
Proof.
  apply Forall_forall. intros p Hp.
  apply elem_of_issued, elem_of_started in Hp as (i & spec & Heq & Hs).
  injection Heq as <- <- Hreq. split; auto.
Qed.

Lemma first_rejected_None (l : list (nat * JSValue * Result GenerateImagesParameters)) :
  first_rejected l = None <-> forall x, x ∈ l -> is_ok x.2 = true.
Proof.
  induction l as [|[[i spec] r] l IH]; simpl.
  - split; [intros _ x Hx; inversion Hx | reflexivity].
  - destruct r as [req|e].
    + rewrite IH. split.
      * intros H x Hx. apply elem_of_cons in Hx as [->|Hx]; [reflexivity | auto].
      * intros H x Hx. apply H. right. exact Hx.
    + split; [discriminate|].
      intros H. specialize (H (i, spec, Throw e)). simpl in H.
      discriminate H. left.
Qed.

Lemma first_rejected_Some (W : World) (specs : list JSValue) (e : Exn) :
  first_rejected (started W specs) = Some e -> is_ok (merged W specs) = false.
Proof.
  intros H.
  destruct (is_ok (merged W specs)) eqn:Hm; [|reflexivity].
  assert (Hnone : first_rejected (started W specs) = None); [|congruence].
  apply first_rejected_None. intros x Hx.
  apply elem_of_started in Hx as (i & spec & -> & Hs). simpl.
  destruct (callback_start W spec) as [req|e'] eqn:Hcs; [reflexivity|].
  rewrite (merged_Throw W specs i spec Hs) in Hm; [discriminate|].
  unfold callback. rewrite Hcs. reflexivity.
Qed.

Lemma issued_all (W : World) (specs : list JSValue) :
  first_rejected (started W specs) = None ->
  length (issued (started W specs)) = length specs /\
  forall i spec, specs !! i = Some spec -> i ∈ index <$> issued (started W specs).
Proof.
  intros H. rewrite first_rejected_None in H. split.
  - unfold started in *. revert H.
    generalize (fun (i : nat) (product : JSValue) => (i, product, callback_start W product)).
    intros f. revert f. induction specs as [|spec specs IH]; intros f H; simpl; [reflexivity|].
    assert (H0 : is_ok (f 0%nat spec).2 = true) by (apply H; left).
    destruct (f 0%nat spec) as [[i s] r]. destruct r as [req|e]; simpl.
    + f_equal. apply IH. intros x Hx. apply H. simpl. right. exact Hx.
    + simpl in H0. discriminate H0.
  - intros i spec Hs.
    assert (Hin : (i, spec, callback_start W spec) ∈ started W specs)
      by (apply elem_of_started; eauto).
    specialize (H _ Hin). simpl in H.
    destruct (callback_start W spec) as [req|e] eqn:Hcs; [|discriminate].
    apply list_elem_of_fmap.
    exists {| index := i; product := spec; request := req |}.
    split; [reflexivity|]. apply elem_of_issued. exact Hin.
Qed.

(** ** The invariant holds along every run *)

Lemma untouched_chat (h : Handler) (st : UIState) :
  untouched st -> untouched (handle h st).
Proof. destruct h. exact (fun H => H). Qed.

Lemma failed_chat (h : Handler) (st : UIState) :
  failed st -> failed (handle h st).
Proof. destruct h. exact (fun H => H). Qed.

Lemma image_calls_issued (l : list Pending) :
  image_calls ((fun p => ImageCall (index p) (request p)) <$> l)
  = (fun p => (index p, request p)) <$> l.
Proof. induction l as [|p l IH]; simpl; [reflexivity | f_equal; exact IH]. Qed.

Lemma env_reads_issued (l : list Pending) :
  env_reads ((fun p => ImageCall (index p) (request p)) <$> l) = [].
Proof. induction l as [|p l IH]; simpl; [reflexivity | exact IH]. Qed.

Lemma text_calls_issued (l : list Pending) :
  text_calls ((fun p => ImageCall (index p) (request p)) <$> l) = [].
Proof. induction l as [|p l IH]; simpl; [reflexivity | exact IH]. Qed.

Lemma Inv_chat (W : World) (c : Config) (h : Handler) :
  Inv W c -> Inv W (with_ui (handle h) c).
Proof.
  intros [Hai Hr Ht Hi Hp]. split; simpl; auto.
  destruct Hp as [Hph Hu Hfl|specs values remaining Hph Htc Hu Hlen Hrem Hne Hnd Hpend Hslot
                  |Hph Hf Hm|specs Hph Htc Hs Hm Hfl].
  - apply inv_text; simpl; auto using untouched_chat.
  - eapply inv_all; simpl; eauto using untouched_chat.
  - apply inv_failed; simpl; auto using failed_chat.
  - eapply inv_shown; simpl; eauto; destruct h; assumption.
Qed.

(** A failure leaves the failed state, whatever is still in flight. *)
Lemma Inv_on_failure (W : World) (c : Config) (e : Exn) :
  ai c = client W ->
  env_reads (log c) = ["API_KEY"] ->
  text_calls (log c) = [text_request] ->
  image_calls (log c) = expected_calls W ->
  untouched (ui c) ->
  (forall specs, text_call W = Ok (JSArray specs) -> is_ok (merged W specs) = false) ->
  Inv W (on_failure e c).
Proof.
  intros Hai Hr Ht Hi (Hprod & Hload & Herr) Hm.
  split; simpl; auto.
  - unfold env_reads in *. rewrite omap_app, Hr. reflexivity.
  - unfold text_calls in *. rewrite omap_app, Ht. reflexivity.
  - unfold image_calls in *. rewrite omap_app, Hi. simpl. apply app_nil_r.
  - apply inv_failed; simpl; auto. repeat split; auto.
Qed.

Lemma Inv_mount (W : World) (c : Config) :
  main W = Mounted c -> Inv W c.
Proof.
  unfold main, module_init. destruct (not_string (env W "API_KEY")); [discriminate|].
  intros H. injection H as <-. split; simpl; auto.
  apply inv_text; simpl; auto. repeat split.
Qed.

Lemma Inv_after_text (W : World) (c : Config) :
  Inv W c -> phase c = AwaitText ->
  Inv W (after_text W (generateContent W (ai c) text_request) c).
Proof.
  intros [Hai Hr Ht Hi Hp] Hph. rewrite Hph in Hi.
  assert (Hu : untouched (ui c) /\ inflight c = []).
  { destruct Hp; try congruence. auto. }
  destruct Hu as [Hu Hfl]. clear Hp.
  unfold after_text. rewrite Hai.
  pose proof (eq_refl (text_call W)) as Htc. unfold text_call at 2 in Htc.
  destruct (generateContent W (client W) text_request) as [resp|e]; simpl in Htc.
  2:{ apply Inv_on_failure; auto.
      - unfold expected_calls. rewrite Htc. exact Hi.
      - intros specs Hs. congruence. }
  destruct (JSON_parse W (default "undefined" (text resp))) as [v|e].
  2:{ apply Inv_on_failure; auto.
      - unfold expected_calls. rewrite Htc. exact Hi.
      - intros specs Hs. congruence. }
  destruct v as [| | | | |specs|];
    try (apply Inv_on_failure; auto;
         [unfold expected_calls; rewrite Htc; exact Hi
         |intros specs Hs; congruence]).
  set (calls := issued (started W specs)).
  set (c1 := emit _ (with_inflight calls c)).
  assert (Hi1 : image_calls (log c1) = expected_calls W).
  { unfold expected_calls, calls_of. rewrite Htc. subst c1. simpl.
    unfold image_calls in *. rewrite omap_app, Hi. simpl.
    apply image_calls_issued. }
  assert (Hr1 : env_reads (log c1) = ["API_KEY"]).
  { subst c1. simpl. unfold env_reads in *. rewrite omap_app, Hr.
    fold env_reads. rewrite env_reads_issued. reflexivity. }
  assert (Ht1 : text_calls (log c1) = [text_request]).
  { subst c1. simpl. unfold text_calls in *. rewrite omap_app, Ht.
    fold text_calls. rewrite text_calls_issued. reflexivity. }
  unfold promise_all.
  destruct (first_rejected (started W specs)) as [e|] eqn:Hrej.
  { apply Inv_on_failure; auto.
    intros specs' Hs. assert (specs' = specs) as -> by congruence.
    eapply first_rejected_Some; eauto. }
  destruct (issued_all W specs Hrej) as [Hlen Hall].
  assert (Hn : length (started W specs) = length specs)
    by (unfold started; apply length_imap).
  rewrite Hn.
  destruct Hu as (Hprod & Hload & Herr).
  destruct specs as [|spec specs']; simpl length.
  - split; simpl; auto.
    eapply inv_shown; simpl; eauto. repeat split; auto.
  - split; simpl; auto.
    apply (inv_all W _ (spec :: specs')
             (replicate (S (length specs')) JSUndefined) (S (length specs'))).
    + reflexivity.
    + exact Htc.
    + repeat split; auto.
    + apply length_replicate.
    + symmetry. exact Hlen.
    + discriminate.
    + apply NoDup_issued.
    + apply issued_pending_ok.
    + intros i s Hs. left. exact (Hall i s Hs).
Qed.

(** The promise of a suspended callback settles as [callback] says. *)
Lemma pending_outcome (W : World) (specs : list JSValue) (p : Pending) :
  pending_ok W specs p ->
  callback_resume (product p) (generateImages W (client W) (index p) (request p))
  = callback W (client W) (index p) (product p).
Proof. intros [_ Hcs]. unfold callback. rewrite Hcs. reflexivity. Qed.

Lemma Inv_image_done (W : World) (c : Config) (i : nat) (p : Pending) :
  Inv W c -> find_pending i (inflight c) = Some p ->
  Inv W (settle i
           (callback_resume (product p) (generateImages W (ai c) i (request p)))
           (with_inflight (remove_pending i (inflight c)) c)).
Proof.
  intros [Hai Hr Ht Hi Hp] Hfind.
  apply find_pending_Some in Hfind as [Hin <-].
  rewrite Hai. unfold settle. simpl phase.
  destruct Hp as [Hph Hu Hfl|specs values remaining Hph Htc Hu Hlen Hrem Hne Hnd Hpend Hslot
                  |Hph Hf Hm|specs Hph Htc Hs Hm Hfl].
  - rewrite Hfl in Hin. inversion Hin.
  - rewrite Hph in *.
    assert (Hok : pending_ok W specs p)
      by (rewrite Forall_forall in Hpend; auto).
    rewrite (pending_outcome W specs p Hok). destruct Hok as [Hspec Hcs].
    assert (Hidx : index p ∈ index <$> inflight c)
      by (apply list_elem_of_fmap; eauto).
    pose proof (length_remove_pending (index p) (inflight c) Hnd Hidx) as Hlen'.
    assert (Hlt : index p < length values)
      by (rewrite Hlen; eapply lookup_lt_Some; eauto).
    destruct (callback W (client W) (index p) (product p)) as [v|e] eqn:Hcb.
    + assert (Hslot' : forall j spec, specs !! j = Some spec ->
                slot_ok W (remove_pending (index p) (inflight c))
                  (<[index p := v]> values) j spec).
      { intros j spec Hj. destruct (decide (j = index p)) as [->|Hne'].
        - right. exists v. split; [congruence|].
          apply list_lookup_insert_eq. exact Hlt.
        - destruct (Hslot j spec Hj) as [Hw|(v' & Hv' & Hl)].
          + left. apply elem_of_remove_pending. auto.
          + right. exists v'. split; [exact Hv'|].
            rewrite list_lookup_insert_ne; auto. }
      destruct (remaining - 1 =? 0)%nat eqn:Hzero.
      * apply Nat.eqb_eq in Hzero.
        assert (Hnil : remove_pending (index p) (inflight c) = []).
        { apply length_zero_iff_nil. lia. }
        destruct Hu as (Hprod & Hload & Herr).
        split; simpl; auto.
        apply (inv_shown W _ specs); simpl; auto.
        -- repeat split; auto.
        -- apply merged_Ok. split; [rewrite length_insert; auto|].
           intros j spec prod Hj Hprod'.
           destruct (Hslot' j spec Hj) as [Hw|(v' & Hv' & Hl)].
           ++ rewrite Hnil in Hw. inversion Hw.
           ++ congruence.
      * apply Nat.eqb_neq in Hzero.
        split; simpl; auto.
        apply (inv_all W _ specs (<[index p := v]> values) (remaining - 1)); simpl; auto.
        -- rewrite length_insert. exact Hlen.
        -- lia.
        -- apply NoDup_remove_pending, Hnd.
        -- apply Forall_remove_pending, Hpend.
    + apply Inv_on_failure; simpl; auto.
      intros specs' Hs'. assert (specs' = specs) as -> by congruence.
      apply (merged_Throw W specs (index p) (product p) Hspec).
      rewrite Hcb. reflexivity.
  - rewrite Hph in *. split; simpl; auto.
    { rewrite Hph. exact Hi. }
    apply inv_failed; simpl; auto.
  - rewrite Hfl in Hin. inversion Hin.
Qed.

Lemma Inv_step (W : World) (c c' : Config) (ev : Event) :
  Inv W c -> step W c ev = Some c' -> Inv W c'.
Proof.
  intros HI. destruct ev as [|i| |]; simpl.
  - destruct (phase c) eqn:Hph; try discriminate.
    intros H. injection H as <-. apply Inv_after_text; auto.
  - destruct (find_pending i (inflight c)) as [p|] eqn:Hf; simpl; [|discriminate].
    intros H. injection H as <-. apply Inv_image_done; auto.
  - intros H. injection H as <-. apply Inv_chat, HI.
  - intros H. injection H as <-. apply Inv_chat, HI.
Qed.

Lemma Inv_exec (W : World) (evs : list Event) (c c' : Config) :
  Inv W c -> exec W c evs = Some c' -> Inv W c'.
Proof.
  revert c. induction evs as [|ev evs IH]; intros c HI; simpl.
  - intros H. injection H as <-. exact HI.
  - destruct (step W c ev) as [c1|] eqn:Hstep; simpl; [|discriminate].
    apply IH. eapply Inv_step; eauto.
Qed.

Lemma Inv_run (W : World) (evs : list Event) (c : Config) :
  run W evs = Some c -> Inv W c.
Proof.
  unfold run. destruct (main W) as [e effects|c0] eqn:Hmain; [discriminate|].
  apply Inv_exec, Inv_mount, Hmain.
Qed.

(** ** Every completion order is a run *)

Lemma inflight_settle (i : nat) (o : Result JSValue) (c : Config) :
  inflight (settle i o c) = inflight c.
Proof.
  unfold settle. destruct (phase c); try reflexivity.
  destruct o; [|reflexivity].
  destruct (_ =? _)%nat; reflexivity.
Qed.

Lemma phase_settle (i : nat) (o : Result JSValue) (c : Config) :
  phase c <> AwaitText -> phase (settle i o c) <> AwaitText.
Proof.
  unfold settle. destruct (phase c) eqn:Hph; try congruence.
  intros _. destruct o; [|discriminate].
  destruct (_ =? _)%nat; discriminate.
Qed.

Lemma phase_after_text (W : World) (a : Result GenerateContentResponse) (c : Config) :
  phase (after_text W a c) <> AwaitText.
Proof.
  unfold after_text. destruct a as [resp|e]; [|discriminate].
  destruct (JSON_parse W _) as [v|e]; [|discriminate].
  destruct v; try discriminate.
  unfold promise_all. destruct (first_rejected _); [discriminate|].
  destruct (length _); discriminate.
Qed.

Lemma inflight_after_text (W : World) (c : Config) (specs : list JSValue) :
  ai c = client W -> text_call W = Ok (JSArray specs) ->
  inflight (after_text W (generateContent W (ai c) text_request) c)
  = issued (started W specs).
Proof.
  intros Hai Htc. unfold text_call in Htc. unfold after_text. rewrite Hai.
  destruct (generateContent W (client W) text_request) as [resp|e]; [|discriminate].
  simpl in Htc. rewrite Htc.
  unfold promise_all. destruct (first_rejected _); [reflexivity|].
  destruct (length _); reflexivity.
Qed.

(** Once the text call is answered, the image calls may be answered in any
    order: when all that were issued are answered, the workflow has ended. *)
Lemma drain (W : World) (order : list nat) :
  forall c,
    Inv W c -> phase c <> AwaitText ->
    NoDup order ->
    (forall j, j ∈ order <-> j ∈ index <$> inflight c) ->
    exists c', exec W c (ImageDone <$> order) = Some c' /\ phase c' = Finished.
Proof.
  induction order as [|i order IH]; intros c HI Hph Hnd Hiff.
  - exists c. split; [reflexivity|].
    destruct (inv_phase W c HI) as [Hph' _ _|? ? ? _ _ _ _ Hrem Hne _ _ _
                                    |Hfin _ _|? Hfin _ _ _ _]; auto.
    + congruence.
    + exfalso. apply Hne. rewrite Hrem.
      destruct (inflight c) as [|p l]; [reflexivity|].
      assert (Hin : index p ∈ @nil nat) by (apply Hiff; left). inversion Hin.
  - apply NoDup_cons in Hnd as [Hi Hnd].
    assert (Hin : i ∈ index <$> inflight c) by (apply Hiff; left).
    destruct (find_pending_elem i (inflight c) Hin) as [p Hp].
    simpl. rewrite Hp. simpl.
    apply IH.
    + apply (Inv_step W c _ (ImageDone i)); [exact HI|]. simpl. rewrite Hp. reflexivity.
    + apply phase_settle. exact Hph.
    + exact Hnd.
    + intros j. rewrite inflight_settle. simpl.
      rewrite elem_of_remove_pending. rewrite <- Hiff. rewrite elem_of_cons.
      split.
      * intros Hj. split; [intros ->; contradiction | auto].
      * intros [Hne [->|Hj]]; [contradiction | exact Hj].
Qed.

Lemma phase_mount (W : World) (c0 : Config) :
  main W = Mounted c0 -> phase c0 = AwaitText.
Proof.
  unfold main, module_init.
  destruct (not_string _); [discriminate|]. intros H. injection H as <-. reflexivity.
Qed.

Lemma complete_run (W : World) (c0 : Config) (specs : list JSValue) (order : list nat) :
  main W = Mounted c0 ->
  text_call W = Ok (JSArray specs) ->
  order ≡ₚ index <$> issued (started W specs) ->
  exists c, run W (TextDone :: (ImageDone <$> order)) = Some c /\ phase c = Finished.
Proof.
  intros Hmain Htc Hperm.
  pose proof (Inv_mount W c0 Hmain) as HI0.
  unfold run. rewrite Hmain. simpl. rewrite (phase_mount W c0 Hmain). simpl.
  apply (drain W order).
  - apply Inv_after_text; auto. apply (phase_mount W c0 Hmain).
  - apply phase_after_text.
  - rewrite Hperm. apply NoDup_issued.
  - intros j. rewrite (inflight_after_text W c0 specs (inv_ai W c0 HI0) Htc).
    rewrite Hperm. reflexivity.
Qed.

(** When no callback fails, a call was issued for every element. *)
Lemma issued_indices_all (W : World) (specs : list JSValue) :
  is_ok (merged W specs) = true ->
  index <$> issued (started W specs) ≡ₚ seq 0 (length specs).
Proof.
  intros Hok. apply NoDup_Permutation; [apply NoDup_issued | apply NoDup_seq|].
  intros j. rewrite elem_of_seq.
  assert (Hrej : first_rejected (started W specs) = None).
  { destruct (first_rejected (started W specs)) as [e|] eqn:Hrej; [|reflexivity].
    rewrite (first_rejected_Some W specs e Hrej) in Hok. discriminate. }
  destruct (issued_all W specs Hrej) as [_ Hall]. split.
  - intros Hin. apply list_elem_of_fmap in Hin as (p & -> & Hp).
    apply elem_of_issued, elem_of_started in Hp as (i & spec & Heq & Hs).
    injection Heq as <- _ _. split; [lia|]. simpl.
    eapply lookup_lt_Some; eauto.
  - intros [_ Hlt]. simpl in Hlt.
    destruct (lookup_lt_is_Some_2 specs j Hlt) as [spec Hs]. eauto.
Qed.

(** How a run ends is decided by the world, not by the order of the answers. *)
Lemma finished_outcome (W : World) (evs : list Event) (c : Config) (specs : list JSValue) :
  run W evs = Some c ->
  text_call W = Ok (JSArray specs) ->
  phase c = Finished ->
  (if is_ok (merged W specs) then
     merged W specs = Ok (products (ui c)) /\ shown (products (ui c)) (ui c)
   else failed (ui c)).
Proof.
  intros Hrun Htc Hph.
  destruct (inv_phase W c (Inv_run W evs c Hrun))
    as [Hph' _ _|? ? ? Hph' _ _ _ _ _ _ _ _|_ Hf Hm|specs' _ Htc' Hs Hm _];
    try congruence.
  - rewrite (Hm specs Htc). exact Hf.
  - assert (specs' = specs) as -> by congruence.
    rewrite Hm. simpl. auto.
Qed.

(** ** The pages *)

(** The chat installs the two handlers the events stand for. *)
Lemma LiveChat_handlers (isChatOpen : bool) :
  handlers (LiveChat_render isChatOpen) = [bubble_onClick isChatOpen; close_onClick].
Proof. reflexivity. Qed.

Lemma App_render_failed (st : UIState) :
  failed st -> App_render st = Ok (error_page (isChatOpen st)).
Proof.
  intros (_ & Hload & Herr). unfold App_render. rewrite Hload, Herr. reflexivity.
Qed.

Lemma App_render_shown (st : UIState) (cards : list VNode) :
  loading st = false -> error st = "" ->
  traverse card (products st) = Ok cards ->
  App_render st = Ok (products_page cards (isChatOpen st)).
Proof.
  intros Hload Herr Hcards. unfold App_render.
  rewrite Hload, Herr. simpl. rewrite Hcards. reflexivity.
Qed.

Lemma card_extend (spec : JSValue) (imageUrl : string) :
  is_ok (card (extend spec imageUrl)) = true.
Proof. reflexivity. Qed.

(** The products of a successful run all have a card. *)
Lemma merged_cards (W : World) (specs prods : list JSValue) :
  merged W specs = Ok prods ->
  exists cards, traverse card prods = Ok cards.
Proof.
  intros Hm. apply is_ok_true, traverse_total. intros prod Hin.
  apply list_elem_of_lookup in Hin as [i Hi].
  apply merged_Ok in Hm as [Hlen Hm].
  destruct (lookup_lt_is_Some_2 specs i) as [spec Hs].
  { rewrite Hlen. eapply lookup_lt_Some; eauto. }
  specialize (Hm i spec prod Hs Hi).
  apply callback_extends in Hm as (? & ? & url & _ & _ & _ & ->).
  apply card_extend.
Qed.

(** What a run that ended without the error message holds. *)
Lemma success_merged (W : World) (evs : list Event) (c : Config) (specs : list JSValue) :
  run W evs = Some c ->
  text_call W = Ok (JSArray specs) ->
  phase c = Finished -> error (ui c) = "" ->
  merged W specs = Ok (products (ui c)) /\ loading (ui c) = false.
Proof.
  intros Hrun Htc Hph Herr.
  destruct (inv_phase W c (Inv_run W evs c Hrun))
    as [Hph' _ _|? ? ? Hph' _ _ _ _ _ _ _ _|_ (_ & _ & Hf) _|specs' _ Htc' Hs Hm _];
    try congruence.
  - rewrite Hf in Herr. discriminate.
  - assert (specs' = specs) as -> by congruence.
    split; [exact Hm | apply Hs].
Qed.

(** ** More about runs *)

Lemma App_render_untouched (st : UIState) :
  untouched st -> App_render st = Ok (loading_page (isChatOpen st)).
Proof.
  intros (_ & Hload & Herr). unfold App_render. rewrite Hload, Herr. reflexivity.
Qed.

(** The three shapes are all there is. *)
Lemma ui_cases (W : World) (evs : list Event) (c : Config) :
  run W evs = Some c ->
  (phase c <> Finished /\ untouched (ui c)) \/
  (phase c = Finished /\ failed (ui c)) \/
  (phase c = Finished /\ shown (products (ui c)) (ui c) /\
   exists specs, text_call W = Ok (JSArray specs) /\
                 merged W specs = Ok (products (ui c))).
Proof.
  intros Hrun.
  destruct (inv_phase W c (Inv_run W evs c Hrun))
    as [Hph Hu _|? ? ? Hph _ Hu _ _ _ _ _ _|Hph Hf _|specs Hph Htc Hs Hm _].
  - left. split; [congruence | exact Hu].
  - left. split; [congruence | exact Hu].
  - right. left. auto.
  - right. right. eauto.
Qed.

Lemma exec_app (W : World) (evs1 evs2 : list Event) (c : Config) :
  exec W c (evs1 ++ evs2) = exec W c evs1 ≫= fun c1 => exec W c1 evs2.
Proof.
  revert c. induction evs1 as [|ev evs1 IH]; intros c; simpl; [reflexivity|].
  destruct (step W c ev) as [c1|]; simpl; [apply IH | reflexivity].
Qed.

Lemma run_app (W : World) (evs1 evs2 : list Event) (c1 c2 : Config) :
  run W evs1 = Some c1 -> exec W c1 evs2 = Some c2 -> run W (evs1 ++ evs2) = Some c2.
Proof.
  unfold run. destruct (main W) as [|c0]; [discriminate|].
  intros H1 H2. rewrite exec_app, H1. exact H2.
Qed.

Lemma finished_step (W : World) (c c' : Config) (ev : Event) :
  phase c = Finished -> step W c ev = Some c' -> phase c' = Finished.
Proof.
  intros Hph. destruct ev as [|i| |]; simpl.
  - rewrite Hph. discriminate.
  - destruct (find_pending i (inflight c)) as [p|]; simpl; [|discriminate].
    intros H. injection H as <-. unfold settle. simpl. rewrite Hph. exact Hph.
  - intros H. injection H as <-. exact Hph.
  - intros H. injection H as <-. exact Hph.
Qed.

Lemma finished_exec (W : World) (evs : list Event) (c c' : Config) :
  phase c = Finished -> exec W c evs = Some c' -> phase c' = Finished.
Proof.
  revert c. induction evs as [|ev evs IH]; intros c Hph; simpl.
  - intros H. injection H as <-. exact Hph.
  - destruct (step W c ev) as [c1|] eqn:Hstep; simpl; [|discriminate].
    apply IH. eapply finished_step; eauto.
Qed.

Lemma cards_show_no_class (cls : string) (prods : list JSValue) (cards : list VNode) :
  traverse card prods = Ok cards -> existsb (shows cls) cards = false.
Proof.
  rewrite traverse_Ok. induction 1 as [|prod node prods cards Hc _ IH]; [reflexivity|].
  simpl. rewrite IH. unfold card in Hc.
  apply bind_Ok in Hc as (key & _ & Hc). injection Hc as <-. reflexivity.
Qed.

(** ** Specs and products *)

Lemma obj_get_set_ne (key key' : string) (v : JSValue) (o : Obj) :
  key <> key' -> obj_get key (obj_set key' v o) = obj_get key o.
Proof.
  intros Hne. induction o as [|[k w] o IH]; simpl.
  - destruct (String.eqb_spec key' key); [congruence | reflexivity].
  - destruct (String.eqb_spec k key') as [->|Hk]; simpl.
    + destruct (String.eqb_spec key' key); [congruence | reflexivity].
    + destruct (String.eqb_spec k key); [reflexivity | exact IH].
Qed.

(** The spread keeps the three fields of a spec as they are. *)
Lemma extend_keeps (props : Obj) (imageUrl key : string) :
  key <> "imageUrl" ->
  GetV (extend (JSObject props) imageUrl) key = GetV (JSObject props) key.
Proof. intros Hne. simpl. f_equal. apply obj_get_set_ne, Hne. Qed.

Lemma ProductSpec_ok_object (spec : JSValue) :
  ProductSpec_ok spec = true ->
  exists props name,
    spec = JSObject props /\ obj_get "name" props = JSString name /\ name <> "".
Proof.
  destruct spec as [| | | | | |props]; try discriminate. simpl.
  destruct (obj_get "name" props) as [| | | |name| |] eqn:Hn; try discriminate.
  destruct (obj_get "description" props); try discriminate.
  destruct (obj_get "price" props); try discriminate.
  intros H. exists props, name. split; [reflexivity|]. split; [exact Hn|].
  intros ->. discriminate.
Qed.

Lemma ProductSpec_ok_extend (spec : JSValue) (imageUrl : string) :
  ProductSpec_ok spec = true -> ProductSpec_ok (extend spec imageUrl) = true.
Proof.
  destruct spec as [| | | | | |props]; try discriminate.
  unfold extend, own_properties, ProductSpec_ok.
  rewrite !obj_get_set_ne by discriminate. exact (fun H => H).
Qed.

(** ** The price of the Boss Tee *)

(** The double [double_24_99] is the binary64 value nearest to 24.99: it is
    normal, and off by less than half a unit in the last place. *)
Lemma double_24_99_nearest :
  double_24_99 = S754_finite false 7034059667999293 (-48) /\
  (2 ^ 52 <= 7034059667999293 < 2 ^ 53)%Z /\
  (2 * Z.abs (100 * 7034059667999293 - 2499 * 2 ^ 48) < 100)%Z /\
  SFdiv 53 1024 (S754_finite false 2499 0) (S754_finite false 100 0) = double_24_99.
Proof.
  split; [reflexivity|]. split; [lia|]. split; [vm_compute; reflexivity|].
  vm_compute. reflexivity.
Qed.

(** ** More about the workflow, the page and the strings *)

Lemma run_text_done (W : World) (c0 : Config) :
  main W = Mounted c0 ->
  run W [TextDone]
  = Some (after_text W (generateContent W (client W) text_request) c0).
Proof.
  intros Hmain. unfold run. rewrite Hmain. simpl.
  rewrite (phase_mount W c0 Hmain), (inv_ai W c0 (Inv_mount W c0 Hmain)).
  reflexivity.
Qed.

Lemma after_text_array (W : World) (c : Config) (specs : list JSValue) :
  text_call W = Ok (JSArray specs) ->
  after_text W (generateContent W (client W) text_request) c
  = promise_all (started W specs)
      (emit ((fun p => ImageCall (index p) (request p)) <$> issued (started W specs))
         (with_inflight (issued (started W specs)) c)).
Proof.
  unfold text_call, after_text.
  destruct (generateContent W (client W) text_request) as [resp|e]; [|discriminate].
  simpl. intros ->. reflexivity.
Qed.

Lemma after_text_other (W : World) (c : Config) (v : JSValue) :
  text_call W = Ok v ->
  (forall specs, v <> JSArray specs) ->
  after_text W (generateContent W (client W) text_request) c = on_failure TypeError c.
Proof.
  unfold text_call, after_text.
  destruct (generateContent W (client W) text_request) as [resp|e]; [|discriminate].
  simpl. intros -> Hv. destruct v; try reflexivity. destruct (Hv elems eq_refl).
Qed.

Lemma log_mount (W : World) (c0 : Config) :
  main W = Mounted c0 ->
  log c0 = [EnvRead "API_KEY"; TextCall text_request] /\ ui c0 = initial_state /\
  inflight c0 = [].
Proof.
  unfold main, module_init. destruct (not_string _); [discriminate|].
  intros H. injection H as <-. auto.
Qed.

(** What stops a callback before its call: an element that is [null], or a
    name that has no string. *)
Lemma callback_start_Throw (W : World) (spec : JSValue) :
  is_ok (callback_start W spec) = false <->
  spec = JSNull \/ spec = JSUndefined \/
  exists name, GetV spec "name" = Ok name /\
               is_ok (ToString (Number_toString W) name) = false.
Proof.
  unfold callback_start. split.
  - destruct (GetV spec "name") as [name|e] eqn:Hn; simpl.
    + intros H. right. right. exists name. split; [reflexivity|].
      destruct (ToString (Number_toString W) name); [discriminate | reflexivity].
    + intros _. destruct spec; try discriminate; auto.
  - intros [->| [->|(name & Hn & Hs)]]; try reflexivity.
    rewrite Hn. simpl. destruct (ToString (Number_toString W) name);
      [discriminate | reflexivity].
Qed.

Lemma issued_from_sublist (W : World) (specs : list JSValue) (k : nat) :
  index <$> issued (imap (fun i spec => ((k + i)%nat, spec, callback_start W spec)) specs)
  `sublist_of` seq k (length specs).
Proof.
  revert k. induction specs as [|spec specs IH]; intros k; simpl; [constructor|].
  rewrite (imap_ext _ (fun i s => ((S k + i)%nat, s, callback_start W s))).
  2:{ intros i x _. simpl. f_equal. f_equal. lia. }
  destruct (callback_start W spec) as [req|e]; simpl.
  - rewrite Nat.add_0_r. apply sublist_skip. exact (IH (S k)).
  - apply sublist_cons. exact (IH (S k)).
Qed.

Lemma sublist_same_length {A} (l1 l2 : list A) :
  l1 `sublist_of` l2 -> length l1 = length l2 -> l1 = l2.
Proof.
  induction 1 as [|x l1 l2 _ IH|x l1 l2 Hsub _]; simpl; intros Hlen.
  - reflexivity.
  - f_equal. apply IH. lia.
  - apply sublist_length in Hsub. lia.
Qed.

Lemma finished_step_frame (W : World) (c c' : Config) (ev : Event) :
  phase c = Finished -> step W c ev = Some c' ->
  products (ui c') = products (ui c) /\ loading (ui c') = loading (ui c) /\
  error (ui c') = error (ui c) /\ log c' = log c.
Proof.
  intros Hph. destruct ev as [|i| |]; simpl.
  - rewrite Hph. discriminate.
  - destruct (find_pending i (inflight c)) as [p|]; simpl; [|discriminate].
    intros H. injection H as <-. unfold settle. simpl. rewrite Hph. auto.
  - intros H. injection H as <-. auto.
  - intros H. injection H as <-. auto.
Qed.

Lemma answered_exec (W : World) (evs : list Event) (c c' : Config) :
  phase c <> AwaitText ->
  exec W c evs = Some c' ->
  forall j, j ∈ index <$> inflight c ->
            j ∈ index <$> inflight c' \/ ImageDone j ∈ evs.
Proof.
  revert c. induction evs as [|ev evs IH]; intros c Hph; simpl.
  - intros H j Hj. injection H as <-. auto.
  - destruct (step W c ev) as [c1|] eqn:Hstep; simpl; [|discriminate].
    intros Hexec j Hj.
    destruct ev as [|i| |]; simpl in Hstep.
    + destruct (phase c); try discriminate. contradiction.
    + destruct (find_pending i (inflight c)) as [p|]; simpl in Hstep; [|discriminate].
      injection Hstep as <-.
      destruct (decide (j = i)) as [->|Hne]; [right; left|].
      destruct (IH _ (phase_settle i _ (with_inflight _ c) Hph) Hexec j) as [H|H].
      * rewrite inflight_settle. simpl. apply elem_of_remove_pending. auto.
      * left. exact H.
      * right. right. exact H.
    + injection Hstep as <-.
      destruct (IH (with_ui _ c) Hph Hexec j Hj) as [H|H];
        [left | right; right]; exact H.
    + injection Hstep as <-.
      destruct (IH (with_ui _ c) Hph Hexec j Hj) as [H|H];
        [left | right; right]; exact H.
Qed.

Lemma before_text (W : World) (evs : list Event) (c c' : Config) :
  phase c = AwaitText -> inflight c = [] ->
  exec W c evs = Some c' ->
  phase c' = AwaitText \/
  exists post cb,
    ai cb = ai c /\
    exec W (after_text W (generateContent W (ai cb) text_request) cb) post = Some c' /\
    forall ev, ev ∈ post -> ev ∈ evs.
Proof.
  revert c. induction evs as [|ev evs IH]; intros c Hph Hfl; simpl.
  - intros H. injection H as <-. auto.
  - destruct (step W c ev) as [c1|] eqn:Hstep; simpl; [|discriminate].
    intros Hexec. destruct ev as [|i| |]; simpl in Hstep.
    + rewrite Hph in Hstep. injection Hstep as <-. right.
      exists evs, c. split; [reflexivity|]. split; [exact Hexec|].
      intros ev Hev. right. exact Hev.
    + rewrite Hfl in Hstep. discriminate.
    + injection Hstep as <-.
      destruct (IH (with_ui _ c) Hph Hfl Hexec)
        as [H|(post & cb & Hai & Hpost & Hsub)]; [auto|].
      right. exists post, cb. split; [exact Hai|]. split; [exact Hpost|].
      intros ev Hev. right. auto.
    + injection Hstep as <-.
      destruct (IH (with_ui _ c) Hph Hfl Hexec)
        as [H|(post & cb & Hai & Hpost & Hsub)]; [auto|].
      right. exists post, cb. split; [exact Hai|]. split; [exact Hpost|].
      intros ev Hev. right. auto.
Qed.

Lemma traverse_not_ok {A B} (f : A -> Result B) (l : list A) :
  is_ok (traverse f l) = false -> exists a, a ∈ l /\ is_ok (f a) = false.
Proof.
  induction l as [|a l IH]; simpl; [discriminate|].
  destruct (f a) as [b|e] eqn:Hf; simpl.
  - destruct (traverse f l) as [bs|e]; simpl; [discriminate|].
    intros _. destruct (IH eq_refl) as (a' & Hin & Ha').
    exists a'. split; [right; exact Hin | exact Ha'].
  - intros _. exists a. split; [left | rewrite Hf; reflexivity].
Qed.

Lemma merged_not_ok (W : World) (specs : list JSValue) :
  is_ok (merged W specs) = false ->
  exists i spec, specs !! i = Some spec /\
                 is_ok (callback W (client W) i spec) = false.
Proof.
  intros H. apply traverse_not_ok in H as ([i spec] & Hin & Hf).
  unfold indexed in Hin. apply elem_of_lookup_imap_1 in Hin as (j & y & Heq & Hy).
  injection Heq as -> ->. eauto.
Qed.

Lemma imageUrl_of_ok (r : GenerateImagesResponse) :
  is_ok (imageUrl_of r) = has_first_image r.
Proof.
  unfold imageUrl_of, has_first_image.
  destruct (generatedImages r) as [[|g rest]|]; simpl; try reflexivity.
  destruct (image g); reflexivity.
Qed.

Lemma callback_not_ok (W : World) (ai : GoogleGenAI) (i : nat) (spec : JSValue) :
  is_ok (callback W ai i spec) = false <->
  is_ok (callback_start W spec) = false \/
  exists request,
    callback_start W spec = Ok request /\
    match generateImages W ai i request with
    | Throw _ => True
    | Ok answer => has_first_image answer = false
    end.
Proof.
  unfold callback, callback_resume.
  destruct (callback_start W spec) as [request|e]; simpl.
  - split.
    + intros H. right. exists request. split; [reflexivity|].
      destruct (generateImages W ai i request) as [answer|e]; simpl in *; [|exact I].
      rewrite <- imageUrl_of_ok. destruct (imageUrl_of answer); [discriminate | reflexivity].
    + intros [H|(request' & Heq & H)]; [discriminate|]. injection Heq as <-.
      destruct (generateImages W ai i request) as [answer|e]; simpl; [|reflexivity].
      rewrite <- imageUrl_of_ok in H. destruct (imageUrl_of answer);
        [discriminate | reflexivity].
  - split; auto.
Qed.

Lemma obj_get_set_eq (key : string) (v : JSValue) (o : Obj) :
  obj_get key (obj_set key v o) = v.
Proof.
  induction o as [|[k w] o IH]; simpl.
  - rewrite String.eqb_refl. reflexivity.
  - destruct (String.eqb_spec k key) as [->|Hne]; simpl.
    + rewrite String.eqb_refl. reflexivity.
    + destruct (String.eqb_spec k key); [contradiction | exact IH].
Qed.

Lemma append_empty_r (s : string) : s ++ "" = s.
Proof. induction s as [|a s IH]; simpl; [reflexivity | f_equal; exact IH]. Qed.

Lemma traverse_is_ok {A B} (f : A -> Result B) (l : list A) :
  is_ok (traverse f l) = forallb (fun a => is_ok (f a)) l.
Proof.
  induction l as [|a l IH]; simpl; [reflexivity|].
  destruct (f a); simpl; [|reflexivity].
  rewrite <- IH. destruct (traverse f l); reflexivity.
Qed.

Lemma expand_VElem (W : World) (tag : string) (attrs : list Attr) (children : list VNode) :
  expand W (VElem tag attrs children)
  = traverse (expand W) children ≫= fun children' => Ok (VElem tag attrs children').
Proof.
  simpl. f_equal. induction children as [|c children IH]; simpl; [reflexivity|].
  rewrite IH. reflexivity.
Qed.

(** The keys of the elements of an array, and of the characters of a
    string, are numerals: none of them is [price]. *)
Lemma string_of_nat_not_price (i : nat) : String.eqb (string_of_nat i) "price" = false.
Proof.
  unfold string_of_nat. destruct (Nat.to_uint i); reflexivity.
Qed.

Lemma obj_get_price_indices {A} (f : A -> JSValue) (l : list A) (k : nat) :
  obj_get "price" (imap (fun i a => (string_of_nat (k + i), f a)) l) = JSUndefined.
Proof.
  revert k. induction l as [|a l IH]; intros k; simpl; [reflexivity|].
  rewrite string_of_nat_not_price.
  rewrite (imap_ext _ (fun i a => (string_of_nat (S k + i), f a))).
  - apply IH.
  - intros i x _. simpl. do 2 f_equal. lia.
Qed.

Lemma obj_get_price_keys {A} (f : A -> JSValue) (l : list A) :
  obj_get "price" (imap (fun i a => (string_of_nat i, f a)) l) = JSUndefined.
Proof. exact (obj_get_price_indices f l 0). Qed.

Lemma price_of_extend (spec : JSValue) (imageUrl : string) :
  match GetV (extend spec imageUrl) "price" with
  | Ok (JSNumber _) => true
  | _ => false
  end = has_numeric_price spec.
Proof.
  unfold extend. simpl. rewrite obj_get_set_ne by discriminate.
  destruct spec as [| | | |s|elems|props]; simpl; try reflexivity.
  - rewrite (obj_get_price_keys JSString (code_units s)). reflexivity.
  - rewrite (obj_get_price_keys (fun e => e) elems). reflexivity.
Qed.

(** The card of a product of the workflow renders exactly when the element
    it was made from is an object whose price is a number. *)
Lemma card_of_extend (W : World) (spec : JSValue) (imageUrl : string) :
  is_ok (callback_start W spec) = true ->
  is_ok (ProductCard_render W (extend spec imageUrl)) = has_numeric_price spec.
Proof.
  intros Hstart. rewrite <- (price_of_extend spec imageUrl).
  unfold ProductCard_render.
  change (GetV (extend spec imageUrl) "name")
    with (Ok (obj_get "name" (obj_set "imageUrl" (JSString imageUrl) (own_properties spec)))).
  change (GetV (extend spec imageUrl) "description")
    with (Ok (obj_get "description"
                (obj_set "imageUrl" (JSString imageUrl) (own_properties spec)))).
  change (GetV (extend spec imageUrl) "price")
    with (Ok (obj_get "price" (obj_set "imageUrl" (JSString imageUrl) (own_properties spec)))).
  change (GetV (extend spec imageUrl) "imageUrl")
    with (Ok (obj_get "imageUrl"
                (obj_set "imageUrl" (JSString imageUrl) (own_properties spec)))).
  simpl.
  rewrite (obj_get_set_ne "name"), (obj_get_set_ne "description"),
    (obj_get_set_ne "price") by discriminate.
  rewrite obj_get_set_eq.
  destruct (obj_get "price" (own_properties spec)) eqn:Hp; simpl; try reflexivity.
  (* the price is a number, so the element is an object, with its name *)
  destruct spec as [| | | |s|elems|props]; simpl in Hp; try discriminate.
  - rewrite (obj_get_price_keys JSString (code_units s)) in Hp. discriminate.
  - rewrite (obj_get_price_keys (fun e => e) elems) in Hp. discriminate.
  - simpl. unfold callback_start in Hstart. simpl in Hstart.
    destruct (ToString (Number_toString W) (obj_get "name" props)); simpl in *;
      [reflexivity | discriminate].
Qed.

Lemma is_ok_expand_VElem (W : World) (tag : string) (attrs : list Attr)
    (children : list VNode) :
  is_ok (expand W (VElem tag attrs children))
  = forallb (fun n => is_ok (expand W n)) children.
Proof.
  rewrite expand_VElem, <- traverse_is_ok.
  destruct (traverse (expand W) children); reflexivity.
Qed.

Lemma render_products_page (W : World) (cards : list VNode) (isChatOpen : bool) :
  is_ok (traverse (expand W) (products_page cards isChatOpen))
  = forallb (fun n => is_ok (expand W n)) cards.
Proof.
  rewrite traverse_is_ok. unfold products_page. cbn [forallb].
  rewrite is_ok_expand_VElem. cbn [forallb].
  rewrite is_ok_expand_VElem.
  change (is_ok (expand W (VComp Header))) with true.
  change (is_ok (expand W (VComp (LiveChat isChatOpen)))) with true.
  change (is_ok (expand W (VValue (JSBool false)))) with true.
  change (is_ok (expand W (VValue (JSString "")))) with true.
  cbn [andb]. rewrite !andb_true_r. reflexivity.
Qed.

Lemma length_append (s t : string) :
  String.length (s ++ t) = (String.length s + String.length t)%nat.
Proof. induction s as [|a s IH]; simpl; [reflexivity | f_equal; exact IH]. Qed.

Lemma length_zeros (n : nat) : String.length (zeros n) = n.
Proof. induction n as [|n IH]; simpl; [reflexivity | f_equal; exact IH]. Qed.

Lemma length_substring (s : string) (n k : nat) :
  (n + k <= String.length s)%nat -> String.length (substring n k s) = k.
Proof.
  revert n k. induction s as [|a s IH]; intros n k H; simpl in H.
  - assert (n = 0%nat) as -> by lia. assert (k = 0%nat) as -> by lia. reflexivity.
  - destruct n as [|n].
    + destruct k as [|k]; [reflexivity|]. simpl. f_equal. apply IH. lia.
    + simpl. apply IH. lia.
Qed.

Lemma console_errors_issued (l : list Pending) :
  console_errors ((fun p => ImageCall (index p) (request p)) <$> l) = [].
Proof. induction l as [|p l IH]; simpl; [reflexivity | exact IH]. Qed.

Lemma console_on_failure (e : Exn) (c : Config) :
  console_errors (log c) = [] -> console_inv (on_failure e c).
Proof.
  intros H. right. simpl. split; [reflexivity|]. split; [reflexivity|].
  exists e. unfold console_errors in *. rewrite omap_app, H. reflexivity.
Qed.

Lemma console_step (W : World) (c c' : Config) (ev : Event) :
  console_inv c -> step W c ev = Some c' -> console_inv c'.
Proof.
  intros [[Herr Hlog]|(Hph & Herr & e & Hlog)] Hstep.
  - destruct ev as [|i| |]; simpl in Hstep.
    + destruct (phase c); try discriminate. injection Hstep as <-.
      unfold after_text.
      destruct (generateContent W (ai c) text_request) as [resp|e];
        [|apply console_on_failure, Hlog].
      destruct (JSON_parse W _) as [v|e]; [|apply console_on_failure, Hlog].
      destruct v; try solve [apply console_on_failure, Hlog].
      unfold promise_all.
      assert (Hlog1 : console_errors
                (log (emit ((fun p => ImageCall (index p) (request p))
                              <$> issued (started W elems))
                        (with_inflight (issued (started W elems)) c))) = []).
      { simpl. unfold console_errors in *. rewrite omap_app, Hlog.
        apply console_errors_issued. }
      destruct (first_rejected _); [apply console_on_failure, Hlog1|].
      destruct (length _); left; simpl; auto.
    + destruct (find_pending i (inflight c)) as [p|]; simpl in Hstep; [|discriminate].
      injection Hstep as <-. unfold settle. simpl.
      destruct (phase c); try solve [left; simpl; auto].
      destruct (callback_resume _ _); [|apply console_on_failure; exact Hlog].
      destruct (_ =? _)%nat; left; simpl; auto.
    + injection Hstep as <-. left. simpl. auto.
    + injection Hstep as <-. left. simpl. auto.
  - destruct (finished_step_frame W c c' ev Hph Hstep) as (_ & _ & He & Hl).
    right. rewrite He, Hl. split; [eapply finished_step; eauto|]. eauto.
Qed.

Lemma console_exec (W : World) (evs : list Event) (c c' : Config) :
  console_inv c -> exec W c evs = Some c' -> console_inv c'.
Proof.
  revert c. induction evs as [|ev evs IH]; intros c HI; simpl.
  - intros H. injection H as <-. exact HI.
  - destruct (step W c ev) as [c1|] eqn:Hstep; simpl; [|discriminate].
    apply IH. eapply console_step; eauto.
Qed.

Lemma chat_step (W : World) (c c' : Config) (ev : Event) :
  step W c ev = Some c' ->
  isChatOpen (ui c') = chat_after [ev] (isChatOpen (ui c)).
Proof.
  destruct ev as [|i| |]; simpl.
  - destruct (phase c); try discriminate. intros H. injection H as <-.
    unfold after_text.
    destruct (generateContent W (ai c) text_request) as [resp|e]; [|reflexivity].
    destruct (JSON_parse W _) as [v|e]; [|reflexivity].
    destruct v; try reflexivity.
    unfold promise_all. destruct (first_rejected _); [reflexivity|].
    destruct (length _); reflexivity.
  - destruct (find_pending i (inflight c)) as [p|]; simpl; [|discriminate].
    intros H. injection H as <-. unfold settle. simpl.
    destruct (phase c); try reflexivity.
    destruct (callback_resume _ _); [|reflexivity].
    destruct (_ =? _)%nat; reflexivity.
  - intros H. injection H as <-. reflexivity.
  - intros H. injection H as <-. reflexivity.
Qed.

Lemma chat_exec (W : World) (evs : list Event) (c c' : Config) :
  exec W c evs = Some c' ->
  isChatOpen (ui c') = chat_after evs (isChatOpen (ui c)).
Proof.
  revert c. induction evs as [|ev evs IH]; intros c; simpl.
  - intros H. injection H as <-. reflexivity.
  - destruct (step W c ev) as [c1|] eqn:Hstep; simpl; [|discriminate].
    intros Hexec. rewrite (IH c1 Hexec), (chat_step W c c1 ev Hstep). reflexivity.
Qed.

(** ** The page of a run that has succeeded *)

Lemma expand_card (W : World) (prod : JSValue) (node : VNode) :
  card prod = Ok node -> expand W node = ProductCard_render W prod.
Proof.
  unfold card. intros H. apply bind_Ok in H as (key & _ & H).
  injection H as <-. reflexivity.
Qed.

Lemma traverse_cons {A B} (f : A -> Result B) (a : A) (l : list A) :
  traverse f (a :: l) = f a ≫= fun b => traverse f l ≫= fun bs => Ok (b :: bs).
Proof. reflexivity. Qed.

Lemma expand_products_page (W : World) (cards : list VNode) (isChatOpen : bool) :
  traverse (expand W) (products_page cards isChatOpen)
  = traverse (expand W) cards ≫= fun rendered =>
      Ok (rendered_products_page rendered isChatOpen).
Proof.
  unfold products_page. rewrite !traverse_cons.
  rewrite (expand_VElem W "main"). rewrite !traverse_cons.
  rewrite (expand_VElem W "div").
  destruct (traverse (expand W) cards); reflexivity.
Qed.

Lemma rendered_cards (W : World) (prods : list JSValue) (cards rendered : list VNode) :
  traverse card prods = Ok cards ->
  traverse (expand W) cards = Ok rendered ->
  Forall2 (fun prod node => ProductCard_render W prod = Ok node) prods rendered.
Proof.
  rewrite !traverse_Ok. intros Hc. revert rendered.
  induction Hc as [|prod node prods cards Hcard _ IH]; intros rendered Hr.
  - inversion Hr. constructor.
  - inversion Hr as [|? r ? rs Hnode Hrest]; subst.
    constructor; [|apply IH, Hrest].
    rewrite <- (expand_card W prod node Hcard). exact Hnode.
Qed.

Lemma cards_of_products (prods : list JSValue) (cards : list VNode) :
  traverse card prods = Ok cards ->
  length cards = length prods /\
  forall i prod,
    prods !! i = Some prod ->
    exists key, GetV prod "name" = Ok key /\
                cards !! i = Some (VComp (ProductCard key prod)).
Proof.
  rewrite traverse_Ok. intros H. split; [symmetry; eapply Forall2_length; eauto|].
  intros i prod Hp.
  destruct (Forall2_lookup_l _ _ _ i prod H Hp) as (node & Hn & Hcard).
  unfold card in Hcard. apply bind_Ok in Hcard as (key & Hkey & Hcard).
  injection Hcard as <-. eauto.
Qed.

(** What the callbacks of a batch without failure have made. *)
Lemma merged_extends (W : World) (specs prods : list JSValue) :
  merged W specs = Ok prods ->
  Forall2 (fun spec prod =>
             is_ok (callback_start W spec) = true /\
             exists imageUrl, prod = extend spec imageUrl) specs prods.
Proof.
  intros Hm. apply merged_Ok in Hm as [Hlen Hcb].
  apply Forall2_same_length_lookup. split; [exact Hlen|].
  intros i spec prod Hs Hp. specialize (Hcb i spec prod Hs Hp).
  unfold callback in Hcb. apply bind_Ok in Hcb as (request & Hstart & Hcb).
  unfold callback_resume in Hcb.
  apply bind_Ok in Hcb as (resp & _ & Hcb).
  apply bind_Ok in Hcb as (url & _ & Hcb). injection Hcb as <-.
  split; [rewrite Hstart; reflexivity | eauto].
Qed.

Lemma cards_render_iff (W : World) (specs prods : list JSValue) (cards : list VNode) :
  merged W specs = Ok prods ->
  traverse card prods = Ok cards ->
  is_ok (traverse (expand W) cards) = forallb has_numeric_price specs.
Proof.
  intros Hm Hc. apply merged_extends in Hm. apply traverse_Ok in Hc.
  rewrite traverse_is_ok. revert cards Hc.
  induction Hm as [|spec prod specs prods (Hstart & url & ->) _ IH]; intros cards Hc.
  - inversion Hc. reflexivity.
  - inversion Hc as [|? node ? cards' Hcard Hrest]; subst. cbn [forallb].
    rewrite (expand_card W _ node Hcard), (card_of_extend W spec url Hstart).
    f_equal. apply IH, Hrest.
Qed.

(** The grid of a run that has ended without the error message: one
    [ProductCard] per product, in their order, and, when the cards render,
    their renderings in that order; they render exactly when every element
    of the text response is an object with a number as its price. *)
Lemma success_page (W : World) (specs : list JSValue) (evs : list Event) (c : Config) :
  text_call W = Ok (JSArray specs) ->
  run W evs = Some c ->
  phase c = Finished -> error (ui c) = "" ->
  (exists cards,
     App_render (ui c) = Ok (products_page cards (isChatOpen (ui c))) /\
     length cards = length specs /\
     forall i prod,
       products (ui c) !! i = Some prod ->
       exists key, GetV prod "name" = Ok key /\
                   cards !! i = Some (VComp (ProductCard key prod))) /\
  is_ok (render_page W (ui c)) = forallb has_numeric_price specs /\
  (forall page,
     render_page W (ui c) = Ok page ->
     exists rendered,
       page = rendered_products_page rendered (isChatOpen (ui c)) /\
       length rendered = length specs /\
       Forall2 (fun prod node => ProductCard_render W prod = Ok node)
         (products (ui c)) rendered).
Proof.
  intros Htc Hrun Hph Herr.
  destruct (success_merged W evs c specs Hrun Htc Hph Herr) as [Hm Hload].
  destruct (merged_cards W specs _ Hm) as [cards Hcards].
  pose proof (App_render_shown _ cards Hload Herr Hcards) as Hpage.
  destruct (cards_of_products _ _ Hcards) as [Hlen Hidx].
  pose proof Hm as Hm'. apply merged_Ok in Hm' as [Hlen' _].
  assert (Hrender : render_page W (ui c)
                    = traverse (expand W) cards ≫= fun rendered =>
                        Ok (rendered_products_page rendered (isChatOpen (ui c)))).
  { unfold render_page. rewrite Hpage. apply expand_products_page. }
  split; [|split].
  - exists cards. split; [exact Hpage|]. split; [congruence | exact Hidx].
  - rewrite Hrender, <- (cards_render_iff W specs _ cards Hm Hcards).
    destruct (traverse (expand W) cards); reflexivity.
  - intros page Hp. rewrite Hrender in Hp.
    apply bind_Ok in Hp as (rendered & Hr & Hp). injection Hp as <-.
    exists rendered. split; [reflexivity|].
    pose proof (rendered_cards W _ cards rendered Hcards Hr) as Hf.
    split; [|exact Hf]. apply Forall2_length in Hf. congruence.
Qed.

(** ** When the workflow has ended *)

Lemma unanswered_exec (W : World) (evs : list Event) (c c' : Config) :
  phase c <> AwaitText ->
  exec W c evs = Some c' ->
  phase c' <> AwaitText /\
  forall j, j ∈ index <$> inflight c' ->
            j ∈ index <$> inflight c /\ ImageDone j ∉ evs.
Proof.
  revert c. induction evs as [|ev evs IH]; intros c Hph; simpl.
  - intros H. injection H as <-. split; [exact Hph|].
    intros j Hj. split; [exact Hj | apply not_elem_of_nil].
  - destruct (step W c ev) as [c1|] eqn:Hstep; simpl; [|discriminate].
    intros Hexec.
    destruct ev as [|i| |]; simpl in Hstep.
    + destruct (phase c); try discriminate. contradiction.
    + destruct (find_pending i (inflight c)) as [p|]; simpl in Hstep; [|discriminate].
      injection Hstep as <-.
      destruct (IH _ (phase_settle i _ (with_inflight _ c) Hph) Hexec) as [Hph' Hin].
      split; [exact Hph'|]. intros j Hj.
      destruct (Hin j Hj) as [Hj1 Hj2].
      rewrite inflight_settle in Hj1. simpl in Hj1.
      apply elem_of_remove_pending in Hj1 as [Hne Hj1].
      split; [exact Hj1|]. rewrite not_elem_of_cons. split; [congruence | exact Hj2].
    + injection Hstep as <-.
      destruct (IH (with_ui _ c) Hph Hexec) as [Hph' Hin].
      split; [exact Hph'|]. intros j Hj. destruct (Hin j Hj) as [Hj1 Hj2].
      split; [exact Hj1|]. rewrite not_elem_of_cons. split; [discriminate | exact Hj2].
    + injection Hstep as <-.
      destruct (IH (with_ui _ c) Hph Hexec) as [Hph' Hin].
      split; [exact Hph'|]. intros j Hj. destruct (Hin j Hj) as [Hj1 Hj2].
      split; [exact Hj1|]. rewrite not_elem_of_cons. split; [discriminate | exact Hj2].
Qed.

Lemma unanswered_from_text (W : World) (evs : list Event) (c c' : Config) :
  phase c = AwaitText -> inflight c = [] ->
  exec W c evs = Some c' ->
  (TextDone ∈ evs <-> phase c' <> AwaitText) /\
  forall j, j ∈ index <$> inflight c' -> ImageDone j ∉ evs.
Proof.
  revert c. induction evs as [|ev evs IH]; intros c Hph Hfl; simpl.
  - intros H. injection H as <-. split.
    + split; [intros H; inversion H | intros H; contradiction].
    + intros j _. apply not_elem_of_nil.
  - destruct (step W c ev) as [c1|] eqn:Hstep; simpl; [|discriminate].
    intros Hexec. destruct ev as [|i| |]; simpl in Hstep.
    + rewrite Hph in Hstep. injection Hstep as <-.
      destruct (unanswered_exec W evs _ c' (phase_after_text W _ c) Hexec) as [Hph' Hin].
      split; [split; [intros _; exact Hph' | intros _; left]|].
      intros j Hj. rewrite not_elem_of_cons. split; [discriminate|].
      apply (Hin j Hj).
    + rewrite Hfl in Hstep. discriminate.
    + injection Hstep as <-.
      destruct (IH (with_ui _ c) Hph Hfl Hexec) as [Htext Hin].
      split.
      * rewrite <- Htext. rewrite elem_of_cons. split; [intros [H|H]; [discriminate|exact H] | auto].
      * intros j Hj. rewrite not_elem_of_cons. split; [discriminate | apply (Hin j Hj)].
    + injection Hstep as <-.
      destruct (IH (with_ui _ c) Hph Hfl Hexec) as [Htext Hin].
      split.
      * rewrite <- Htext. rewrite elem_of_cons. split; [intros [H|H]; [discriminate|exact H] | auto].
      * intros j Hj. rewrite not_elem_of_cons. split; [discriminate | apply (Hin j Hj)].
Qed.

Lemma unanswered_run (W : World) (evs : list Event) (c : Config) :
  run W evs = Some c ->
  (TextDone ∈ evs <-> phase c <> AwaitText) /\
  forall j, j ∈ index <$> inflight c -> ImageDone j ∉ evs.
Proof.
  unfold run. destruct (main W) as [|c0] eqn:Hmain; [discriminate|].
  intros Hexec.
  apply (unanswered_from_text W evs c0 c); [| |exact Hexec].
  - apply (phase_mount W), Hmain.
  - apply (log_mount W c0 Hmain).
Qed.

Lemma pending_logged (W : World) (evs : list Event) (c : Config) (p : Pending) :
  run W evs = Some c -> phase c <> Finished -> p ∈ inflight c ->
  (index p, request p) ∈ image_calls (log c).
Proof.
  intros Hrun Hph Hp.
  pose proof (Inv_run W evs c Hrun) as HI.
  rewrite (inv_image_calls W c HI).
  destruct (inv_phase W c HI) as [_ _ Hfl|specs values remaining Hph' Htc _ _ _ _ _ Hok _|Hf|specs Hf].
  - rewrite Hfl in Hp. inversion Hp.
  - rewrite Hph'. unfold expected_calls. rewrite Htc. unfold calls_of.
    rewrite Forall_forall in Hok. destruct (Hok p Hp) as [Hs Hreq].
    apply list_elem_of_fmap. exists p. split; [reflexivity|].
    apply elem_of_issued, elem_of_started. exists (index p), (product p).
    rewrite Hreq. auto.
  - contradiction.
  - contradiction.
Qed.

Lemma all_answered (W : World) (evs : list Event) (c : Config) :
  run W evs = Some c ->
  TextDone ∈ evs ->
  (forall i request, (i, request) ∈ image_calls (log c) -> ImageDone i ∈ evs) ->
  phase c = Finished.
Proof.
  intros Hrun Htext Hall.
  destruct (unanswered_run W evs c Hrun) as [Hph Hin].
  apply Hph in Htext.
  destruct (phase c) as [|values remaining|] eqn:Hphase; [contradiction| |reflexivity].
  exfalso.
  destruct (inv_phase W c (Inv_run W evs c Hrun))
    as [H|specs values' remaining' Hph' _ _ _ Hrem Hne _ _ _|H|specs H]; try congruence.
  destruct (inflight c) as [|p l] eqn:Hfl; [simpl in Hrem; congruence|].
  apply (Hin (index p)).
  - simpl. left.
  - apply (Hall _ (request p)). apply (pending_logged W evs c p Hrun); [congruence|].
    rewrite Hfl. left.
Qed.

Lemma rejected_ends (W : World) (specs : list JSValue) (evs : list Event) (c : Config)
    (i : nat) (spec : JSValue) :
  text_call W = Ok (JSArray specs) ->
  specs !! i = Some spec ->
  is_ok (callback W (client W) i spec) = false ->
  run W evs = Some c ->
  TextDone ∈ evs ->
  is_ok (callback_start W spec) = false \/ ImageDone i ∈ evs ->
  phase c = Finished /\ failed (ui c).
Proof.
  intros Htc Hs Hcb Hrun Htext Hans.
  destruct (unanswered_run W evs c Hrun) as [Hph Hin].
  apply Hph in Htext.
  assert (Hfin : phase c = Finished).
  { destruct (inv_phase W c (Inv_run W evs c Hrun))
      as [H|specs' values remaining Hph' Htc' _ _ _ _ _ Hok Hslot|H|specs' H];
      try congruence.
    exfalso. assert (specs' = specs) as -> by congruence.
    destruct (Hslot i spec Hs) as [Hw|(v & Hv & _)].
    - destruct Hans as [Hstart|Hdone]; [|exact (Hin i Hw Hdone)].
      apply list_elem_of_fmap in Hw as (p & -> & Hp).
      rewrite Forall_forall in Hok. destruct (Hok p Hp) as [Hs' Hreq].
      rewrite Hs in Hs'. injection Hs' as ->. rewrite Hreq in Hstart. discriminate.
    - rewrite Hv in Hcb. discriminate. }
  split; [exact Hfin|].
  pose proof (finished_outcome W evs c specs Hrun Htc Hfin) as Hout.
  rewrite (merged_Throw W specs i spec Hs Hcb) in Hout. exact Hout.
Qed.

Lemma rendered_card_shows_no_loader (W : World) (prod : JSValue) (node : VNode) :
  ProductCard_render W prod = Ok node -> shows "loader" node = false.
Proof.
  unfold ProductCard_render. intros H.
  apply bind_Ok in H as (name & _ & H).
  apply bind_Ok in H as (description & _ & H).
  apply bind_Ok in H as (price & _ & H).
  apply bind_Ok in H as (imageUrl & _ & H).
  apply bind_Ok in H as (fixed & _ & H).
  apply bind_Ok in H as (label & _ & H).
  injection H as <-. reflexivity.
Qed.

Lemma finished_exec_frame (W : World) (evs : list Event) (c c' : Config) :
  phase c = Finished -> exec W c evs = Some c' ->
  error (ui c') = error (ui c) /\ loading (ui c') = loading (ui c).
Proof.
  revert c. induction evs as [|ev evs IH]; intros c Hph; simpl.
  - intros H. injection H as <-. auto.
  - destruct (step W c ev) as [c1|] eqn:Hstep; simpl; [|discriminate].
    intros Hexec.
    destruct (finished_step_frame W c c1 ev Hph Hstep) as (_ & Hl & He & _).
    destruct (IH c1 (finished_step W c c1 ev Hph Hstep) Hexec) as [He' Hl'].
    split; congruence.
Qed.

Lemma split_at_text (W : World) (evs : list Event) (c c' : Config) :
  phase c = AwaitText -> inflight c = [] ->
  exec W c evs = Some c' -> phase c' <> AwaitText ->
  exists pre post cb,
    evs = (pre ++ TextDone :: post)%list /\
    exec W c pre = Some cb /\ phase cb = AwaitText /\
    exec W (after_text W (generateContent W (ai cb) text_request) cb) post = Some c'.
Proof.
  revert c. induction evs as [|ev evs IH]; intros c Hph Hfl; simpl.
  - intros H. injection H as <-. contradiction.
  - destruct (step W c ev) as [c1|] eqn:Hstep; simpl; [|discriminate].
    intros Hexec Hne. destruct ev as [|i| |]; simpl in Hstep.
    + rewrite Hph in Hstep. injection Hstep as <-.
      exists [], evs, c. auto.
    + rewrite Hfl in Hstep. discriminate.
    + injection Hstep as <-.
      destruct (IH (with_ui _ c) Hph Hfl Hexec Hne) as (pre & post & cb & -> & Hpre & H).
      exists (ClickBubble :: pre), post, cb. split; [reflexivity|].
      split; [exact Hpre | exact H].
    + injection Hstep as <-.
      destruct (IH (with_ui _ c) Hph Hfl Hexec Hne) as (pre & post & cb & -> & Hpre & H).
      exists (ClickClose :: pre), post, cb. split; [reflexivity|].
      split; [exact Hpre | exact H].
Qed.

Lemma split_run (W : World) (evs : list Event) (c : Config) :
  run W evs = Some c -> phase c <> AwaitText ->
  exists pre post cb,
    evs = (pre ++ TextDone :: post)%list /\
    run W pre = Some cb /\ phase cb = AwaitText /\
    exec W (after_text W (generateContent W (client W) text_request) cb) post = Some c.
Proof.
  unfold run. destruct (main W) as [|c0] eqn:Hmain; [discriminate|].
  intros Hexec Hne.
  destruct (split_at_text W evs c0 c (phase_mount W c0 Hmain)
              (proj2 (proj2 (log_mount W c0 Hmain))) Hexec Hne)
    as (pre & post & cb & -> & Hpre & Hph & Hpost).
  exists pre, post, cb. split; [reflexivity|]. split; [exact Hpre|].
  split; [exact Hph|].
  assert (Hai : ai cb = client W).
  { apply (inv_ai W cb). apply (Inv_exec W pre c0 cb); [apply Inv_mount, Hmain | exact Hpre]. }
  rewrite <- Hai. exact Hpost.
Qed.

Lemma first_rejected_elem (l : list (nat * JSValue * Result GenerateImagesParameters))
    (e : Exn) :
  first_rejected l = Some e -> exists i spec, (i, spec, Throw e) ∈ l.
Proof.
  induction l as [|[[i spec] [request|e']] l IH]; simpl; [discriminate| |].
  - intros H. destruct (IH H) as (j & s & Hin). exists j, s. right. exact Hin.
  - intros H. injection H as ->. exists i, spec. left.
Qed.

Lemma failure_seen (W : World) (evs : list Event) (c c' : Config) :
  phase c <> AwaitText -> phase c <> Finished -> error (ui c) = "" ->
  exec W c evs = Some c' ->
  phase c' = Finished -> error (ui c') = error_message ->
  exists p,
    p ∈ inflight c /\ ImageDone (index p) ∈ evs /\
    is_ok (callback_resume (product p)
             (generateImages W (ai c) (index p) (request p))) = false.
Proof.
  revert c. induction evs as [|ev evs IH]; intros c Hph Hnf Herr; simpl.
  - intros H. injection H as <-. intros Hf. contradiction.
  - destruct (step W c ev) as [c1|] eqn:Hstep; simpl; [|discriminate].
    intros Hexec Hfin Herr'.
    destruct ev as [|i| |]; simpl in Hstep.
    + destruct (phase c); try discriminate. contradiction.
    + destruct (find_pending i (inflight c)) as [p|] eqn:Hfind; simpl in Hstep;
        [|discriminate].
      injection Hstep as <-.
      apply find_pending_Some in Hfind as [Hp Hi].
      destruct (callback_resume (product p) (generateImages W (ai c) i (request p)))
        as [v|e] eqn:Hres.
      * unfold settle in Hexec. simpl in Hexec.
        destruct (phase c) as [|values remaining|] eqn:Hphase; try contradiction.
        destruct (remaining - 1 =? 0)%nat.
        -- exfalso.
           pose proof (fun H => finished_exec_frame W evs _ c' H Hexec) as Hfr.
           destruct (Hfr eq_refl) as [He _].
           simpl in He. rewrite Herr in He. rewrite He in Herr'. unfold error_message in Herr'. discriminate.
        -- pose proof (fun cc (Hx : exec W cc evs = Some c') H1 H2 H3 =>
                         IH cc H1 H2 H3 Hx Hfin Herr') as IH'.
           specialize (IH' _ Hexec). simpl in IH'.
           destruct IH' as (q & Hq & Hdone & Hfail);
             [discriminate | discriminate | exact Herr |].
           exists q. split; [|split; [right; exact Hdone | exact Hfail]].
           apply list_elem_of_filter in Hq. apply Hq.
      * exists p. subst i. split; [exact Hp|]. split; [left|].
        rewrite Hres. reflexivity.
    + injection Hstep as <-.
      pose proof (fun cc (Hx : exec W cc evs = Some c') H1 H2 H3 =>
                    IH cc H1 H2 H3 Hx Hfin Herr') as IH'.
      destruct (IH' _ Hexec Hph Hnf Herr) as (q & Hq & Hdone & Hfail).
      exists q. split; [exact Hq|]. split; [right; exact Hdone | exact Hfail].
    + injection Hstep as <-.
      pose proof (fun cc (Hx : exec W cc evs = Some c') H1 H2 H3 =>
                    IH cc H1 H2 H3 Hx Hfin Herr') as IH'.
      destruct (IH' _ Hexec Hph Hnf Herr) as (q & Hq & Hdone & Hfail).
      exists q. split; [exact Hq|]. split; [right; exact Hdone | exact Hfail].
Qed.

Lemma ended_is_answered (W : World) (evs : list Event) (c : Config) :
  run W evs = Some c -> phase c = Finished ->
  (forall i request, (i, request) ∈ image_calls (log c) -> ImageDone i ∈ evs) \/
  exists specs i spec,
    text_call W = Ok (JSArray specs) /\ specs !! i = Some spec /\
    is_ok (callback W (client W) i spec) = false /\
    (is_ok (callback_start W spec) = false \/ ImageDone i ∈ evs).
Proof.
  intros Hrun Hfin.
  pose proof (Inv_run W evs c Hrun) as HI.
  destruct (split_run W evs c Hrun) as (pre & post & cb & -> & Hpre & Hphb & Hpost);
    [congruence|].
  pose proof (Inv_run W pre cb Hpre) as HIb.
  set (c1 := after_text W (generateContent W (client W) text_request) cb) in *.
  assert (HI1 : Inv W c1).
  { unfold c1. rewrite <- (inv_ai W cb HIb). apply Inv_after_text; assumption. }
  pose proof (inv_image_calls W c HI) as Hcalls. rewrite Hfin in Hcalls.
  destruct (text_call W) as [v|e] eqn:Htc.
  2:{ left. intros i request Hin. rewrite Hcalls in Hin. unfold expected_calls in Hin.
      rewrite Htc in Hin. inversion Hin. }
  destruct v as [| | | | |specs|];
    try solve [left; intros i request Hin; rewrite Hcalls in Hin;
               unfold expected_calls in Hin; rewrite Htc in Hin; inversion Hin].
  assert (Hfl1 : inflight c1 = issued (started W specs)).
  { unfold c1. rewrite <- (inv_ai W cb HIb).
    apply inflight_after_text; [apply (inv_ai W cb HIb) | exact Htc]. }
  destruct (inv_phase W c HI) as [Ha|? ? ? Ha|_ Hf Hbad|specs' _ _ _ _ Hfl];
    try congruence.
  - (* the run has failed *)
    right. exists specs.
    destruct (phase c1) as [|values remaining|] eqn:Hph1.
    + exfalso. apply (phase_after_text W (generateContent W (client W) text_request) cb).
      exact Hph1.
    + destruct (inv_phase W c1 HI1)
        as [H|specs1 values1 remaining1 _ Htc1 Hun _ _ _ _ Hok _|H|specs1 H]; try congruence.
      assert (specs1 = specs) as -> by congruence.
      destruct (failure_seen W post c1 c) as (p & Hp & Hdone & Hfail);
        try congruence.
      { apply Hun. }
      { apply Hf. }
      rewrite Forall_forall in Hok. destruct (Hok p Hp) as [Hs Hreq].
      exists (index p), (product p). split; [reflexivity|]. split; [exact Hs|].
      split.
      * unfold callback. rewrite Hreq. simpl.
        rewrite <- (inv_ai W c1 HI1). exact Hfail.
      * right. apply elem_of_app. right. right. exact Hdone.
    + (* it failed when the text call was answered *)
      unfold c1 in Hph1. rewrite (after_text_array W cb specs Htc) in Hph1.
      unfold promise_all in Hph1.
      destruct (first_rejected (started W specs)) as [e|] eqn:Hrej.
      * destruct (first_rejected_elem _ e Hrej) as (i & spec & Hin).
        apply elem_of_started in Hin as (i' & spec' & Heq & Hs).
        injection Heq as <- <- Hstart.
        exists i, spec. split; [reflexivity|]. split; [exact Hs|].
        split; [|left; rewrite <- Hstart; reflexivity].
        apply callback_not_ok. left. rewrite <- Hstart. reflexivity.
      * exfalso. destruct (length (started W specs)) eqn:Hlen; [|discriminate].
        unfold started in Hlen. rewrite length_imap in Hlen.
        destruct specs; [|discriminate].
        specialize (Hbad [] Htc). discriminate.
  - (* the run has succeeded *)
    left. intros i request Hin. rewrite Hcalls in Hin.
    unfold expected_calls in Hin. rewrite Htc in Hin. unfold calls_of in Hin.
    apply list_elem_of_fmap in Hin as (p & Heq & Hp). injection Heq as -> ->.
    destruct (answered_exec W post c1 c (phase_after_text W _ cb) Hpost (index p))
      as [H|H].
    + rewrite Hfl1. apply list_elem_of_fmap. exists p. auto.
    + rewrite Hfl in H. inversion H.
    + apply elem_of_app. right. right. exact H.
Qed.

Lemma rendered_cards_show_no_loader (W : World) (prods : list JSValue)
    (rendered : list VNode) :
  Forall2 (fun prod node => ProductCard_render W prod = Ok node) prods rendered ->
  existsb (shows "loader") rendered = false.
Proof.
  induction 1 as [|prod node prods rendered Hc _ IH]; [reflexivity|].
  simpl. rewrite IH, (rendered_card_shows_no_loader W prod node Hc). reflexivity.
Qed.

Lemma ended_page (W : World) (evs : list Event) (c : Config) :
  run W evs = Some c -> phase c = Finished ->
  loading (ui c) = false /\
  loading (ui c) && truthy (error (ui c)) = false /\
  (exists nodes,
     App_render (ui c) = Ok nodes /\ existsb (shows "loader") nodes = false) /\
  (forall page,
     render_page W (ui c) = Ok page -> existsb (shows "loader") page = false).
Proof.
  intros Hrun Hph.
  destruct (ui_cases W _ c Hrun)
    as [[Hne _]|[[_ Hf]|(_ & Hs & specs & Htc & Hm)]].
  - contradiction.
  - pose proof (App_render_failed _ Hf) as Hpage.
    destruct Hf as (_ & Hl & _). rewrite Hl.
    split; [reflexivity|]. split; [reflexivity|]. split.
    + eexists. split; [exact Hpage | reflexivity].
    + intros page. unfold render_page. rewrite Hpage. simpl.
      intros H. injection H as <-. destruct (isChatOpen (ui c)); reflexivity.
  - destruct Hs as (_ & Hl & He). rewrite Hl.
    split; [reflexivity|]. split; [reflexivity|]. split.
    + destruct (merged_cards W specs _ Hm) as [cards Hcards].
      exists (products_page cards (isChatOpen (ui c))).
      split; [apply App_render_shown; auto|].
      simpl. rewrite (cards_show_no_class "loader" _ _ Hcards). reflexivity.
    + intros page Hpage.
      destruct (success_page W specs evs c Htc Hrun Hph He) as (_ & _ & Hr).
      destruct (Hr page Hpage) as (rendered & -> & _ & Hall).
      unfold rendered_products_page. simpl.
      rewrite (rendered_cards_show_no_loader W _ _ Hall).
      destruct (isChatOpen (ui c)); reflexivity.
Qed.

(** ** Elements are passed on as they are *)

(** The spread copies the own properties and [imageUrl] is no field of the
    invariant: a product is as valid as its element. *)
Lemma ProductSpec_ok_extend_eq (spec : JSValue) (imageUrl : string) :
  ProductSpec_ok (extend spec imageUrl) = ProductSpec_ok spec.
Proof.
  unfold extend, ProductSpec_ok.
  rewrite (obj_get_set_ne "name"), (obj_get_set_ne "description"),
    (obj_get_set_ne "price") by discriminate.
  destruct spec as [| | | |s|elems|props]; try reflexivity; simpl.
  - rewrite (obj_get_price_keys JSString (code_units s)).
    destruct (obj_get "name" _) as [| | | |?|?|?]; try reflexivity;
      destruct (obj_get "description" _) as [| | | |?|?|?]; reflexivity.
  - rewrite (obj_get_price_keys (fun e => e) elems).
    destruct (obj_get "name" _) as [| | | |?|?|?]; try reflexivity;
      destruct (obj_get "description" _) as [| | | |?|?|?]; reflexivity.
Qed.

(** ** The digits of a price *)

Lemma read_digits_acc (d : Decimal.uint) (acc : positive) :
  read_digits (N.pos acc) (NilEmpty.string_of_uint d)
  = Some (N.pos (Pos.of_uint_acc d acc)).
Proof.
  revert acc. induction d; intros acc; simpl; [reflexivity|..];
    match goal with
    | |- read_digits ?n _ = _ =>
        match goal with
        | |- _ = Some (N.pos (Pos.of_uint_acc _ ?p)) =>
            replace n with (N.pos p) by lia
        end
    end; apply IHd.
Qed.

Lemma read_digits_of_uint (d : Decimal.uint) :
  read_digits 0 (NilEmpty.string_of_uint d) = Some (N.of_uint d).
Proof.
  unfold N.of_uint. induction d; simpl; [reflexivity|exact IHd|..];
    apply (read_digits_acc d).
Qed.

Lemma read_digits_string_of_N (n : N) : read_digits 0 (string_of_N n) = Some n.
Proof.
  unfold string_of_N, NilZero.string_of_uint.
  rewrite <- (DecimalN.Unsigned.of_to n) at 2.
  destruct (N.to_uint n) eqn:Hd; try apply read_digits_of_uint.
  reflexivity.
Qed.

Lemma read_digits_zeros (k : nat) (s : string) :
  read_digits 0 (zeros k ++ s) = read_digits 0 s.
Proof. induction k as [|k IH]; [reflexivity | exact IH]. Qed.

Lemma substring_none (s : string) : substring 0 0 s = "".
Proof. destruct s; reflexivity. Qed.

Lemma substring_all (s : string) : substring 0 (String.length s) s = s.
Proof. induction s as [|c s IH]; simpl; [reflexivity | rewrite IH; reflexivity]. Qed.

Lemma substring_split (s : string) (a : nat) :
  (a <= String.length s)%nat ->
  substring 0 a s ++ substring a (String.length s - a) s = s.
Proof.
  revert a. induction s as [|c s IH]; intros a Ha; simpl in Ha.
  - destruct a; [reflexivity | lia].
  - destruct a as [|a].
    + simpl. rewrite substring_all. reflexivity.
    + simpl. rewrite IH by lia. reflexivity.
Qed.

Lemma string_of_N_head (n : N) :
  n <> 0%N ->
  exists c rest, string_of_N n = String c rest /\ c <> "0"%char.
Proof.
  intros Hn. unfold string_of_N, NilZero.string_of_uint.
  pose proof (DecimalN.Unsigned.to_of (N.to_uint n)) as Hnorm.
  rewrite DecimalN.Unsigned.of_to in Hnorm.
  destruct (N.to_uint n) as [|d|d|d|d|d|d|d|d|d|d] eqn:Hd;
    try (eexists; eexists; split; [reflexivity | discriminate]).
  exfalso. unfold Decimal.unorm in Hnorm. simpl in Hnorm.
  destruct (Decimal.nzhead d) as [|d'|d'|d'|d'|d'|d'|d'|d'|d'|d'] eqn:Hh;
    try discriminate.
  - injection Hnorm as ->. apply Hn.
    rewrite <- (DecimalN.Unsigned.of_to n), Hd. reflexivity.
  - apply (DecimalFacts.nzhead_nonzero d d'). exact Hh.
Qed.

Lemma place_point_cents (n : N) :
  exists whole cents,
    place_point 2 n = whole ++ "." ++ cents /\
    String.length cents = 2%nat /\
    decimal_value (whole ++ cents) = Some n /\
    (whole = "0" \/ exists c rest, whole = String c rest /\ c <> "0"%char).
Proof.
  unfold place_point.
  set (d := string_of_N n).
  set (p := if (String.length d <=? 2)%nat
            then zeros (2 + 1 - String.length d) ++ d else d).
  assert (Hread : read_digits 0 p = Some n).
  { unfold p. destruct (String.length d <=? 2)%nat.
    - rewrite read_digits_zeros. apply read_digits_string_of_N.
    - apply read_digits_string_of_N. }
  assert (Hlen : (3 <= String.length p)%nat).
  { unfold p. destruct (Nat.leb_spec (String.length d) 2).
    - rewrite length_append, length_zeros. lia.
    - lia. }
  exists (substring 0 (String.length p - 2) p),
         (substring (String.length p - 2) 2 p).
  split; [reflexivity|]. split; [rewrite length_substring by lia; lia|].
  assert (Hsplit : substring 0 (String.length p - 2) p
                   ++ substring (String.length p - 2) 2 p = p).
  { pose proof (substring_split p (String.length p - 2) ltac:(lia)) as H.
    replace (String.length p - (String.length p - 2))%nat with 2%nat in H by lia.
    exact H. }
  split.
  - rewrite Hsplit. unfold decimal_value.
    destruct p; [simpl in Hlen; lia | exact Hread].
  - unfold p in *. clear Hsplit Hread. destruct (Nat.leb_spec (String.length d) 2) as [Hle|Hgt].
    + left. rewrite length_append, length_zeros in *.
      replace (2 + 1 - String.length d + String.length d - 2)%nat with 1%nat by lia.
      destruct (2 + 1 - String.length d)%nat eqn:Hk; [lia|].
      simpl. rewrite substring_none. reflexivity.
    + right. destruct (string_of_N_head n) as (c & rest & Hd & Hc).
      { intros ->. unfold d in Hgt. simpl in Hgt. lia. }
      fold d in Hd. rewrite Hd in *. simpl in Hgt.
      exists c. simpl String.length.
      destruct (S (String.length rest) - 2)%nat eqn:Hk; [lia|].
      simpl. eexists. split; [reflexivity | exact Hc].
Qed.

Lemma read_digits_shift (s : string) (acc : N) :
  read_digits acc s
  = (fun b => (acc * 10 ^ N.of_nat (String.length s) + b)%N) <$> read_digits 0 s.
Proof.
  revert acc. induction s as [|c s IH]; intros acc.
  - simpl. f_equal. lia.
  - cbn [read_digits String.length]. destruct (digit_value c) as [d|]; [|reflexivity].
    rewrite (IH (10 * acc + d)%N), (IH (10 * 0 + d)%N).
    destruct (read_digits 0 s) as [b|]; [|reflexivity]. simpl. f_equal.
    rewrite Nat2N.inj_succ, N.pow_succ_r'. lia.
Qed.

Lemma read_digits_append (s t : string) (n : N) :
  read_digits 0 (s ++ t) = Some n ->
  exists a b,
    read_digits 0 s = Some a /\ read_digits 0 t = Some b /\
    n = (a * 10 ^ N.of_nat (String.length t) + b)%N.
Proof.
  assert (Happ : forall acc, read_digits acc (s ++ t)
                             = read_digits acc s ≫= fun a => read_digits a t).
  { induction s as [|c s IH]; intros acc; [reflexivity|].
    simpl. destruct (digit_value c); [apply IH | reflexivity]. }
  rewrite Happ. destruct (read_digits 0 s) as [a|]; [|discriminate]. simpl.
  rewrite read_digits_shift. destruct (read_digits 0 t) as [b|]; [|discriminate].
  simpl. intros H. injection H as <-. eauto.
Qed.

Lemma place_point_shape (n : N) :
  exists whole cents a b,
    place_point 2 n = whole ++ "." ++ cents /\
    decimal_value whole = Some a /\
    (whole = "0" \/ exists c rest, whole = String c rest /\ c <> "0"%char) /\
    String.length cents = 2%nat /\
    decimal_value cents = Some b /\
    n = (100 * a + b)%N.
Proof.
  destruct (place_point_cents n) as (whole & cents & Heq & Hlen & Hread & Hhead).
  assert (Hw : whole <> "").
  { destruct Hhead as [->|(c & rest & -> & _)]; discriminate. }
  unfold decimal_value in Hread.
  destruct (whole ++ cents) as [|ch tl] eqn:Happ; [discriminate|].
  rewrite <- Happ in Hread.
  destruct (read_digits_append whole cents n Hread) as (a & b & Ha & Hb & Hn).
  exists whole, cents, a, b. split; [exact Heq|].
  split; [destruct whole; [contradiction | exact Ha]|].
  split; [exact Hhead|]. split; [exact Hlen|].
  split; [destruct cents; [discriminate | exact Hb]|].
  rewrite Hn, Hlen. lia.
Qed.

Lemma nearest_scaled_half_up (m : positive) (e : Z) :
  ((0 <= e)%Z ->
   Z.of_N (nearest_scaled 2 m e) = (Z.pos m * 100 * 2 ^ e)%Z) /\
  ((e < 0)%Z ->
   (- 2 ^ (- e)
    < 2 * (Z.of_N (nearest_scaled 2 m e) * 2 ^ (- e) - Z.pos m * 100)
    <= 2 ^ (- e))%Z).
Proof.
  split.
  - intros He. unfold nearest_scaled.
    destruct (Z.leb_spec 0 e) as [_|Hlt]; [|lia].
    change (10 ^ Z.of_nat 2)%Z with 100%Z.
    rewrite Z2N.id; [reflexivity|].
    assert (0 < 2 ^ e)%Z by (apply Z.pow_pos_nonneg; lia). nia.
  - intros He. unfold nearest_scaled.
    destruct (Z.leb_spec 0 e) as [Hle|_]; [lia|].
    change (10 ^ Z.of_nat 2)%Z with 100%Z.
    set (S := (Z.pos m * 100)%Z).
    set (P := (2 ^ (- e))%Z).
    assert (HP : (0 < P)%Z) by (apply Z.pow_pos_nonneg; lia).
    assert (HS : (0 < S)%Z) by (unfold S; lia).
    replace (2 ^ (- e + 1))%Z with (2 * P)%Z
      by (unfold P; rewrite Z.pow_add_r by lia; lia).
    pose proof (Z.div_mod (2 * S + P) (2 * P) ltac:(lia)) as Hdm.
    pose proof (Z.mod_pos_bound (2 * S + P) (2 * P) ltac:(lia)) as Hr.
    assert (Hq : (0 <= (2 * S + P) / (2 * P))%Z) by (apply Z.div_pos; lia).
    rewrite Z2N.id by exact Hq. nia.
Qed.

(** * The claims *)




(** C2. When the text call returns an array and the promise of one of the
    callbacks is rejected (its image call throws, or its answer holds no
    image, or its prompt cannot be built), [products] is the empty array at
    every point of every run, and when the workflow has ended the error is
    the one generic message, [loading] is off and the page shows the message
    and no grid. The workflow does end, in whatever order the issued image
    calls are answered. *)
Theorem image_failure_is_all_or_nothing
    (W : World) (specs : list JSValue) (i : nat) (spec : JSValue) :
  text_call W = Ok (JSArray specs) ->
  specs !! i = Some spec ->
  is_ok (callback W (client W) i spec) = false ->
  (forall evs c,
     run W evs = Some c ->
     products (ui c) = [] /\
     (exists nodes, App_render (ui c) = Ok nodes /\
                    existsb (shows "products-grid") nodes = false) /\
     (phase c = Finished ->
      error (ui c) = error_message /\ loading (ui c) = false /\
      App_render (ui c) = Ok (error_page (isChatOpen (ui c)))))
  /\
  (forall c0 order,
     main W = Mounted c0 ->
     order ≡ₚ index <$> issued (started W specs) ->
     exists c, run W (TextDone :: (ImageDone <$> order)) = Some c /\
               phase c = Finished /\
               products (ui c) = [] /\ error (ui c) = error_message).
Proof.
  intros Htc Hs Hfail.
  assert (Hm : is_ok (merged W specs) = false) by (eapply merged_Throw; eauto).
  assert (HA : forall evs c,
             run W evs = Some c ->
             products (ui c) = [] /\
             (exists nodes, App_render (ui c) = Ok nodes /\
                            existsb (shows "products-grid") nodes = false) /\
             (phase c = Finished ->
              error (ui c) = error_message /\ loading (ui c) = false /\
              App_render (ui c) = Ok (error_page (isChatOpen (ui c))))).
  2:{ split; [exact HA|].
      intros c0 order Hmain Hperm.
      destruct (complete_run W c0 specs order Hmain Htc Hperm) as (c & Hrun & Hph).
      exists c. split; [exact Hrun|]. split; [exact Hph|].
      destruct (HA _ c Hrun) as (Hprod & _ & Hfin).
      split; [exact Hprod | apply (Hfin Hph)]. }
  - intros evs c Hrun.
    destruct (ui_cases W evs c Hrun)
      as [[Hph Hu]|[[Hph Hf]|(Hph & Hsh & specs' & Htc' & Hm')]].
    + split; [apply Hu|]. split.
      * exists (loading_page (isChatOpen (ui c))).
        split; [apply App_render_untouched, Hu | reflexivity].
      * intros Hfin. contradiction.
    + split; [apply Hf|]. split.
      * exists (error_page (isChatOpen (ui c))).
        split; [apply App_render_failed, Hf | reflexivity].
      * intros _. destruct Hf as (Hp & Hl & He).
        repeat split; auto. apply App_render_failed. repeat split; auto.
    + assert (specs' = specs) as -> by congruence.
      rewrite Hm' in Hm. discriminate.
Qed.

Lemma image_failure_witness :
  text_call (two_tees_world true) = Ok (JSArray [boss_tee; lag_tee]) /\
  [boss_tee; lag_tee] !! 1%nat = Some lag_tee /\
  is_ok (callback (two_tees_world true) (client (two_tees_world true)) 1 lag_tee) = false /\
  exists c,
    run (two_tees_world true) (TextDone :: (ImageDone <$> [0; 1]%nat)) = Some c /\
    phase c = Finished /\
    products (ui c) = [] /\ error (ui c) = error_message /\ loading (ui c) = false /\
    App_render (ui c) = Ok (error_page (isChatOpen (ui c))).
Proof.
  split; [reflexivity|]. split; [reflexivity|]. split; [reflexivity|].
  destruct (image_failure_is_all_or_nothing
              (two_tees_world true) [boss_tee; lag_tee] 1 lag_tee
              eq_refl eq_refl eq_refl) as [HA HB].
  destruct (HB _ [0; 1]%nat eq_refl (Permutation_refl _)) as (c & Hrun & Hph & _).
  exists c. split; [exact Hrun|]. split; [exact Hph|].
  destruct (HA _ c Hrun) as (Hprod & _ & Hfin).
  destruct (Hfin Hph) as (Herr & Hload & Hpage).
  repeat split; assumption.
Defined.

(** C3. When the text call fails, by throwing or by an answer that does not
    parse, no image call is ever issued, and the answer of the text call
    ends the workflow in the error state. *)
Theorem text_failure_issues_no_image_call (W : World) :
  is_ok (text_call W) = false ->
  (forall evs c,
     run W evs = Some c ->
     image_calls (log c) = [] /\ products (ui c) = [] /\
     (phase c = Finished ->
      error (ui c) = error_message /\ loading (ui c) = false /\
      App_render (ui c) = Ok (error_page (isChatOpen (ui c)))))
  /\
  (forall c0,
     main W = Mounted c0 ->
     exists c, run W [TextDone] = Some c /\ phase c = Finished /\
               image_calls (log c) = [] /\ error (ui c) = error_message).
Proof.
  intros Hfail.
  assert (Hno : forall specs, text_call W <> Ok (JSArray specs)).
  { intros specs H. rewrite H in Hfail. discriminate. }
  assert (HA : forall evs c,
             run W evs = Some c ->
             image_calls (log c) = [] /\ products (ui c) = [] /\
             (phase c = Finished ->
              error (ui c) = error_message /\ loading (ui c) = false /\
              App_render (ui c) = Ok (error_page (isChatOpen (ui c))))).
  2: split; [exact HA|].
  - intros evs c Hrun. pose proof (Inv_run W evs c Hrun) as HI.
    split.
    { rewrite (inv_image_calls W c HI). unfold expected_calls.
      destruct (phase c); try reflexivity;
        destruct (text_call W) as [[]|]; try reflexivity; discriminate. }
    destruct (ui_cases W evs c Hrun)
      as [[Hph Hu]|[[Hph Hf]|(_ & _ & specs & Htc & _)]].
    + split; [apply Hu | contradiction].
    + split; [apply Hf|]. intros _. destruct Hf as (Hp & Hl & He).
      repeat split; auto. apply App_render_failed. repeat split; auto.
    + destruct (Hno specs Htc).
  - intros c0 Hmain.
    pose proof (Inv_mount W c0 Hmain) as HI0.
    pose proof (phase_mount W c0 Hmain) as Hph0.
    assert (Hrun : run W [TextDone]
                   = Some (after_text W (generateContent W (ai c0) text_request) c0)).
    { unfold run. rewrite Hmain. simpl. rewrite Hph0. reflexivity. }
    eexists. split; [exact Hrun|].
    pose proof (Inv_after_text W c0 HI0 Hph0) as HI1.
    pose proof (phase_after_text W (generateContent W (ai c0) text_request) c0) as Hph1.
    assert (Hph : phase (after_text W (generateContent W (ai c0) text_request) c0)
                  = Finished).
    { destruct (inv_phase W _ HI1)
        as [Hph _ _|specs ? ? _ Htc _ _ _ _ _ _ _|Hph _ _|specs _ Htc _ _ _].
      - contradiction.
      - destruct (Hno specs Htc).
      - exact Hph.
      - destruct (Hno specs Htc). }
    split; [exact Hph|].
    destruct (HA _ _ Hrun) as (Hcalls & _ & Hfin).
    split; [exact Hcalls | apply (Hfin Hph)].
Qed.

Lemma text_failure_witness :
  is_ok (text_call text_down_world) = false /\
  exists c,
    run text_down_world [TextDone] = Some c /\ phase c = Finished /\
    image_calls (log c) = [] /\ products (ui c) = [] /\
    error (ui c) = error_message /\ loading (ui c) = false.
Proof.
  split; [reflexivity|].
  destruct (text_failure_issues_no_image_call text_down_world eq_refl) as [HA HB].
  destruct (HB _ eq_refl) as (c & Hrun & Hph & _).
  exists c. split; [exact Hrun|]. split; [exact Hph|].
  destruct (HA _ c Hrun) as (Hcalls & Hprod & Hfin).
  destruct (Hfin Hph) as (Herr & Hload & _).
  repeat split; assumption.
Defined.

(** C4, as the code has it. In every run that ends without the error
    message, the number of products is the number of elements of the array
    the text call returned, whatever that number is; the grid [App] returns
    holds one [ProductCard] per product, keyed by its name; the page renders
    exactly when every element is an object with a number as its price, and
    the rendered grid then holds that many cards, the card at each index
    being the rendering of the product at that index. Such a run exists
    for every order of the answers whenever no callback fails. *)
Theorem product_count_equals_text_response (W : World) (specs : list JSValue) :
  text_call W = Ok (JSArray specs) ->
  (forall evs c,
     run W evs = Some c -> phase c = Finished -> error (ui c) = "" ->
     length (products (ui c)) = length specs /\
     (exists cards,
        App_render (ui c) = Ok (products_page cards (isChatOpen (ui c))) /\
        length cards = length specs /\
        forall i prod,
          products (ui c) !! i = Some prod ->
          exists key, GetV prod "name" = Ok key /\
                      cards !! i = Some (VComp (ProductCard key prod))) /\
     is_ok (render_page W (ui c)) = forallb has_numeric_price specs /\
     (forall page,
        render_page W (ui c) = Ok page ->
        exists rendered,
          page = rendered_products_page rendered (isChatOpen (ui c)) /\
          length rendered = length specs /\
          Forall2 (fun prod node => ProductCard_render W prod = Ok node)
            (products (ui c)) rendered))
  /\
  (forall c0 order,
     main W = Mounted c0 ->
     is_ok (merged W specs) = true ->
     order ≡ₚ seq 0 (length specs) ->
     exists c, run W (TextDone :: (ImageDone <$> order)) = Some c /\
               phase c = Finished /\ error (ui c) = "" /\
               length (products (ui c)) = length specs).
Proof.
  intros Htc.
  assert (Hlen : forall evs c,
             run W evs = Some c -> phase c = Finished -> error (ui c) = "" ->
             length (products (ui c)) = length specs).
  { intros evs c Hrun Hph Herr.
    destruct (success_merged W evs c specs Hrun Htc Hph Herr) as [Hm _].
    apply merged_Ok in Hm as [Hlen _]. symmetry. exact Hlen. }
  split.
  - intros evs c Hrun Hph Herr.
    split; [apply (Hlen evs c Hrun Hph Herr)|].
    apply (success_page W specs evs c); auto.
  - intros c0 order Hmain Hok Hperm.
    destruct (complete_run W c0 specs order Hmain Htc) as (c & Hrun & Hph).
    { rewrite Hperm. symmetry. apply issued_indices_all, Hok. }
    pose proof (finished_outcome W _ c specs Hrun Htc Hph) as Hout.
    rewrite Hok in Hout. destruct Hout as [_ (_ & _ & Herr)].
    exists c. split; [exact Hrun|]. split; [exact Hph|]. split; [exact Herr|].
    apply (Hlen _ c Hrun Hph Herr).
Qed.

Lemma product_count_witness :
  text_call six_tees_world = Ok (JSArray six_tees) /\
  exists c,
    run six_tees_world (TextDone :: (ImageDone <$> seq 0 6)) = Some c /\
    phase c = Finished /\ error (ui c) = "" /\
    length (products (ui c)) = 6%nat /\
    exists rendered,
      render_page six_tees_world (ui c)
      = Ok (rendered_products_page rendered (isChatOpen (ui c))) /\
      length rendered = 6%nat.
Proof.
  split; [reflexivity|].
  destruct (product_count_equals_text_response six_tees_world six_tees eq_refl)
    as [Hcount Hruns].
  destruct (Hruns _ (seq 0 6) eq_refl eq_refl (reflexivity _))
    as (c & Hrun & Hph & Herr & Hlen).
  exists c. split; [exact Hrun|]. split; [exact Hph|]. split; [exact Herr|].
  split; [exact Hlen|].
  destruct (Hcount _ c Hrun Hph Herr) as (_ & _ & Hok & Hpage).
  destruct (render_page six_tees_world (ui c)) as [page|e] eqn:Hr;
    [|vm_compute in Hok; discriminate].
  destruct (Hpage page eq_refl) as (rendered & -> & Hl & _).
  exists rendered. split; [reflexivity|exact Hl].
Defined.

(** C4, as the spec has it, fails: the text service answers with six specs,
    every image call is answered, and the grid shows six cards. *)
Lemma six_products_are_rendered :
  exists c cards,
    text_call six_tees_world = Ok (JSArray six_tees) /\
    run six_tees_world (TextDone :: (ImageDone <$> seq 0 6)) = Some c /\
    phase c = Finished /\ error (ui c) = "" /\
    App_render (ui c) = Ok (products_page cards (isChatOpen (ui c))) /\
    length cards = length six_tees /\
    ~ length cards <= 5.
Proof.
  eexists. eexists.
  split; [reflexivity|].
  split; [vm_compute; reflexivity|].
  split; [reflexivity|]. split; [reflexivity|].
  split; [vm_compute; reflexivity|].
  split; [reflexivity|]. simpl. lia.
Qed.

(** C5, as the code has it. The workflow does not check the text response:
    it passes every element on as it is, valid or not. Once the text call
    is answered, an image call has been made for every element whose name
    can be read, with the prompt that quotes that name, whatever the name
    is. In a run that ends without the error message the product at each
    index is the element at that index with [imageUrl] set and nothing else
    changed, so it satisfies the invariant of a ProductSpec exactly when
    its element does, and the grid [App] returns holds its card. And such
    a run exists for every order of the answers whenever no callback
    fails, whether the elements are valid or not. *)
Theorem specs_are_passed_on_unchecked (W : World) (specs : list JSValue) :
  let request_for (name : string) :=
    {| images_model := "imagen-4.0-generate-001";
       prompt :=
         "A professional ecommerce product photograph of a t-shirt featuring a clean, modern, minimalist graphic design inspired by "
         ++ String "034"%char name ++ String "034"%char
              ". The t-shirt is neatly displayed on a neutral, light gray background. High-quality, commercial photography.";
       numberOfImages := 1;
       outputMimeType := "image/png";
       aspectRatio := "1:1" |} in
  text_call W = Ok (JSArray specs) ->
  (forall evs c i spec name,
     run W evs = Some c -> TextDone ∈ evs ->
     specs !! i = Some spec ->
     (GetV spec "name" ≫= ToString (Number_toString W)) = Ok name ->
     (i, request_for name) ∈ image_calls (log c))
  /\
  (forall evs c,
     run W evs = Some c -> phase c = Finished -> error (ui c) = "" ->
     length (products (ui c)) = length specs /\
     (forall i spec,
        specs !! i = Some spec ->
        exists prod imageUrl,
          products (ui c) !! i = Some prod /\
          GetV prod "imageUrl" = Ok (JSString imageUrl) /\
          ProductSpec_ok prod = ProductSpec_ok spec /\
          (forall props key,
             spec = JSObject props -> key <> "imageUrl" ->
             GetV prod key = Ok (obj_get key props))) /\
     (Forall (fun prod => ProductSpec_ok prod = true) (products (ui c)) <->
      Forall (fun spec => ProductSpec_ok spec = true) specs) /\
     (exists cards,
        App_render (ui c) = Ok (products_page cards (isChatOpen (ui c))) /\
        length cards = length specs /\
        forall i prod,
          products (ui c) !! i = Some prod ->
          exists key, GetV prod "name" = Ok key /\
                      cards !! i = Some (VComp (ProductCard key prod))))
  /\
  (forall c0 order,
     main W = Mounted c0 ->
     is_ok (merged W specs) = true ->
     order ≡ₚ seq 0 (length specs) ->
     exists c, run W (TextDone :: (ImageDone <$> order)) = Some c /\
               phase c = Finished /\ error (ui c) = "").
Proof.
  intros request_for Htc. split; [|split].
  - intros evs c i spec name Hrun Htext Hs Hn.
    rewrite (inv_image_calls W c (Inv_run W evs c Hrun)).
    apply (unanswered_run W evs c Hrun) in Htext.
    assert (Hcalls : match phase c with AwaitText => [] | _ => expected_calls W end
                     = calls_of W specs).
    { unfold expected_calls. rewrite Htc. destruct (phase c); [contradiction| |]; reflexivity. }
    rewrite Hcalls. unfold calls_of. apply list_elem_of_fmap.
    exists {| index := i; product := spec; request := request_for name |}.
    split; [reflexivity|]. apply elem_of_issued. simpl.
    apply elem_of_started. exists i, spec. split; [|exact Hs].
    f_equal. unfold callback_start.
    apply bind_Ok in Hn as (nm & Hnm & Hs'). rewrite Hnm. simpl. rewrite Hs'.
    reflexivity.
  - intros evs c Hrun Hph Herr.
    destruct (success_merged W evs c specs Hrun Htc Hph Herr) as [Hm Hload].
    pose proof Hm as Hm'. apply merged_Ok in Hm' as [Hlen Hcb].
    assert (Hprods : forall i spec,
               specs !! i = Some spec ->
               exists imageUrl, products (ui c) !! i = Some (extend spec imageUrl)).
    { intros i spec Hs.
      destruct (lookup_lt_is_Some_2 (products (ui c)) i) as [prod Hp].
      { rewrite <- Hlen. eapply lookup_lt_Some; eauto. }
      specialize (Hcb i spec prod Hs Hp).
      apply callback_extends in Hcb as (? & ? & url & _ & _ & _ & ->). eauto. }
    split; [symmetry; exact Hlen|]. split; [|split].
    + intros i spec Hs. destruct (Hprods i spec Hs) as [url Hp].
      exists (extend spec url), url. split; [exact Hp|]. split.
      { simpl. rewrite obj_get_set_eq. reflexivity. }
      split; [apply ProductSpec_ok_extend_eq|].
      intros props key -> Hne. simpl. rewrite obj_get_set_ne by exact Hne. reflexivity.
    + rewrite !Forall_lookup. split.
      * intros Hall i spec Hs. destruct (Hprods i spec Hs) as [url Hp].
        rewrite <- (ProductSpec_ok_extend_eq spec url). apply (Hall i _ Hp).
      * intros Hall i prod Hp.
        destruct (lookup_lt_is_Some_2 specs i) as [spec Hs].
        { rewrite Hlen. eapply lookup_lt_Some; eauto. }
        destruct (Hprods i spec Hs) as [url Hp']. rewrite Hp in Hp'. injection Hp' as ->.
        rewrite ProductSpec_ok_extend_eq. apply (Hall i _ Hs).
    + apply (success_page W specs evs c); auto.
  - intros c0 order Hmain Hok Hperm.
    destruct (complete_run W c0 specs order Hmain Htc) as (c & Hrun & Hph).
    { rewrite Hperm. symmetry. apply issued_indices_all, Hok. }
    exists c. split; [exact Hrun|]. split; [exact Hph|].
    pose proof (finished_outcome W _ c specs Hrun Htc Hph) as Hout.
    rewrite Hok in Hout. apply Hout.
Qed.

Lemma specs_passed_on_witness :
  text_call blank_world = Ok (JSArray [blank_spec]) /\
  exists c prod,
    run blank_world [TextDone; ImageDone 0] = Some c /\
    phase c = Finished /\ error (ui c) = "" /\
    (0%nat, image_request "") ∈ image_calls (log c) /\
    products (ui c) !! 0%nat = Some prod /\
    ProductSpec_ok prod = false.
Proof.
  split; [reflexivity|].
  destruct (specs_are_passed_on_unchecked blank_world [blank_spec] eq_refl)
    as (Hcalls & Hprods & Hruns).
  destruct (Hruns _ [0%nat] eq_refl eq_refl (reflexivity _)) as (c & Hrun & Hph & Herr).
  destruct (Hprods _ c Hrun Hph Herr) as (_ & Hidx & _).
  destruct (Hidx 0%nat blank_spec eq_refl) as (prod & url & Hp & _ & Hok & _).
  exists c, prod. split; [exact Hrun|]. split; [exact Hph|]. split; [exact Herr|].
  split; [|split; [exact Hp | exact Hok]].
  apply (Hcalls _ c 0%nat blank_spec "" Hrun); [left | reflexivity | reflexivity].
Defined.

(** C5, as the spec has it, fails: the text service answers with a spec
    whose name and description are empty and whose price is [-1]; an image
    is asked for the empty name, and the product reaches the state. *)
Lemma blank_spec_is_passed_on :
  exists c prod,
    text_call blank_world = Ok (JSArray [blank_spec]) /\
    run blank_world [TextDone; ImageDone 0] = Some c /\
    phase c = Finished /\ error (ui c) = "" /\
    image_calls (log c) = [(0%nat, image_request "")] /\
    products (ui c) = [prod] /\
    GetV prod "name" = Ok (JSString "") /\
    GetV prod "description" = Ok (JSString "") /\
    GetV prod "price" = Ok (JSNumber double_minus_1) /\
    ProductSpec_ok blank_spec = false /\
    ProductSpec_ok prod = false.
Proof.
  eexists. eexists.
  split; [reflexivity|].
  split; [vm_compute; reflexivity|].
  repeat split; reflexivity.
Qed.

(** C6. The text call returns the one spec Boss Tee, 24.99, and the image
    call returns the bytes AAAA: every run that ends holds the one product,
    and its card shows the name, the description, the price as $24.99 and
    the image with the data URI of the bytes as its source. *)
Theorem boss_tee_scenario
    (W : World) (g : GeneratedImage) (rest : list GeneratedImage) (img : Image) :
  text_call W = Ok (JSArray [boss_tee]) ->
  generateImages W (client W) 0 (image_request "Boss Tee")
  = Ok {| generatedImages := Some (g :: rest) |} ->
  image g = Some img ->
  imageBytes img = Some "AAAA" ->
  (forall evs c,
     run W evs = Some c -> phase c = Finished ->
     products (ui c) = [boss_tee_product] /\ error (ui c) = "" /\
     App_render (ui c)
     = Ok (products_page [VComp (ProductCard (JSString "Boss Tee") boss_tee_product)]
             (isChatOpen (ui c)))) /\
  ProductCard_render W boss_tee_product = Ok boss_tee_card /\
  textContent W <$> find_class "product-name" boss_tee_card = Some "Boss Tee" /\
  textContent W <$> find_class "product-description" boss_tee_card
  = Some "Defeat lag in style" /\
  textContent W <$> find_class "product-price" boss_tee_card = Some "$24.99" /\
  find_class "product-image" boss_tee_card ≫= attribute "src"
  = Some (JSString "data:image/png;base64,AAAA") /\
  (forall c0,
     main W = Mounted c0 ->
     exists c, run W [TextDone; ImageDone 0] = Some c /\ phase c = Finished).
Proof.
  intros Htc Himg Hg Hbytes.
  assert (Hm : merged W [boss_tee] = Ok [boss_tee_product]).
  { unfold merged, indexed. simpl. unfold callback, callback_start. simpl.
    rewrite Himg. simpl. unfold imageUrl_of. simpl. rewrite Hg. simpl.
    rewrite Hbytes. reflexivity. }
  split; [|split; [|split; [|split; [|split; [|split]]]]].
  - intros evs c Hrun Hph.
    pose proof (finished_outcome W evs c [boss_tee] Hrun Htc Hph) as Hout.
    rewrite Hm in Hout. simpl in Hout. destruct Hout as (Heq & _ & Hload & Herr).
    injection Heq as Heq. split; [congruence|]. split; [exact Herr|].
    apply App_render_shown; auto. rewrite <- Heq. reflexivity.
  - vm_compute. reflexivity.
  - reflexivity.
  - reflexivity.
  - reflexivity.
  - reflexivity.
  - intros c0 Hmain.
    apply (complete_run W c0 [boss_tee] [0%nat] Hmain Htc). reflexivity.
Qed.

Lemma boss_tee_witness :
  text_call boss_tee_world = Ok (JSArray [boss_tee]) /\
  generateImages boss_tee_world (client boss_tee_world) 0 (image_request "Boss Tee")
  = Ok (one_image "AAAA") /\
  exists c,
    run boss_tee_world [TextDone; ImageDone 0] = Some c /\ phase c = Finished /\
    products (ui c) = [boss_tee_product] /\
    ProductCard_render boss_tee_world boss_tee_product = Ok boss_tee_card /\
    textContent boss_tee_world <$> find_class "product-price" boss_tee_card
    = Some "$24.99".
Proof.
  split; [reflexivity|]. split; [reflexivity|].
  destruct (boss_tee_scenario boss_tee_world
              {| image := Some {| imageBytes := Some "AAAA" |} |} []
              {| imageBytes := Some "AAAA" |} eq_refl eq_refl eq_refl eq_refl)
    as (Hruns & Hcard & _ & _ & Hprice & _ & Hends).
  destruct (Hends _ eq_refl) as (c & Hrun & Hph).
  exists c. split; [exact Hrun|]. split; [exact Hph|].
  destruct (Hruns _ c Hrun Hph) as (Hprods & _).
  repeat split; assumption.
Defined.

(** C7. Start-up reads one variable of the environment, [API_KEY], and no
    run ever reads another; when it is absent, the module body throws
    before anything is mounted and before any call: nothing else has
    happened, and there is no run. *)
Theorem missing_api_key_is_fatal (W : World) :
  env_reads (startup_effects (main W)) = ["API_KEY"] /\
  (forall evs c, run W evs = Some c -> env_reads (log c) = ["API_KEY"]) /\
  (env W "API_KEY" = None ->
   main W = Fatal (Error "API_KEY environment variable not set") [EnvRead "API_KEY"] /\
   text_calls (startup_effects (main W)) = [] /\
   image_calls (startup_effects (main W)) = [] /\
   forall evs, run W evs = None).
Proof.
  split; [|split].
  - unfold main, module_init. destruct (not_string _); reflexivity.
  - intros evs c Hrun. apply (inv_reads W c (Inv_run W evs c Hrun)).
  - intros Hkey.
    assert (Hmain : main W = Fatal (Error "API_KEY environment variable not set")
                             [EnvRead "API_KEY"]).
    { unfold main, module_init. rewrite Hkey. reflexivity. }
    split; [exact Hmain|]. rewrite Hmain. simpl.
    split; [reflexivity|]. split; [reflexivity|].
    intros evs. unfold run. rewrite Hmain. reflexivity.
Qed.

Lemma missing_api_key_witness :
  env keyless_world "API_KEY" = None /\
  main keyless_world
  = Fatal (Error "API_KEY environment variable not set") [EnvRead "API_KEY"] /\
  run keyless_world [TextDone] = None.
Proof.
  split; [reflexivity|].
  destruct (missing_api_key_is_fatal keyless_world) as (_ & _ & H).
  destruct (H eq_refl) as (Hmain & _ & _ & Hrun).
  split; [exact Hmain | apply Hrun].
Defined.

(** C8. Clicks on the chat bubble and on its close button, in any number
    and order and from any state, can always happen and leave [products],
    [loading] and [error] as they were, and the workflow with its calls and
    its log too: only [isChatOpen] is written. *)
Theorem chat_toggle_leaves_products_alone (W : World) (c : Config) (evs : list Event) :
  forallb is_chat_event evs = true ->
  exists c',
    exec W c evs = Some c' /\
    products (ui c') = products (ui c) /\
    loading (ui c') = loading (ui c) /\
    error (ui c') = error (ui c) /\
    phase c' = phase c /\ inflight c' = inflight c /\ log c' = log c /\ ai c' = ai c.
Proof.
  revert c. induction evs as [|ev evs IH]; intros c Hchat; simpl.
  - exists c. repeat split; reflexivity.
  - simpl in Hchat. apply andb_true_iff in Hchat as [Hev Hchat].
    destruct ev; try discriminate; simpl.
    + destruct (IH (with_ui (handle (bubble_onClick (isChatOpen (ui c)))) c) Hchat)
        as (c' & Hexec & H).
      exists c'. split; [exact Hexec | exact H].
    + destruct (IH (with_ui (handle close_onClick) c) Hchat) as (c' & Hexec & H).
      exists c'. split; [exact Hexec | exact H].
Qed.

Lemma chat_toggle_witness :
  forallb is_chat_event [ClickBubble; ClickClose; ClickBubble] = true /\
  exists c',
    exec boss_tee_world (mount (client boss_tee_world))
      [ClickBubble; ClickClose; ClickBubble] = Some c' /\
    isChatOpen (ui c') = true /\
    products (ui c') = [] /\ loading (ui c') = true /\ error (ui c') = "".
Proof.
  split; [reflexivity|].
  destruct (chat_toggle_leaves_products_alone boss_tee_world
              (mount (client boss_tee_world))
              [ClickBubble; ClickClose; ClickBubble] eq_refl)
    as (c' & Hexec & Hp & Hl & He & _).
  exists c'. split; [exact Hexec|].
  split; [|repeat split; assumption].
  vm_compute in Hexec. injection Hexec as <-. reflexivity.
Defined.

(** C9. When the text call returns the empty array, no image call is ever
    issued and [products] stays empty; the answer of the text call ends the
    workflow, and then there is no error, [loading] is off and the page
    shows the grid, with no card in it. *)
Theorem empty_response_shows_empty_grid (W : World) :
  text_call W = Ok (JSArray []) ->
  (forall evs c,
     run W evs = Some c ->
     image_calls (log c) = [] /\ products (ui c) = [] /\
     (phase c = Finished ->
      error (ui c) = "" /\ loading (ui c) = false /\
      App_render (ui c) = Ok (products_page [] (isChatOpen (ui c)))))
  /\
  (forall c0,
     main W = Mounted c0 ->
     exists c, run W [TextDone] = Some c /\ phase c = Finished /\
               image_calls (log c) = [] /\ products (ui c) = [] /\
               error (ui c) = "").
Proof.
  intros Htc.
  assert (HA : forall evs c,
             run W evs = Some c ->
             image_calls (log c) = [] /\ products (ui c) = [] /\
             (phase c = Finished ->
              error (ui c) = "" /\ loading (ui c) = false /\
              App_render (ui c) = Ok (products_page [] (isChatOpen (ui c))))).
  2: split; [exact HA|].
  - intros evs c Hrun. pose proof (Inv_run W evs c Hrun) as HI.
    split.
    { rewrite (inv_image_calls W c HI). unfold expected_calls. rewrite Htc.
      destruct (phase c); reflexivity. }
    assert (Hfin : phase c = Finished ->
                   products (ui c) = [] /\ loading (ui c) = false /\ error (ui c) = "").
    { intros Hph. pose proof (finished_outcome W evs c [] Hrun Htc Hph) as Hout.
      simpl in Hout. destruct Hout as (Heq & _ & Hl & He).
      injection Heq as <-. auto. }
    split.
    + destruct (ui_cases W evs c Hrun) as [[_ Hu]|[[Hph _]|(Hph & _)]].
      * apply Hu.
      * apply (Hfin Hph).
      * apply (Hfin Hph).
    + intros Hph. destruct (Hfin Hph) as (Hp & Hl & He).
      split; [exact He|]. split; [exact Hl|].
      apply App_render_shown; auto. rewrite Hp. reflexivity.
  - intros c0 Hmain.
    destruct (complete_run W c0 [] [] Hmain Htc) as (c & Hrun & Hph); [reflexivity|].
    exists c. split; [exact Hrun|]. split; [exact Hph|].
    destruct (HA _ c Hrun) as (Hcalls & Hprod & Hfin).
    split; [exact Hcalls|]. split; [exact Hprod | apply (Hfin Hph)].
Qed.

Lemma empty_response_witness :
  text_call empty_world = Ok (JSArray []) /\
  exists c,
    run empty_world [TextDone] = Some c /\ phase c = Finished /\
    image_calls (log c) = [] /\ products (ui c) = [] /\ error (ui c) = "" /\
    App_render (ui c) = Ok (products_page [] (isChatOpen (ui c))).
Proof.
  split; [reflexivity|].
  destruct (empty_response_shows_empty_grid empty_world eq_refl) as [HA HB].
  destruct (HB _ eq_refl) as (c & Hrun & Hph & _).
  exists c. split; [exact Hrun|]. split; [exact Hph|].
  destruct (HA _ c Hrun) as (Hcalls & Hprod & Hfin).
  destruct (Hfin Hph) as (Herr & _ & Hpage).
  repeat split; assumption.
Defined.

(** C10. The workflow has ended exactly when the text call has been
    answered and either every image call that was made has been answered
    or the callback of one element has failed, before its call or on the
    answer to it. From then on, in success and in failure alike and
    whatever happens afterwards, [loading] is off: the state is not loading
    and in error at once, and neither what [App] returns nor the rendered
    page shows the loader. *)
Theorem loading_ends_with_the_workflow (W : World) (evs : list Event) (c : Config) :
  let ended :=
    TextDone ∈ evs /\
    ((forall i request, (i, request) ∈ image_calls (log c) -> ImageDone i ∈ evs) \/
     exists specs i spec,
       text_call W = Ok (JSArray specs) /\ specs !! i = Some spec /\
       is_ok (callback W (client W) i spec) = false /\
       (is_ok (callback_start W spec) = false \/ ImageDone i ∈ evs)) in
  run W evs = Some c ->
  (ended <-> phase c = Finished) /\
  (ended ->
   forall evs' c',
     exec W c evs' = Some c' ->
     phase c' = Finished /\
     loading (ui c') = false /\
     loading (ui c') && truthy (error (ui c')) = false /\
     (exists nodes,
        App_render (ui c') = Ok nodes /\ existsb (shows "loader") nodes = false) /\
     (forall page,
        render_page W (ui c') = Ok page -> existsb (shows "loader") page = false)).
Proof.
  intros ended Hrun.
  assert (Hended : ended -> phase c = Finished).
  { intros [Htext [Hall|(specs & i & spec & Htc & Hs & Hcb & Hans)]].
    - apply (all_answered W evs c Hrun Htext Hall).
    - apply (rejected_ends W specs evs c i spec Htc Hs Hcb Hrun Htext Hans). }
  split.
  - split; [exact Hended|]. intros Hph. split.
    + apply (unanswered_run W evs c Hrun). congruence.
    + apply (ended_is_answered W evs c Hrun Hph).
  - intros He evs' c' Hexec.
    pose proof (finished_exec W evs' c c' (Hended He) Hexec) as Hph'.
    split; [exact Hph'|].
    apply (ended_page W (evs ++ evs') c' (run_app W evs evs' c c' Hrun Hexec) Hph').
Qed.

Lemma loading_ends_witness :
  (exists c,
     run (two_tees_world false) [TextDone; ImageDone 1; ImageDone 0] = Some c /\
     length (products (ui c)) = 2%nat /\ error (ui c) = "" /\
     phase c = Finished /\ loading (ui c) = false) /\
  (exists c c',
     run (two_tees_world true) [TextDone; ImageDone 1] = Some c /\
     exec (two_tees_world true) c [ClickBubble; ImageDone 0] = Some c' /\
     error (ui c') = error_message /\
     phase c' = Finished /\ loading (ui c') = false).
Proof.
  split.
  - destruct (run (two_tees_world false) [TextDone; ImageDone 1; ImageDone 0])
      as [c|] eqn:Hrun; [|vm_compute in Hrun; discriminate].
    exists c. split; [reflexivity|].
    assert (Hcalls : image_calls (log c)
                     = [(0%nat, image_request "Boss Tee");
                        (1%nat, image_request "Lag Slayer")]).
    { vm_compute in Hrun. injection Hrun as <-. reflexivity. }
    assert (Hprods : length (products (ui c)) = 2%nat /\ error (ui c) = "").
    { vm_compute in Hrun. injection Hrun as <-. split; reflexivity. }
    split; [apply Hprods|]. split; [apply Hprods|].
    destruct (loading_ends_with_the_workflow (two_tees_world false) _ c Hrun)
      as [_ Hend].
    refine (let H := Hend _ [] c eq_refl in conj (proj1 H) (proj1 (proj2 H))).
    split; [left|]. left. intros i request Hin. rewrite Hcalls in Hin.
    apply elem_of_cons in Hin as [Hin|Hin]; [injection Hin as -> _; right; right; left|].
    apply elem_of_cons in Hin as [Hin|Hin]; [injection Hin as -> _; right; left|].
    inversion Hin.
  - destruct (run (two_tees_world true) [TextDone; ImageDone 1]) as [c|] eqn:Hrun;
      [|vm_compute in Hrun; discriminate].
    destruct (exec (two_tees_world true) c [ClickBubble; ImageDone 0]) as [c'|] eqn:Hexec;
      [|vm_compute in Hrun; injection Hrun as <-; vm_compute in Hexec; discriminate].
    exists c, c'. split; [reflexivity|]. split; [exact Hexec|].
    split.
    { vm_compute in Hrun. injection Hrun as <-. vm_compute in Hexec.
      injection Hexec as <-. reflexivity. }
    destruct (loading_ends_with_the_workflow (two_tees_world true) _ c Hrun)
      as [_ Hend].
    refine (let H := Hend _ _ c' Hexec in conj (proj1 H) (proj1 (proj2 H))).
    split; [left|]. right. exists [boss_tee; lag_tee], 1%nat, lag_tee.
    split; [reflexivity|]. split; [reflexivity|]. split; [reflexivity|].
    right. right. left.
Defined.

(** * Further properties of the code *)

(** ** Start-up *)

(** X1. The module body goes on exactly when [API_KEY] is set to a string
    that is not empty: then [App] is mounted with the client holding that
    key, the state as [useState] gives it and the text call on its way. The
    empty string is refused like a missing key. *)
Theorem startup_needs_nonempty_key (W : World) :
  (forall c,
     main W = Mounted c ->
     exists key,
       env W "API_KEY" = Some key /\ key <> "" /\
       apiKey (ai c) = key /\ ui c = initial_state /\ phase c = AwaitText /\
       inflight c = [] /\ log c = [EnvRead "API_KEY"; TextCall text_request]) /\
  (forall key,
     env W "API_KEY" = Some key -> key <> "" -> exists c, main W = Mounted c) /\
  (env W "API_KEY" = Some "" ->
   main W = Fatal (Error "API_KEY environment variable not set") [EnvRead "API_KEY"]).
Proof.
  unfold main, module_init, not_string. split; [|split].
  - intros c. destruct (env W "API_KEY") as [key|]; [|discriminate].
    destruct (String.eqb_spec key "") as [->|Hne]; [discriminate|].
    intros H. injection H as <-. exists key. repeat split; auto.
  - intros key -> Hne.
    destruct (String.eqb_spec key "") as [->|_]; [contradiction | eauto].
  - intros ->. reflexivity.
Qed.

Lemma startup_key_witness :
  env empty_key_world "API_KEY" = Some "" /\
  main empty_key_world
  = Fatal (Error "API_KEY environment variable not set") [EnvRead "API_KEY"] /\
  env boss_tee_world "API_KEY" = Some "secret" /\
  exists c, main boss_tee_world = Mounted c /\ apiKey (ai c) = "secret".
Proof.
  destruct (startup_needs_nonempty_key empty_key_world) as (_ & _ & Hempty).
  destruct (startup_needs_nonempty_key boss_tee_world) as (Hkey & Hset & _).
  split; [reflexivity|]. split; [exact (Hempty eq_refl)|]. split; [reflexivity|].
  destruct (Hset "secret" eq_refl) as [c Hc]; [discriminate|].
  exists c. split; [exact Hc|].
  destruct (Hkey c Hc) as (key & Henv & _ & Hapi & _).
  vm_compute in Henv. congruence.
Defined.

(** ** The answer of the text call *)

(** X2. When the text call returns JSON that is not an array (an object, a
    string, a number, [null]), [map] is missing: no image call is ever
    issued, [products] stays empty, and the answer of the text call ends the
    workflow in the error state, with the one [TypeError] logged. *)
Theorem non_array_response_fails (W : World) (v : JSValue) :
  text_call W = Ok v ->
  (forall specs, v <> JSArray specs) ->
  (forall evs c,
     run W evs = Some c ->
     image_calls (log c) = [] /\ products (ui c) = [] /\
     (phase c = Finished ->
      error (ui c) = error_message /\ loading (ui c) = false)) /\
  (forall c0,
     main W = Mounted c0 ->
     exists c,
       run W [TextDone] = Some c /\ phase c = Finished /\
       error (ui c) = error_message /\
       log c = [EnvRead "API_KEY"; TextCall text_request;
                ConsoleError "Error fetching products:" TypeError]).
Proof.
  intros Htc Hv. split.
  - intros evs c Hrun. pose proof (Inv_run W evs c Hrun) as HI. split.
    { rewrite (inv_image_calls W c HI). unfold expected_calls. rewrite Htc.
      destruct (phase c); try reflexivity;
        destruct v; try reflexivity; destruct (Hv elems eq_refl). }
    destruct (ui_cases W evs c Hrun)
      as [[Hph Hu]|[[Hph Hf]|(_ & _ & specs & Htc' & _)]].
    + split; [apply Hu | contradiction].
    + split; [apply Hf|]. intros _. destruct Hf as (_ & Hl & He). auto.
    + rewrite Htc in Htc'. injection Htc' as ->. destruct (Hv specs eq_refl).
  - intros c0 Hmain. eexists. split; [apply run_text_done, Hmain|].
    rewrite (after_text_other W c0 v Htc Hv).
    destruct (log_mount W c0 Hmain) as (Hlog & _).
    simpl. rewrite Hlog. auto.
Qed.

Lemma non_array_response_witness :
  text_call object_world = Ok (JSObject [("items", JSArray [])]) /\
  exists c,
    run object_world [TextDone] = Some c /\ phase c = Finished /\
    image_calls (log c) = [] /\ error (ui c) = error_message.
Proof.
  split; [reflexivity|].
  destruct (non_array_response_fails object_world (JSObject [("items", JSArray [])])
              eq_refl) as [HA HB]; [discriminate|].
  destruct (HB _ eq_refl) as (c & Hrun & Hph & Herr & _).
  exists c. split; [exact Hrun|]. split; [exact Hph|].
  split; [apply (HA _ c Hrun) | exact Herr].
Defined.

(** X3. When the prompt of one element cannot be built (the element is
    [null], or its name has no string), the batch fails at once, with the
    answer of the text call and before any image is answered; the image
    calls of the elements whose prompt could be built have been issued all
    the same and are left in flight, and none was issued for that element. *)
Theorem unbuildable_prompt_fails_at_once
    (W : World) (specs : list JSValue) (i : nat) (spec : JSValue) :
  text_call W = Ok (JSArray specs) ->
  specs !! i = Some spec ->
  is_ok (callback_start W spec) = false ->
  forall c0,
    main W = Mounted c0 ->
    exists c,
      run W [TextDone] = Some c /\ phase c = Finished /\
      error (ui c) = error_message /\ products (ui c) = [] /\
      loading (ui c) = false /\
      inflight c = issued (started W specs) /\
      image_calls (log c) = calls_of W specs /\
      (i ∉ fst <$> image_calls (log c)) /\
      (forall j s request,
         specs !! j = Some s -> callback_start W s = Ok request ->
         (j, request) ∈ image_calls (log c)).
Proof.
  intros Htc Hs Hfail c0 Hmain.
  eexists. split; [apply run_text_done, Hmain|].
  rewrite (after_text_array W c0 specs Htc). unfold promise_all.
  destruct (first_rejected (started W specs)) as [e|] eqn:Hrej.
  2:{ rewrite first_rejected_None in Hrej.
      specialize (Hrej (i, spec, callback_start W spec)). simpl in Hrej.
      rewrite Hrej in Hfail; [discriminate|]. apply elem_of_started. eauto. }
  destruct (log_mount W c0 Hmain) as (Hlog & Hui & _).
  assert (Hcalls : image_calls (log (on_failure e
             (emit ((fun p => ImageCall (index p) (request p))
                      <$> issued (started W specs))
                (with_inflight (issued (started W specs)) c0))))
           = calls_of W specs).
  { simpl. rewrite Hlog. unfold image_calls. rewrite !omap_app. simpl.
    fold image_calls. rewrite image_calls_issued. apply app_nil_r. }
  rewrite Hcalls. simpl. rewrite Hui. simpl.
  repeat split; auto.
  - intros Hin. apply list_elem_of_fmap in Hin as ([j request] & -> & Hin).
    unfold calls_of in Hin. apply list_elem_of_fmap in Hin as (p & Heq & Hp).
    injection Heq as -> ->.
    apply elem_of_issued, elem_of_started in Hp as (j & s & Heq & Hj).
    injection Heq as Hidx Hprod Hreq. simpl in Hs. rewrite <- Hidx in Hj.
    assert (s = spec) as -> by congruence.
    rewrite <- Hreq in Hfail. discriminate.
  - intros j s request Hj Hreq. unfold calls_of. apply list_elem_of_fmap.
    exists {| index := j; product := s; request := request |}.
    split; [reflexivity|]. apply elem_of_issued. simpl. rewrite <- Hreq.
    apply elem_of_started. eauto.
Qed.

Lemma unbuildable_prompt_witness :
  text_call null_element_world = Ok (JSArray [boss_tee; JSNull]) /\
  is_ok (callback_start null_element_world JSNull) = false /\
  exists c,
    run null_element_world [TextDone] = Some c /\ phase c = Finished /\
    error (ui c) = error_message /\
    image_calls (log c) = [(0%nat, image_request "Boss Tee")].
Proof.
  split; [reflexivity|]. split; [reflexivity|].
  destruct (unbuildable_prompt_fails_at_once null_element_world
              [boss_tee; JSNull] 1 JSNull eq_refl eq_refl eq_refl _ eq_refl)
    as (c & Hrun & Hph & Herr & _ & _ & _ & Hcalls & _).
  exists c. split; [exact Hrun|]. split; [exact Hph|]. split; [exact Herr|].
  rewrite Hcalls. reflexivity.
Defined.

(** ** The fan-out and the fan-in *)

(** X4. One text call, and for it one image call per element whose prompt
    can be built: once the text call has returned an array, the log of
    every run holds the one text request and the image calls of the
    elements, each once, in the order of the array, each asking for one PNG
    with the prompt made from the name of its element; when no callback
    fails they are as many as the elements. *)
Theorem one_image_call_per_spec (W : World) (specs : list JSValue) :
  text_call W = Ok (JSArray specs) ->
  forall evs c,
    run W evs = Some c ->
    phase c <> AwaitText ->
    text_calls (log c) = [text_request] /\
    fst <$> image_calls (log c) `sublist_of` seq 0 (length specs) /\
    (forall i request,
       (i, request) ∈ image_calls (log c) <->
       exists spec name,
         specs !! i = Some spec /\
         (GetV spec "name" ≫= ToString (Number_toString W)) = Ok name /\
         request = image_request name) /\
    (is_ok (merged W specs) = true ->
     fst <$> image_calls (log c) = seq 0 (length specs)).
Proof.
  intros Htc evs c Hrun Hph. pose proof (Inv_run W evs c Hrun) as HI.
  split; [apply (inv_text_calls W c HI)|].
  assert (Hcalls : image_calls (log c) = calls_of W specs).
  { rewrite (inv_image_calls W c HI). unfold expected_calls. rewrite Htc.
    destruct (phase c); [contradiction | reflexivity | reflexivity]. }
  rewrite Hcalls. unfold calls_of. rewrite <- list_fmap_compose.
  change (fst ∘ (fun p : Pending => (index p, request p))) with index.
  assert (Hsub : index <$> issued (started W specs) `sublist_of` seq 0 (length specs))
    by apply (issued_from_sublist W specs 0).
  split; [exact Hsub|]. split.
  - intros i request. rewrite list_elem_of_fmap. split.
    + intros (p & Heq & Hp). injection Heq as -> ->.
      apply elem_of_issued, elem_of_started in Hp as (j & spec & Heq & Hs).
      injection Heq as <- <- Hreq. unfold callback_start in Hreq.
      destruct (GetV (product p) "name" ≫= ToString (Number_toString W))
        as [name|e] eqn:Hn.
      * exists (product p), name. split; [exact Hs|]. split; [exact Hn|].
        apply bind_Ok in Hn as (nm & Hnm & Hs'). rewrite Hnm in Hreq. simpl in Hreq.
        rewrite Hs' in Hreq. simpl in Hreq. congruence.
      * exfalso. destruct (GetV (product p) "name") as [nm|]; simpl in *;
          [|discriminate].
        destruct (ToString (Number_toString W) nm); simpl in *; discriminate.
    + intros (spec & name & Hs & Hn & ->).
      exists {| index := i; product := spec; request := image_request name |}.
      split; [reflexivity|]. apply elem_of_issued. simpl.
      apply elem_of_started. exists i, spec. split; [|exact Hs].
      f_equal. unfold callback_start.
      apply bind_Ok in Hn as (nm & Hnm & Hs'). rewrite Hnm. simpl. rewrite Hs'.
      reflexivity.
  - intros Hok. apply sublist_same_length; [exact Hsub|].
    rewrite length_fmap, List.length_seq.
    assert (Hrej : first_rejected (started W specs) = None).
    { destruct (first_rejected (started W specs)) as [e|] eqn:Hrej; [|reflexivity].
      rewrite (first_rejected_Some W specs e Hrej) in Hok. discriminate. }
    apply (issued_all W specs Hrej).
Qed.

Lemma one_image_call_witness :
  text_call (two_tees_world false) = Ok (JSArray [boss_tee; lag_tee]) /\
  exists c,
    run (two_tees_world false) [TextDone; ImageDone 1] = Some c /\
    phase c <> AwaitText /\
    text_calls (log c) = [text_request] /\
    image_calls (log c)
    = [(0%nat, image_request "Boss Tee"); (1%nat, image_request "Lag Slayer")].
Proof.
  split; [reflexivity|].
  eexists. split; [vm_compute; reflexivity|]. split; [discriminate|].
  split; [|reflexivity].
  refine (proj1 (one_image_call_per_spec (two_tees_world false) [boss_tee; lag_tee]
                   eq_refl [TextDone; ImageDone 1] _ _ _)).
  - reflexivity.
  - discriminate.
Defined.

(** X5. The workflow runs once and is not tried again: when it has ended,
    whatever happens next (late answers of image calls, clicks) leaves
    [products], [loading] and [error] as they are and issues no call and
    logs nothing. *)
Theorem ended_workflow_is_final (W : World) (evs : list Event) (c c' : Config) :
  phase c = Finished ->
  exec W c evs = Some c' ->
  phase c' = Finished /\
  products (ui c') = products (ui c) /\ loading (ui c') = loading (ui c) /\
  error (ui c') = error (ui c) /\ log c' = log c.
Proof.
  revert c. induction evs as [|ev evs IH]; intros c Hph; simpl.
  - intros H. injection H as <-. auto.
  - destruct (step W c ev) as [c1|] eqn:Hstep; simpl; [|discriminate].
    intros Hexec.
    destruct (finished_step_frame W c c1 ev Hph Hstep) as (Hp & Hl & He & Hlog).
    destruct (IH c1 (finished_step W c c1 ev Hph Hstep) Hexec)
      as (Hph' & Hp' & Hl' & He' & Hlog').
    repeat split; congruence.
Qed.

Lemma ended_workflow_witness :
  exists c c',
    run (two_tees_world true) [TextDone; ImageDone 1] = Some c /\
    phase c = Finished /\
    exec (two_tees_world true) c [ImageDone 0; ClickBubble] = Some c' /\
    products (ui c') = [] /\ error (ui c') = error_message /\ log c' = log c.
Proof.
  eexists. eexists.
  split; [vm_compute; reflexivity|]. split; [reflexivity|].
  split; [vm_compute; reflexivity|].
  split; [reflexivity|]. split; [reflexivity|].
  refine (proj2 (proj2 (proj2 (proj2
            (ended_workflow_is_final (two_tees_world true) [ImageDone 0; ClickBubble]
               _ _ _ _))))); reflexivity.
Defined.

(** X6. How the workflow ends does not depend on the order of the answers,
    in failure no more than in success: two runs of one world that have
    both ended hold the same [products], [loading] and [error]. *)
Theorem outcome_is_schedule_independent
    (W : World) (evs1 evs2 : list Event) (c1 c2 : Config) :
  run W evs1 = Some c1 -> run W evs2 = Some c2 ->
  phase c1 = Finished -> phase c2 = Finished ->
  products (ui c1) = products (ui c2) /\
  loading (ui c1) = loading (ui c2) /\
  error (ui c1) = error (ui c2).
Proof.
  intros Hrun1 Hrun2 Hph1 Hph2.
  destruct (ui_cases W evs1 c1 Hrun1)
    as [[Hne _]|[[_ Hf1]|(_ & Hs1 & specs & Htc & Hm1)]]; [contradiction| |].
  - destruct (ui_cases W evs2 c2 Hrun2)
      as [[Hne _]|[[_ Hf2]|(_ & _ & specs & Htc & Hm2)]]; [contradiction| |].
    + destruct Hf1 as (-> & -> & ->). destruct Hf2 as (-> & -> & ->). auto.
    + pose proof (finished_outcome W evs1 c1 specs Hrun1 Htc Hph1) as Hout.
      rewrite Hm2 in Hout. simpl in Hout.
      destruct Hout as (_ & _ & _ & He). destruct Hf1 as (_ & _ & He').
      rewrite He' in He. discriminate.
  - pose proof (finished_outcome W evs2 c2 specs Hrun2 Htc Hph2) as Hout.
    rewrite Hm1 in Hout. simpl in Hout.
    destruct Hout as (Heq & _ & Hl & He). destruct Hs1 as (_ & Hl' & He').
    injection Heq as Heq. repeat split; congruence.
Qed.

Lemma outcome_witness :
  exists c1 c2,
    run (two_tees_world false) [TextDone; ImageDone 0; ImageDone 1] = Some c1 /\
    run (two_tees_world false) [TextDone; ClickBubble; ImageDone 1; ImageDone 0] = Some c2 /\
    phase c1 = Finished /\ phase c2 = Finished /\
    products (ui c1) = products (ui c2).
Proof.
  eexists. eexists.
  split; [vm_compute; reflexivity|]. split; [vm_compute; reflexivity|].
  split; [reflexivity|]. split; [reflexivity|].
  refine (proj1 (outcome_is_schedule_independent (two_tees_world false)
                   [TextDone; ImageDone 0; ImageDone 1]
                   [TextDone; ClickBubble; ImageDone 1; ImageDone 0] _ _ _ _ _ _));
    reflexivity.
Defined.

(** X7. The products are set only behind the barrier: in a run that has
    ended without the error message every element has had its image call,
    every one of those calls has been answered in the run, and none is
    still in flight. *)
Theorem products_wait_for_all_images
    (W : World) (specs : list JSValue) (evs : list Event) (c : Config) :
  text_call W = Ok (JSArray specs) ->
  run W evs = Some c ->
  phase c = Finished -> error (ui c) = "" ->
  inflight c = [] /\
  fst <$> image_calls (log c) = seq 0 (length specs) /\
  length (products (ui c)) = length (image_calls (log c)) /\
  (forall i, i < length specs -> ImageDone i ∈ evs).
Proof.
  intros Htc Hrun Hph Herr. pose proof (Inv_run W evs c Hrun) as HI.
  destruct (inv_phase W c HI)
    as [Hph' _ _|? ? ? Hph' _ _ _ _ _ _ _ _|_ (_ & _ & Hf) _|specs' _ Htc' _ Hm Hfl];
    try congruence.
  { rewrite Hf in Herr. discriminate. }
  assert (specs' = specs) as -> by congruence.
  split; [exact Hfl|].
  assert (Hcalls : image_calls (log c) = calls_of W specs).
  { rewrite (inv_image_calls W c HI). unfold expected_calls. rewrite Htc, Hph.
    reflexivity. }
  assert (Hok : is_ok (merged W specs) = true) by (rewrite Hm; reflexivity).
  assert (Hrej : first_rejected (started W specs) = None).
  { destruct (first_rejected (started W specs)) as [e|] eqn:Hrej; [|reflexivity].
    rewrite (first_rejected_Some W specs e Hrej) in Hok. discriminate. }
  destruct (issued_all W specs Hrej) as [Hlen Hall].
  assert (Hseq : fst <$> calls_of W specs = seq 0 (length specs)).
  { unfold calls_of. rewrite <- list_fmap_compose.
    change (fst ∘ (fun p : Pending => (index p, request p))) with index.
    apply sublist_same_length; [apply (issued_from_sublist W specs 0)|].
    rewrite length_fmap, List.length_seq. exact Hlen. }
  rewrite Hcalls. split; [exact Hseq|]. split.
  { apply merged_Ok in Hm as [Hm _]. rewrite <- Hm.
    unfold calls_of. rewrite length_fmap. symmetry. exact Hlen. }
  intros i Hi. unfold run in Hrun.
  destruct (main W) as [|c0] eqn:Hmain; [discriminate|].
  destruct (log_mount W c0 Hmain) as (_ & _ & Hfl0).
  destruct (before_text W evs c0 c (phase_mount W c0 Hmain) Hfl0 Hrun)
    as [Habs|(post & cb & Hai & Hpost & Hsub)]; [congruence|].
  apply Hsub.
  assert (Hcb : ai cb = client W)
    by (rewrite Hai; apply (inv_ai W c0 (Inv_mount W c0 Hmain))).
  destruct (lookup_lt_is_Some_2 specs i Hi) as [spec Hspec].
  destruct (answered_exec W post _ c (phase_after_text W _ cb) Hpost i) as [Hin|Hin].
  - rewrite (inflight_after_text W cb specs Hcb Htc). eapply Hall; eauto.
  - rewrite Hfl in Hin. inversion Hin.
  - exact Hin.
Qed.

Lemma products_wait_witness :
  text_call (two_tees_world false) = Ok (JSArray [boss_tee; lag_tee]) /\
  exists c,
    run (two_tees_world false) [TextDone; ImageDone 1; ImageDone 0] = Some c /\
    phase c = Finished /\ error (ui c) = "" /\ inflight c = [] /\
    length (products (ui c)) = 2%nat.
Proof.
  split; [reflexivity|].
  eexists. split; [vm_compute; reflexivity|].
  split; [reflexivity|]. split; [reflexivity|]. split; [|reflexivity].
  refine (proj1 (products_wait_for_all_images (two_tees_world false)
                   [boss_tee; lag_tee] [TextDone; ImageDone 1; ImageDone 0]
                   _ _ _ _ _)); reflexivity.
Defined.

(** ** What makes the workflow fail *)

(** X8. A run that has ended shows the error message in exactly these
    cases: the text call failed or did not return an array, or for some
    element of the array the prompt could not be built, the image call
    threw, or its answer held no first image. Missing image bytes alone do
    not count. *)
Theorem error_state_characterised (W : World) (evs : list Event) (c : Config) :
  run W evs = Some c ->
  phase c = Finished ->
  (error (ui c) = error_message <->
   match text_call W with
   | Ok (JSArray specs) =>
       exists i spec,
         specs !! i = Some spec /\
         (is_ok (callback_start W spec) = false \/
          exists request,
            callback_start W spec = Ok request /\
            match generateImages W (client W) i request with
            | Throw _ => True
            | Ok answer => has_first_image answer = false
            end)
   | _ => True
   end).
Proof.
  intros Hrun Hph.
  destruct (text_call W) as [v|e] eqn:Htc.
  2:{ split; [auto|]. intros _.
      destruct (ui_cases W evs c Hrun)
        as [[Hne _]|[[_ Hf]|(_ & _ & specs & Htc' & _)]];
        [contradiction | apply Hf | congruence]. }
  destruct v as [| | | | |specs|];
    try (split; [auto|]; intros _;
         destruct (ui_cases W evs c Hrun)
           as [[Hne _]|[[_ Hf]|(_ & _ & specs & Htc' & _)]];
         [contradiction | apply Hf | congruence]).
  pose proof (finished_outcome W evs c specs Hrun Htc Hph) as Hout.
  destruct (is_ok (merged W specs)) eqn:Hok.
  - destruct Hout as (Hm & _ & _ & He). split.
    + rewrite He. discriminate.
    + intros (i & spec & Hs & Hfail). exfalso.
      apply (callback_not_ok W (client W) i spec) in Hfail.
      rewrite (merged_Throw W specs i spec Hs Hfail) in Hok. discriminate.
  - split; [|intros _; apply Hout]. intros _.
    destruct (merged_not_ok W specs Hok) as (i & spec & Hs & Hfail).
    exists i, spec. split; [exact Hs|].
    apply (callback_not_ok W (client W) i spec). exact Hfail.
Qed.

Lemma error_state_witness :
  exists c,
    run no_image_world [TextDone; ImageDone 0] = Some c /\
    phase c = Finished /\
    error (ui c) = error_message /\
    exists request answer,
      callback_start no_image_world boss_tee = Ok request /\
      generateImages no_image_world (client no_image_world) 0 request = Ok answer /\
      has_first_image answer = false.
Proof.
  eexists. split; [vm_compute; reflexivity|]. split; [reflexivity|].
  split.
  - refine (proj2 (error_state_characterised no_image_world
                     [TextDone; ImageDone 0] _ _ _) _); try reflexivity.
    exists 0%nat, boss_tee. split; [reflexivity|]. right.
    eexists. split; reflexivity.
  - eexists. eexists. repeat split; reflexivity.
Defined.

(** ** The page *)

(** X9. Every state a run reaches renders, and shows exactly one of the
    three views: the loader as long as the workflow has not ended, and then
    either the error message or the grid, never two of them and never
    none; [loading] is on exactly as long as the workflow has not ended. *)
Theorem page_shows_one_view (W : World) (evs : list Event) (c : Config) :
  run W evs = Some c ->
  loading (ui c) = negb (is_finished (phase c)) /\
  exists nodes,
    App_render (ui c) = Ok nodes /\
    existsb (shows "loader") nodes = negb (is_finished (phase c)) /\
    existsb (shows "error") nodes
    = is_finished (phase c) && truthy (error (ui c)) /\
    existsb (shows "products-grid") nodes
    = is_finished (phase c) && negb (truthy (error (ui c))).
Proof.
  intros Hrun.
  destruct (ui_cases W evs c Hrun)
    as [[Hph Hu]|[[Hph Hf]|(Hph & Hs & specs & _ & Hm)]].
  - assert (Hfin : is_finished (phase c) = false)
      by (destruct (phase c); [reflexivity | reflexivity | contradiction]).
    rewrite Hfin. pose proof (App_render_untouched _ Hu) as Hpage.
    destruct Hu as (_ & Hl & _). split; [exact Hl|].
    eexists. split; [exact Hpage|]. repeat split.
  - rewrite Hph. pose proof (App_render_failed _ Hf) as Hpage.
    destruct Hf as (_ & Hl & He). split; [exact Hl|]. rewrite He.
    eexists. split; [exact Hpage|]. repeat split.
  - rewrite Hph. destruct Hs as (_ & Hl & He). split; [exact Hl|]. rewrite He.
    destruct (merged_cards W specs _ Hm) as [cards Hcards].
    exists (products_page cards (isChatOpen (ui c))).
    split; [apply App_render_shown; auto|]. simpl.
    rewrite (cards_show_no_class "loader" _ _ Hcards).
    rewrite (cards_show_no_class "error" _ _ Hcards). repeat split.
Qed.

(** X10. Every product a run ever holds is the element of the text
    response at its index with an [imageUrl] put on it: the [imageUrl] is a
    string that starts as a PNG data URI, whatever [imageUrl] the element
    brought itself, and every other property of an element that is an
    object is kept as it was, the ones outside the schema too. *)
Theorem products_are_specs_with_image
    (W : World) (specs : list JSValue) (evs : list Event) (c : Config)
    (i : nat) (prod : JSValue) :
  text_call W = Ok (JSArray specs) ->
  run W evs = Some c ->
  products (ui c) !! i = Some prod ->
  exists spec bytes,
    specs !! i = Some spec /\
    GetV prod "imageUrl" = Ok (JSString ("data:image/png;base64," ++ bytes)) /\
    (forall props key,
       spec = JSObject props -> key <> "imageUrl" ->
       GetV prod key = Ok (obj_get key props)).
Proof.
  intros Htc Hrun Hp.
  destruct (ui_cases W evs c Hrun)
    as [[_ Hu]|[[_ Hf]|(_ & _ & specs' & Htc' & Hm)]].
  - destruct Hu as [Hnil _]. rewrite Hnil in Hp. discriminate.
  - destruct Hf as [Hnil _]. rewrite Hnil in Hp. discriminate.
  - assert (specs' = specs) as -> by congruence.
    apply merged_Ok in Hm as [Hlen Hcb].
    destruct (lookup_lt_is_Some_2 specs i) as [spec Hs].
    { rewrite Hlen. eapply lookup_lt_Some; eauto. }
    specialize (Hcb i spec prod Hs Hp).
    apply callback_extends in Hcb as (name & resp & url & _ & _ & Hurl & ->).
    unfold imageUrl_of in Hurl.
    apply bind_Ok in Hurl as (images & _ & Hurl).
    apply bind_Ok in Hurl as (first & _ & Hurl).
    apply bind_Ok in Hurl as (img & _ & Hurl). injection Hurl as <-.
    exists spec, (default "undefined" (imageBytes img)).
    split; [exact Hs|]. split.
    + simpl. rewrite obj_get_set_eq. reflexivity.
    + intros props key -> Hne. simpl. rewrite obj_get_set_ne by exact Hne.
      reflexivity.
Qed.

Lemma products_with_image_witness :
  text_call (two_tees_world false) = Ok (JSArray [boss_tee; lag_tee]) /\
  exists c prod bytes,
    run (two_tees_world false) [TextDone; ImageDone 1; ImageDone 0] = Some c /\
    products (ui c) !! 1%nat = Some prod /\
    GetV prod "imageUrl" = Ok (JSString ("data:image/png;base64," ++ bytes)) /\
    GetV prod "name" = Ok (JSString "Lag Slayer").
Proof.
  split; [reflexivity|].
  destruct (run (two_tees_world false) [TextDone; ImageDone 1; ImageDone 0])
    as [c|] eqn:Hrun; [|vm_compute in Hrun; discriminate].
  destruct (products (ui c) !! 1%nat) as [prod|] eqn:Hp.
  2:{ vm_compute in Hrun. injection Hrun as <-. discriminate. }
  destruct (products_are_specs_with_image (two_tees_world false) [boss_tee; lag_tee]
              [TextDone; ImageDone 1; ImageDone 0] c 1 prod eq_refl Hrun Hp)
    as (spec & bytes & Hs & Hurl & Hkeep).
  exists c, prod, bytes. split; [reflexivity|]. split; [exact Hp|].
  split; [exact Hurl|].
  injection Hs as <-. apply (Hkeep _ "name" eq_refl). discriminate.
Defined.

Lemma page_view_witness :
  exists c nodes,
    run (two_tees_world false) [TextDone; ImageDone 1] = Some c /\
    is_finished (phase c) = false /\ loading (ui c) = true /\
    App_render (ui c) = Ok nodes /\
    existsb (shows "loader") nodes = true /\
    existsb (shows "products-grid") nodes = false.
Proof.
  destruct (run (two_tees_world false) [TextDone; ImageDone 1])
    as [c|] eqn:Hrun; [|vm_compute in Hrun; discriminate].
  destruct (page_shows_one_view (two_tees_world false) [TextDone; ImageDone 1] c Hrun)
    as (Hload & nodes & Hpage & Hloader & _ & Hgrid).
  assert (Hfin : is_finished (phase c) = false)
    by (vm_compute in Hrun; injection Hrun as <-; reflexivity).
  rewrite Hfin in *.
  exists c, nodes. repeat split; assumption.
Defined.

(** ** The cards *)

(** X11. The card of a product whose name, description and image URL are
    strings and whose price is a number renders, and shows the name, the
    description, the price as a dollar sign and [toFixed(2)] of the number,
    the URL as the source of the image, and the name inside the alternative
    text and the label of the button. *)
Theorem card_shows_product
    (W : World) (props : Obj) (name description imageUrl : string) (price : number) :
  obj_get "name" props = JSString name ->
  obj_get "description" props = JSString description ->
  obj_get "price" props = JSNumber price ->
  obj_get "imageUrl" props = JSString imageUrl ->
  exists card,
    ProductCard_render W (JSObject props) = Ok card /\
    textContent W <$> find_class "product-name" card = Some name /\
    textContent W <$> find_class "product-description" card = Some description /\
    textContent W <$> find_class "product-price" card
    = Some ("$" ++ toFixed (Number_toString W) 2 price) /\
    find_class "product-image" card ≫= attribute "src" = Some (JSString imageUrl) /\
    find_class "product-image" card ≫= attribute "alt"
    = Some (JSString ("AI generated image of " ++ name)) /\
    find_class "buy-button" card ≫= attribute "aria-label"
    = Some (JSString ("Add " ++ name ++ " to cart")).
Proof.
  intros Hn Hd Hp Hu. unfold ProductCard_render. simpl.
  rewrite Hn, Hd, Hp, Hu. simpl.
  eexists. split; [reflexivity|]. simpl.
  rewrite !append_empty_r. repeat split; reflexivity.
Qed.

Lemma card_shows_witness :
  exists card,
    ProductCard_render boss_tee_world boss_tee_product = Ok card /\
    textContent boss_tee_world <$> find_class "product-price" card = Some "$24.99" /\
    find_class "buy-button" card ≫= attribute "aria-label"
    = Some (JSString "Add Boss Tee to cart").
Proof.
  destruct (card_shows_product boss_tee_world
              [("name", JSString "Boss Tee");
               ("description", JSString "Defeat lag in style");
               ("price", JSNumber double_24_99);
               ("imageUrl", JSString "data:image/png;base64,AAAA")]
              "Boss Tee" "Defeat lag in style" "data:image/png;base64,AAAA"
              double_24_99 eq_refl eq_refl eq_refl eq_refl)
    as (card & Hcard & _ & _ & Hprice & _ & _ & Hlabel).
  exists card. split; [exact Hcard|]. split; [exact Hprice | exact Hlabel].
Defined.



(** ** The price on the card *)

(** X13. The price on the card is the price rounded to the nearest cent, a
    half going up in magnitude: for a price [m * 2^e] below [10^21],
    [toFixed(2)] gives a minus sign exactly when the sign bit is set, then
    digits, a point and two digits, and the digits before and after the
    point, read as one decimal numeral, are the whole number [n] with
    [-1/2 < n - 100 * m * 2^e <= 1/2]. *)
Theorem price_is_rounded_half_up
    (nts : number -> string) (s : bool) (m : positive) (e : Z) :
  at_least_1e21 m e = false ->
  exists (whole cents : string) (n : N),
    toFixed nts 2 (S754_finite s m e)
    = (if s then "-" else "") ++ whole ++ "." ++ cents /\
    String.length cents = 2%nat /\
    decimal_value (whole ++ cents) = Some n /\
    ((0 <= e)%Z -> Z.of_N n = (Z.pos m * 100 * 2 ^ e)%Z) /\
    ((e < 0)%Z ->
     (- 2 ^ (- e) < 2 * (Z.of_N n * 2 ^ (- e) - Z.pos m * 100) <= 2 ^ (- e))%Z).
Proof.
  intros Hsmall.
  destruct (place_point_cents (nearest_scaled 2 m e))
    as (whole & cents & Heq & Hlen & Hread & _).
  exists whole, cents, (nearest_scaled 2 m e).
  split; [unfold toFixed; rewrite Hsmall, Heq; destruct s; reflexivity|].
  split; [exact Hlen|]. split; [exact Hread|].
  apply nearest_scaled_half_up.
Qed.

Lemma price_rounding_witness :
  at_least_1e21 7034059667999293 (-48) = false /\
  exists whole cents n,
    "24.99" = whole ++ "." ++ cents /\
    String.length cents = 2%nat /\
    decimal_value (whole ++ cents) = Some n /\
    (- 2 ^ 48 < 2 * (Z.of_N n * 2 ^ 48 - 7034059667999293 * 100) <= 2 ^ 48)%Z.
Proof.
  split; [reflexivity|].
  destruct (price_is_rounded_half_up (fun _ => "?") false 7034059667999293 (-48) eq_refl)
    as (whole & cents & n & Heq & Hlen & Hread & _ & Hnear).
  exists whole, cents, n. split; [exact Heq|]. split; [exact Hlen|].
  split; [exact Hread|]. exact (Hnear ltac:(lia)).
Defined.

(** X14. A price below [10^21] is shown as decimal digits with a decimal
    point and exactly two digits after it; before it stands at least one
    digit, a single [0] or a numeral without a leading zero; a minus sign
    comes first exactly when the price is negative, also when it rounds to
    zero, and a zero of either sign is shown as [0.00]. *)
Theorem price_has_two_decimals (nts : number -> string) (x : number) :
  match x with
  | S754_finite _ m e => at_least_1e21 m e = false
  | S754_zero _ => True
  | _ => False
  end ->
  exists whole cents a b,
    toFixed nts 2 x
    = match x with S754_finite true _ _ => "-" | _ => "" end
      ++ whole ++ "." ++ cents /\
    decimal_value whole = Some a /\
    (whole = "0" \/ exists c rest, whole = String c rest /\ c <> "0"%char) /\
    String.length cents = 2%nat /\
    decimal_value cents = Some b /\
    (forall s, x = S754_zero s -> whole = "0" /\ cents = "00").
Proof.
  destruct x as [s|s| |s m e]; try contradiction.
  - intros _. exists "0", "00", 0%N, 0%N. repeat split; auto.
  - intros Hsmall.
    destruct (place_point_shape (nearest_scaled 2 m e))
      as (whole & cents & a & b & Heq & Ha & Hhead & Hlen & Hb & _).
    exists whole, cents, a, b. unfold toFixed. rewrite Hsmall, Heq.
    split; [destruct s; reflexivity|].
    repeat split; auto; discriminate.
Qed.

Lemma price_decimals_witness :
  at_least_1e21 (2 ^ 52) (-52) = false /\
  exists whole cents a b,
    "-1.00" = "-" ++ whole ++ "." ++ cents /\
    decimal_value whole = Some a /\
    (whole = "0" \/ exists c rest, whole = String c rest /\ c <> "0"%char) /\
    String.length cents = 2%nat /\
    decimal_value cents = Some b.
Proof.
  split; [reflexivity|].
  destruct (price_has_two_decimals (fun _ => "?") double_minus_1 eq_refl)
    as (whole & cents & a & b & Heq & Ha & Hhead & Hlen & Hb & _).
  exists whole, cents, a, b. auto.
Defined.

(** ** The console *)

(** X15. One failure, one line on the console: in every run the error
    message is on exactly when one error has been logged, which happens
    only with the workflow ended; never are there two, and a run without
    the message has logged none. *)
Theorem error_is_logged_once (W : World) (evs : list Event) (c : Config) :
  run W evs = Some c ->
  (error (ui c) = "" /\ console_errors (log c) = []) \/
  (phase c = Finished /\ error (ui c) = error_message /\
   exists e, console_errors (log c) = [e]).
Proof.
  unfold run. destruct (main W) as [|c0] eqn:Hmain; [discriminate|].
  apply console_exec. left.
  destruct (log_mount W c0 Hmain) as (Hlog & Hui & _).
  rewrite Hlog, Hui. auto.
Qed.

Lemma error_logged_witness :
  exists c,
    run (two_tees_world true) [TextDone; ImageDone 1; ImageDone 0] = Some c /\
    error (ui c) = error_message /\
    console_errors (log c) = [ServiceError "quota"].
Proof.
  destruct (run (two_tees_world true) [TextDone; ImageDone 1; ImageDone 0])
    as [c|] eqn:Hrun; [|vm_compute in Hrun; discriminate].
  exists c. split; [reflexivity|].
  destruct (error_is_logged_once (two_tees_world true)
              [TextDone; ImageDone 1; ImageDone 0] c Hrun)
    as [[Herr _]|(_ & Herr & e & Hlog)].
  - vm_compute in Hrun. injection Hrun as <-. discriminate.
  - split; [exact Herr|]. rewrite Hlog.
    vm_compute in Hrun. injection Hrun as <-. vm_compute in Hlog.
    injection Hlog as <-. reflexivity.
Defined.

(** ** The chat *)

(** X16. The chat is open or closed by the clicks alone: it starts closed,
    a click on the bubble turns it over, a click on the close button closes
    it, and neither the answers of the calls nor the end of the workflow
    touch it. The chat window carries the class [open] exactly when the
    chat is open, and the page hands the flag to the chat in every state. *)
Theorem chat_follows_clicks_only (W : World) (evs : list Event) (c : Config) :
  run W evs = Some c ->
  isChatOpen (ui c) = chat_after evs false /\
  shows "chat-window open" (LiveChat_render (isChatOpen (ui c))) = chat_after evs false /\
  shows "chat-window " (LiveChat_render (isChatOpen (ui c))) = negb (chat_after evs false) /\
  exists nodes rest,
    App_render (ui c) = Ok nodes /\
    nodes = (rest ++ [VComp (LiveChat (chat_after evs false))])%list.
Proof.
  intros Hrun.
  assert (Hchat : isChatOpen (ui c) = chat_after evs false).
  { unfold run in Hrun. destruct (main W) as [|c0] eqn:Hmain; [discriminate|].
    rewrite (chat_exec W evs c0 c Hrun).
    destruct (log_mount W c0 Hmain) as (_ & Hui & _). rewrite Hui. reflexivity. }
  rewrite <- Hchat. split; [reflexivity|].
  split; [destruct (isChatOpen (ui c)); reflexivity|].
  split; [destruct (isChatOpen (ui c)); reflexivity|].
  destruct (ui_cases W evs c Hrun)
    as [[_ Hu]|[[_ Hf]|(_ & Hs & specs & _ & Hm)]].
  - eexists. eexists. split; [apply App_render_untouched, Hu|].
    unfold loading_page. instantiate (1 := [_; _]). reflexivity.
  - eexists. eexists. split; [apply App_render_failed, Hf|].
    unfold error_page. instantiate (1 := [_; _]). reflexivity.
  - destruct Hs as (_ & Hl & He).
    destruct (merged_cards W specs _ Hm) as [cards Hcards].
    eexists. eexists. split; [apply App_render_shown; eauto|].
    unfold products_page. instantiate (1 := [_; _]). reflexivity.
Qed.

Lemma chat_follows_witness :
  exists c,
    run (two_tees_world false)
      [ClickBubble; TextDone; ClickBubble; ImageDone 0; ClickBubble; ImageDone 1] = Some c /\
    phase c = Finished /\ isChatOpen (ui c) = true /\
    shows "chat-window open" (LiveChat_render (isChatOpen (ui c))) = true.
Proof.
  destruct (run (two_tees_world false)
              [ClickBubble; TextDone; ClickBubble; ImageDone 0; ClickBubble; ImageDone 1])
    as [c|] eqn:Hrun; [|vm_compute in Hrun; discriminate].
  destruct (chat_follows_clicks_only (two_tees_world false) _ c Hrun)
    as (Hchat & Hopen & _).
  exists c. split; [reflexivity|].
  split; [vm_compute in Hrun; injection Hrun as <-; reflexivity|].
  split; [exact Hchat | exact Hopen].
Defined.
